(** * Mini-car-3D: state synchronisation and simulation stepping

    A shallow embedding of the parts of the game client ([src/game.js]) and of
    the authoritative host ([server.js] with physics) that the specification
    talks about: the fixed-step accumulator loop, the snapshot buffer and its
    interpolation, the host's session table, the spawn rules, the prop bounds
    check, the soft speed clamp and the ground-contact counter.

    JavaScript numbers are modelled as exact numbers: rationals [Q] wherever
    the code only adds, multiplies, divides and compares, reals [R] where it
    takes a square root (vector lengths).  Rounding of IEEE doubles is outside
    the model. *)

From Stdlib Require Import QArith Qround Qminmax Qabs ZArith List Bool Psatz.
From Stdlib Require Import Sorted Permutation.
From Stdlib Require Import Reals.
From stdpp Require Import gmap strings.
Import ListNotations.

Local Open Scope Q_scope.

(** ** Numbers shared by the client and the host *)

Module JsNum.

(** [Math.max(a, Math.min(b, v))], the [clamp] helper of both programs
    (and [THREE.MathUtils.clamp]). *)
Definition clamp (v a b : Q) : Q := Qmax a (Qmin b v).

(** [THREE.MathUtils.lerp(x, y, t)]: [(1 - t) * x + t * y]. *)
Definition lerp (x y t : Q) : Q := (1 - t) * x + t * y.

(** [v || 0] on an optional number: [undefined] (and [0]) give [0]. *)
Definition orZero (v : option Q) : Q :=
  match v with Some q => q | None => 0 end.

End JsNum.

(** ** FixedStepScheduler: [tick] of the client, offline branch *)

Module Scheduler.

Definition FIXED_DT : Q := 1 # 60.
Definition MAX_ACCUM : Q := 1 # 4.

Inductive Mode := Online | Offline.

Definition is_offline (m : Mode) : bool :=
  match m with Offline => true | Online => false end.

(** The module-level variables [accumulator] and [last]. *)
Record Clock := mkClock { accumulator : Q; last : Q }.

(** What a frame asks of the rest of the program, in call order. *)
Inductive Call :=
| CapturePreviousTransforms
| StepPhysics (dt : Q)
| SyncPhysicsToMeshes (alpha : Q).

(** A frame: the timestamp handed to [tick], and the two globals
    [NETWORK.mode] and [offlineWorldReady], which network callbacks may
    change between frames. *)
Record Frame := mkFrame { now : Q; mode : Mode; offlineWorldReady : bool }.

(** [while (accumulator >= FIXED_DT) { stepPhysics(FIXED_DT);
    accumulator -= FIXED_DT; }].  [None] when the fuel runs out. *)
Fixpoint stepLoop (fuel : nat) (acc : Q) (calls : list Call)
  : option (Q * list Call) :=
  match fuel with
  | O => None
  | S fuel' =>
      if Qle_bool FIXED_DT acc
      then stepLoop fuel' (acc - FIXED_DT) (calls ++ [StepPhysics FIXED_DT])
      else Some (acc, calls)
  end.

(** [Math.min((now - last) / 1000, 0.05)]. *)
Definition frameDt (now last : Q) : Q := Qmin ((now - last) / 1000) (5 # 100).

(** The scheduling part of [tick(now)]. *)
Definition tick (fuel : nat) (f : Frame) (c : Clock)
  : option (Clock * list Call) :=
  let dt := frameDt (now f) (last c) in
  if is_offline (mode f) && offlineWorldReady f then
    let acc := Qmin (accumulator c + dt) MAX_ACCUM in
    let looped :=
      if Qle_bool FIXED_DT acc
      then stepLoop fuel acc [CapturePreviousTransforms]
      else Some (acc, [])
    in
    match looped with
    | None => None
    | Some (acc', calls) =>
        let alpha := acc' / FIXED_DT in
        Some (mkClock acc' (now f), calls ++ [SyncPhysicsToMeshes alpha])
    end
  else Some (mkClock 0 (now f), []).

(** One entry per frame: the clock before, the frame, the clock after and
    the calls made. *)
Record Report := mkReport {
  before : Clock; frame : Frame; after : Clock; calls : list Call }.

Fixpoint run (fuel : nat) (fs : list Frame) (c : Clock)
  : option (list Report) :=
  match fs with
  | [] => Some []
  | f :: fs' =>
      match tick fuel f c with
      | None => None
      | Some (c', cs) =>
          match run fuel fs' c' with
          | None => None
          | Some rs => Some (mkReport c f c' cs :: rs)
          end
      end
  end.

(** The [dt] arguments of the [stepPhysics] calls of a frame. *)
Fixpoint physicsSteps (cs : list Call) : list Q :=
  match cs with
  | [] => []
  | StepPhysics dt :: cs' => dt :: physicsSteps cs'
  | _ :: cs' => physicsSteps cs'
  end.





(** A run of four frames: 100 ms, 20 ms, a pause of two seconds and an
    online frame. *)
Definition sampleFrames : list Frame :=
  [ mkFrame 100 Offline true; mkFrame 120 Offline true;
    mkFrame 2120 Offline true; mkFrame 2130 Online true ].

End Scheduler.

(** ** Ground contact counter: [updateGroundState] of the client *)

Module Ground.

(** [playerGroundContacts] and [playerGrounded]. *)
Record GroundState := mkGround {
  playerGroundContacts : Z; playerGrounded : bool }.

(** A drained collision event: the two colliders as [world.getCollider]
    returned them ([None] for a missing collider; otherwise the collider's
    handle) and the [started] flag. *)
Record ContactEvent := mkContact {
  c1 : option Z; c2 : option Z; started : bool }.

(** [c?.handle === playerCollider.handle]. *)
Definition sameHandle (c : option Z) (h : Z) : bool :=
  match c with Some h' => Z.eqb h' h | None => false end.

(** [updateGroundState(c1, c2, started)]; [playerCollider] is
    [playerPhysics.collider], [None] before the car has a body. *)
Definition updateGroundState (playerCollider : option Z) (e : ContactEvent)
           (g : GroundState) : GroundState :=
  match playerCollider with
  | None => g
  | Some h =>
      if sameHandle (c1 e) h || sameHandle (c2 e) h then
        let n :=
          if started e then (playerGroundContacts g + 1)%Z
          else Z.max 0 (playerGroundContacts g - 1)
        in mkGround n (0 <? n)%Z
      else g
  end.

(** Does the event involve the player's collider? *)
Definition involves (h : Z) (e : ContactEvent) : bool :=
  sameHandle (c1 e) h || sameHandle (c2 e) h.

(** The states after each event of a sequence, in order. *)
Fixpoint trace (pc : option Z) (es : list ContactEvent) (g : GroundState)
  : list GroundState :=
  match es with
  | [] => []
  | e :: es' =>
      let g' := updateGroundState pc e g in g' :: trace pc es' g'
  end.

(** The flag agrees with the counter: [playerGrounded] is
    [playerGroundContacts > 0]. *)
Definition consistent (g : GroundState) : Prop :=
  playerGrounded g = (0 <? playerGroundContacts g)%Z.

(** Two ends, a begin and two more ends on the player's collider 7. *)
Definition sampleEvents : list ContactEvent :=
  [ mkContact (Some 7%Z) (Some 1%Z) false;
    mkContact (Some 2%Z) (Some 7%Z) false;
    mkContact (Some 7%Z) None true;
    mkContact (Some 7%Z) (Some 1%Z) false;
    mkContact (Some 7%Z) (Some 1%Z) false ].

End Ground.

(** ** ClientReplica: the snapshot buffer and its interpolation *)

Module Replica.
Import JsNum.

(** An entity record of a snapshot: [id], [p], [q], [lv], [av].  A missing
    array is the empty list; a missing component reads as [undefined]. *)
Record EntityState := mkEntity {
  eid : string; p : list Q; q : list Q; lv : list Q; av : list Q }.

(** A received [snapshot] message; [serverTime] may be absent. *)
Record Snapshot := mkSnapshot {
  tick : Z;
  serverTime : option Q;
  players : list EntityState;
  props : list EntityState;
  receivedAt : Q }.

(** The fields of [NETWORK] the replica uses. *)
Record Network := mkNetwork {
  snapshotBuffer : list Snapshot;
  snapshotDelay : Q;
  serverTimeOffset : Q }.

(** [v[i] || 0]. *)
Definition comp (v : list Q) (i : nat) : Q := nth i v 0.

(** [v?.[i] || d] with a non-zero default [d]: a missing or zero component
    gives [d]. *)
Definition compOr (v : list Q) (i : nat) (d : Q) : Q :=
  match nth_error v i with
  | Some x => if Qeq_bool x 0 then d else x
  | None => d
  end.

(** The [lerpVec] closure of [interpolateState]. *)
Definition lerpVec (va vb : list Q) (alpha : Q) : list Q :=
  [ lerp (comp va 0) (comp vb 0) alpha;
    lerp (comp va 1) (comp vb 1) alpha;
    lerp (comp va 2) (comp vb 2) alpha ].

(** [a.id || b.id]: the empty string is falsy. *)
Definition idOr (a b : string) : string :=
  if String.eqb a "" then b else a.

Section Interpolate.
(** [THREE.Quaternion.slerp] on component lists [x; y; z; w]: a library
    function the model does not look into. *)
Variable slerp : list Q -> list Q -> Q -> list Q.

(** [interpolateState(a, b, alpha)]; [None] is a missing state. *)
Definition interpolateState (a b : option EntityState) (alpha : Q)
  : option EntityState :=
  match b with
  | None => a
  | Some sb =>
      match a with
      | None => Some sb
      | Some sa =>
          let qa := [compOr (q sa) 0 0; compOr (q sa) 1 0;
                     compOr (q sa) 2 0; compOr (q sa) 3 1] in
          let qb := [compOr (q sb) 0 0; compOr (q sb) 1 0;
                     compOr (q sb) 2 0; compOr (q sb) 3 1] in
          Some (mkEntity (idOr (eid sa) (eid sb))
                         (lerpVec (p sa) (p sb) alpha)
                         (slerp qa qb alpha)
                         (lerpVec (lv sa) (lv sb) alpha)
                         (lerpVec (av sa) (av sb) alpha))
      end
  end.

(** Component [i] of the position of an interpolated state. *)
Definition positionAt (a b : EntityState) (alpha : Q) (i : nat) : Q :=
  match interpolateState (Some a) (Some b) alpha with
  | Some s => comp (p s) i
  | None => 0
  end.
End Interpolate.

(** [snap.serverTime || 0], the key of both [sort] calls. *)
Definition sortKey (s : Snapshot) : Q := orZero (serverTime s).

(** [snapshotClientTime(snap)]. *)
Definition snapshotClientTime (offset : Q) (s : Snapshot) : Q :=
  sortKey s + offset.

(** [Array.prototype.sort] with the comparator
    [(a, b) => (a.serverTime || 0) - (b.serverTime || 0)].  The sort is
    stable and the comparator is a total preorder on keys, so the result is
    the stable sorted rearrangement, which insertion from the right
    computes. *)
Fixpoint insertByTime (s : Snapshot) (l : list Snapshot) : list Snapshot :=
  match l with
  | [] => [s]
  | x :: l' =>
      if Qle_bool (sortKey s) (sortKey x) then s :: x :: l'
      else x :: insertByTime s l'
  end.

Definition sortByTime (l : list Snapshot) : list Snapshot :=
  fold_right insertByTime [] l.

(** The [snapshot] branch of [handleMessage]: push, sort, and drop the
    front entry when more than 90 are held. *)
Definition receiveSnapshot (snap : Snapshot) (buf : list Snapshot)
  : list Snapshot :=
  let sorted := sortByTime (buf ++ [snap]) in
  if (90 <? length sorted)%nat then tl sorted else sorted.

Definition receiveAll (snaps : list Snapshot) (buf : list Snapshot)
  : list Snapshot :=
  fold_left (fun b s => receiveSnapshot s b) snaps buf.

(** [while (buffer.length > 2 && snapshotClientTime(buffer[1]) <=
    renderTime) buffer.shift()]. *)
Fixpoint prune (offset renderTime : Q) (buf : list Snapshot)
  : list Snapshot :=
  match buf with
  | _ :: ((s1 :: _ :: _) as rest) =>
      if Qle_bool (snapshotClientTime offset s1) renderTime
      then prune offset renderTime rest
      else buf
  | _ => buf
  end.

(** The predicate of the [find] call: the snapshot is not earlier than the
    render time. *)
Definition due (offset renderTime : Q) (s : Snapshot) : bool :=
  Qle_bool renderTime (snapshotClientTime offset s).

(** What [applySnapshotInterpolation] settles before it interpolates the
    entities: the buffer it leaves, the pair and the factor. *)
Record Selection := mkSelection {
  kept : list Snapshot; prev : Snapshot; next : Snapshot; alpha : Q }.

(** [applySnapshotInterpolation()] up to the computation of [alpha];
    [now] is [performance.now()].  [None]: the buffer is empty and the
    function returns at once. *)
Definition applySnapshotInterpolation (now : Q) (net : Network)
  : option Selection :=
  match snapshotBuffer net with
  | [] => None
  | _ :: _ =>
      let off := serverTimeOffset net in
      let sorted := sortByTime (snapshotBuffer net) in
      let renderTime := now - snapshotDelay net * 1000 in
      let buf := prune off renderTime sorted in
      match buf with
      | [] => None
      | first :: _ =>
          let nxt :=
            match find (due off renderTime) buf with
            | Some s => s
            | None => List.last buf first
            end in
          let prevTime := snapshotClientTime off first in
          let nextTime := snapshotClientTime off nxt in
          let span := Qmax 1 (nextTime - prevTime) in
          Some (mkSelection buf first nxt
                  (clamp ((renderTime - prevTime) / span) 0 1))
      end
  end.

(** *** The specification's wording of the same selection *)

(** The second entry of a buffer is not later than the render time. *)
Definition secondDue (offset renderTime : Q) (buf : list Snapshot) : Prop :=
  exists s1, nth_error buf 1 = Some s1
             /\ snapshotClientTime offset s1 <= renderTime.

(** "Pruned from the front while it still has more than 2 entries and the
    second entry's adjusted time is already <= render timestamp". *)
Inductive PrunedTo (offset renderTime : Q)
  : list Snapshot -> list Snapshot -> Prop :=
| pruned_done buf :
    ~ ((2 < length buf)%nat /\ secondDue offset renderTime buf) ->
    PrunedTo offset renderTime buf buf
| pruned_shift s buf out :
    (2 < length (s :: buf))%nat ->
    secondDue offset renderTime (s :: buf) ->
    PrunedTo offset renderTime buf out ->
    PrunedTo offset renderTime (s :: buf) out.

(** "[next] = first entry with adjusted time >= render timestamp (or the
    last entry if none qualifies)". *)
Definition IsNext (offset renderTime : Q) (buf : list Snapshot)
           (nxt : Snapshot) : Prop :=
  (exists pre post,
      buf = pre ++ nxt :: post
      /\ Forall (fun s => snapshotClientTime offset s < renderTime) pre
      /\ renderTime <= snapshotClientTime offset nxt)
  \/ (Forall (fun s => snapshotClientTime offset s < renderTime) buf
      /\ exists pre, buf = pre ++ [nxt]).

(** Sorted by the key of the comparator. *)
Definition keySorted (l : list Snapshot) : Prop :=
  StronglySorted (fun a b => sortKey a <= sortKey b) l.

(** Sorted ascending by adjusted server time. *)
Definition sortedByTime (offset : Q) (buf : list Snapshot) : Prop :=
  StronglySorted
    (fun a b => snapshotClientTime offset a <= snapshotClientTime offset b)
    buf.

(** No two entries carry the same tick index. *)
Definition distinctTicks (buf : list Snapshot) : Prop :=
  List.NoDup (map tick buf).

(** An entity at two instants, and a stand-in for the library's [slerp]. *)
Definition sampleA : EntityState :=
  mkEntity "car" [0; 1; 2] [0; 0; 0; 1] [0; 0; 0] [0; 0; 0].
Definition sampleB : EntityState :=
  mkEntity "car" [10; -1; 2] [0; 0; 0; 1] [0; 0; 0] [0; 0; 0].
Definition sampleSlerp (qa qb : list Q) (t : Q) : list Q := qa.

(** Two deliveries of server tick 5. *)
Definition sampleTwice : list Snapshot :=
  [ mkSnapshot 5 (Some 1000) [] [] 10; mkSnapshot 5 (Some 1000) [] [] 11 ].

(** A buffer that holds 90 entries. *)
Definition sampleFull : list Snapshot :=
  repeat (mkSnapshot 0 (Some 500) [] [] 0) 90.

(** Three snapshots, the last one older than the second. *)
Definition sampleSnapshots : list Snapshot :=
  [ mkSnapshot 1 (Some 1000) [] [] 10; mkSnapshot 3 (Some 1100) [] [] 11;
    mkSnapshot 2 (Some 1050) [] [] 12 ].

End Replica.

(** ** The authoritative host: sessions, spawning, props *)

Module Host.
Import JsNum.

Record Vec3 := mkVec3 { vx : Q; vy : Q; vz : Q }.
Record Quat := mkQuat { qx : Q; qy : Q; qz : Q; qw : Q }.

Definition zeroVec : Vec3 := mkVec3 0 0 0.

(** A rigid body of the physics world, as far as the host reads and
    writes it.  [asleep] is cleared by the [wakeUp] argument of the
    setters. *)
Record Body := mkBody {
  translation : Vec3; rotation : Quat;
  linvel : Vec3; angvel : Vec3; asleep : bool }.

(** The physics world: bodies by handle, and the handles the engine hands
    out next. *)
Record World := mkWorld {
  bodies : gmap Z Body; nextBody : Z; nextCollider : Z }.

(** [world.getRigidBody(handle)]. *)
Definition getRigidBody (w : World) (h : Z) : option Body := bodies w !! h.

Definition setBody (w : World) (h : Z) (b : Body) : World :=
  mkWorld (<[h := b]> (bodies w)) (nextBody w) (nextCollider w).

(** [world.createRigidBody(desc)]: the new handle and the world. *)
Definition createRigidBody (b : Body) (w : World) : Z * World :=
  (nextBody w,
   mkWorld (<[nextBody w := b]> (bodies w)) (nextBody w + 1) (nextCollider w)).

(** [world.createCollider(desc, body)]: the new collider's handle. *)
Definition createCollider (w : World) : Z * World :=
  (nextCollider w, mkWorld (bodies w) (nextBody w) (nextCollider w + 1)).

(** [world.removeRigidBody(body)]. *)
Definition removeRigidBody (h : Z) (w : World) : World :=
  mkWorld (delete h (bodies w)) (nextBody w) (nextCollider w).

(** *** Props *)

(** An entry of [props]; [initial] is recorded by [createProps] and never
    written again. *)
Record PropEntry := mkProp {
  propId : string; dynamic : bool; propBody : Z;
  initialP : Vec3; initialQ : Quat }.

(** [Math.abs(t.x) > 200 || t.y < -20 || Math.abs(t.z) > 200]. *)
Definition outOfBounds (t : Vec3) : bool :=
  negb (Qle_bool (Qabs (vx t)) 200)
  || negb (Qle_bool (-20) (vy t))
  || negb (Qle_bool (Qabs (vz t)) 200).

(** [resetPropIfOutOfBounds(prop)]. *)
Definition resetPropIfOutOfBounds (prop : PropEntry) (w : World) : World :=
  if negb (dynamic prop) then w
  else
    match getRigidBody w (propBody prop) with
    | None => w
    | Some body =>
        if outOfBounds (translation body) then
          setBody w (propBody prop)
                  (mkBody (initialP prop) (initialQ prop)
                          zeroVec zeroVec false)
        else w
    end.

(** *** Sessions *)

Inductive ReadyState := CONNECTING | OPEN | CLOSING | CLOSED.

Definition isOpen (r : ReadyState) : bool :=
  match r with OPEN => true | _ => false end.

Record InputSample := mkInput { steer : Q; throttle : Q; brake : bool }.

(** An entry of the [clients] map.  [ws] names the connection's socket
    ([None] is the [null] that [spawnPlayer] stores first). *)
Record Client := mkClient {
  ws : option string;
  colorId : nat;
  bodyHandle : Z;
  colliderHandle : Z;
  lastInput : InputSample;
  lastSeq : Q;
  lastSeen : Z }.

Inductive Msg :=
| Welcome (id : string) (players : list string)
| PlayerJoined (id : string)
| PlayerLeft (id : string).

(** What the host does to its sockets, in order. *)
Inductive Effect :=
| Send (socket : string) (m : Msg)
| Ping (socket : string)
| Terminate (socket : string).

(** The host: the [clients] map in insertion order (the order in which a
    JavaScript [Map] is iterated), the world, the sockets' ready states by
    connection, the sockets whose [close] event is still to be delivered,
    and the effects so far. *)
Record State := mkState {
  clients : list (string * Client);
  world : World;
  sockets : gmap string ReadyState;
  closing : list string;
  effects : list Effect }.

(** [clients.get(id)]. *)
Fixpoint get (id : string) (cs : list (string * Client)) : option Client :=
  match cs with
  | [] => None
  | (k, c) :: cs' => if String.eqb k id then Some c else get id cs'
  end.

(** [clients.set(id, c)]: in place for a known key, at the end for a new
    one. *)
Fixpoint set (id : string) (c : Client) (cs : list (string * Client))
  : list (string * Client) :=
  match cs with
  | [] => [(id, c)]
  | (k, c0) :: cs' =>
      if String.eqb k id then (k, c) :: cs' else (k, c0) :: set id c cs'
  end.

(** [clients.delete(id)]. *)
Definition del (id : string) (cs : list (string * Client))
  : list (string * Client) :=
  List.filter (fun kc => negb (String.eqb (fst kc) id)) cs.

(** [client.ws && client.ws.readyState === client.ws.OPEN]. *)
Definition socketOpen (st : State) (c : Client) : bool :=
  match ws c with
  | None => false
  | Some sock =>
      match sockets st !! sock with
      | Some r => isOpen r
      | None => false
      end
  end.

(** [broadcast(data, skipId)]. *)
Definition broadcast (m : Msg) (skipId : string) (st : State) : State :=
  let sends :=
    flat_map (fun kc =>
                if String.eqb (fst kc) skipId then []
                else if socketOpen st (snd kc)
                     then match ws (snd kc) with
                          | Some sock => [Send sock m]
                          | None => []
                          end
                     else [])
             (clients st) in
  mkState (clients st) (world st) (sockets st) (closing st)
          (effects st ++ sends).

(** [(clients.size % 4) * 4 - 4], [0.6] and
    [Math.floor(clients.size / 4) * 4 - 4]. *)
Definition spawnPoint (size : nat) : Vec3 :=
  mkVec3 (inject_Z (Z.of_nat size mod 4 * 4 - 4))
         (6 # 10)
         (inject_Z (Z.of_nat size / 4 * 4 - 4)).

(** [spawnPlayer(id, colorIdx)]; [now] is [Date.now()].  The rotation is
    [quatFromEuler(0)]. *)
Definition spawnPlayer (id : string) (colorIdx : nat) (now : Z) (st : State)
  : State :=
  let body := mkBody (spawnPoint (length (clients st))) (mkQuat 0 0 0 1)
                     zeroVec zeroVec false in
  let (bh, w1) := createRigidBody body (world st) in
  let (ch, w2) := createCollider w1 in
  mkState (set id (mkClient None colorIdx bh ch (mkInput 0 0 false) 0 now)
               (clients st))
          w2 (sockets st) (closing st) (effects st).

(** [removePlayer(id)]. *)
Definition removePlayer (id : string) (st : State) : State :=
  match get id (clients st) with
  | None => st
  | Some entry =>
      let w := match getRigidBody (world st) (bodyHandle entry) with
               | Some _ => removeRigidBody (bodyHandle entry) (world st)
               | None => world st
               end in
      mkState (del id (clients st)) w (sockets st) (closing st) (effects st)
  end.

(** [handleConnection(ws)] once physics is ready: [id] is the
    [randomUUID()] drawn for the connection, whose socket is open. *)
Definition handleConnection (id : string) (now : Z) (st : State) : State :=
  let st1 := spawnPlayer id (length (clients st) mod 8) now st in
  let cs := match get id (clients st1) with
            | Some e =>
                set id (mkClient (Some id) (colorId e) (bodyHandle e)
                                 (colliderHandle e) (lastInput e) (lastSeq e)
                                 now)
                    (clients st1)
            | None => clients st1
            end in
  let existing :=
    flat_map (fun kc =>
                if String.eqb (fst kc) id then []
                else match getRigidBody (world st1) (bodyHandle (snd kc)) with
                     | Some _ => [fst kc]
                     | None => []
                     end)
             cs in
  let st2 := mkState cs (world st1) (<[id := OPEN]> (sockets st1))
                     (closing st1)
                     (effects st1 ++ [Send id (Welcome id existing)]) in
  broadcast (PlayerJoined id) id st2.

(** A parsed frame.  For an [input] message: [Number(data.steer)] and
    [Number(data.throttle)] ([None] is [NaN]), [Boolean(data.brake)], and
    [data.seq] when [typeof data.seq === 'number']. *)
Inductive Incoming :=
| Malformed
| Input (steerNum throttleNum : option Q) (brakeFlag : bool)
        (seq : option Q)
| Other.

(** The [message] handler of connection [id]. *)
Definition onMessage (id : string) (data : Incoming) (now : Z) (st : State)
  : State :=
  match data with
  | Input steerNum throttleNum brakeFlag seq =>
      match get id (clients st) with
      | None => st
      | Some client =>
          let client' :=
            mkClient (ws client) (colorId client) (bodyHandle client)
                     (colliderHandle client)
                     (mkInput (orZero steerNum) (orZero throttleNum)
                              brakeFlag)
                     (match seq with
                      | Some n => n
                      | None => lastSeq client
                      end)
                     now in
          mkState (set id client' (clients st)) (world st) (sockets st)
                  (closing st) (effects st)
      end
  | Malformed | Other => st
  end.

(** The [close] handler of connection [id], run when the socket's close
    event is delivered. *)
Definition onClose (id : string) (st : State) : State :=
  let st1 := mkState (clients st) (world st) (<[id := CLOSED]> (sockets st))
                     (List.filter (fun k => negb (String.eqb k id))
                                  (closing st))
                     (effects st) in
  broadcast (PlayerLeft id) id (removePlayer id st1).

(** [ws.terminate()] on an open socket: the socket starts closing and its
    close event will follow. *)
Definition terminate (sock : string) (st : State) : State :=
  mkState (clients st) (world st) (<[sock := CLOSING]> (sockets st))
          (closing st ++ [sock]) (effects st ++ [Terminate sock]).

Definition HEARTBEAT_MS : Z := 15000.

(** The body of the heartbeat loop for one entry of [clients]. *)
Definition sweepOne (now : Z) (kc : string * Client) (st : State) : State :=
  let (id, client) := kc in
  if negb (socketOpen st client) then st
  else
    match ws client with
    | None => st
    | Some sock =>
        if (HEARTBEAT_MS * 2 <? now - lastSeen client)%Z then
          broadcast (PlayerLeft id) id (removePlayer id (terminate sock st))
        else
          mkState (clients st) (world st) (sockets st) (closing st)
                  (effects st ++ [Ping sock])
    end.

(** The heartbeat callback.  Only the entry being visited is ever deleted
    during the loop, so the loop visits the entries present at its
    start. *)
Definition heartbeat (now : Z) (st : State) : State :=
  fold_left (fun s kc => sweepOne now kc s) (clients st) st.

(** How many [player-left] messages for [id] were sent to [sock]. *)
Definition playerLeftCount (sock id : string) (es : list Effect) : nat :=
  length (List.filter
            (fun e => match e with
                      | Send s (PlayerLeft i) =>
                          String.eqb s sock && String.eqb i id
                      | _ => false
                      end) es).

(** The table as [handleConnection] builds it: ids are not repeated and
    each entry's socket is the connection of its id. *)
Definition wellKeyed (cs : list (string * Client)) : Prop :=
  List.NoDup (map fst cs) /\ Forall (fun kc => ws (snd kc) = Some (fst kc)) cs.

(** Session [id], whose entry held body [h], is gone: no entry, no body, and
    the close event of its socket is on its way. *)
Definition sweptOut (id : string) (h : Z) (st : State) : Prop :=
  get id (clients st) = None
  /\ getRigidBody (world st) h = None
  /\ In id (closing st).

(** Where the body of session [id] is, if the session and its body
    exist. *)
Definition positionOf (id : string) (st : State) : option Vec3 :=
  match get id (clients st) with
  | Some e => option_map translation (getRigidBody (world st) (bodyHandle e))
  | None => None
  end.

Definition emptyWorld : World := mkWorld ∅ 0 0.
Definition emptyState : State := mkState [] emptyWorld ∅ [] [].

(** Two sessions, ["a"] connected at time 0 and ["b"] at time 20000;
    ["b"] keeps sending input, ["a"] never does. *)
Definition sampleTwo : State :=
  onMessage "b" (Input (Some 0) (Some 1) false (Some 1)) 39000
    (handleConnection "b" 20000 (handleConnection "a" 0 emptyState)).

(** Session ["a"] after an input with sequence number 5. *)
Definition sampleSeq5 : State :=
  onMessage "a" (Input (Some 1) (Some 1) false (Some 5)) 100
    (handleConnection "a" 0 emptyState).

(** A dynamic prop whose body has fallen to [y = -25], in motion. *)
Definition sampleProp : PropEntry :=
  mkProp "p0" true 0 (mkVec3 3 (1 # 2) (-7)) (mkQuat 0 0 0 1).

Definition sampleFallen : World :=
  mkWorld {[ 0%Z := mkBody (mkVec3 3 (-25) (-7)) (mkQuat 0 1 0 0)
                           (mkVec3 0 (-9) 0) (mkVec3 1 0 0) true ]}
          1 1.

End Host.

(** ** Spawn slots of the client: [getSafeSpawnTransform] *)

Module Spawn.

(** [SAFE_ZONE]: centre, radius and height. *)
Definition centerX : Q := 0.
Definition centerZ : Q := 0.
Definition radius : Q := 10.
Definition height : Q := 6 # 10.

(** [SAFE_SPAWN_SLOTS], as [(x, z)]; every [y] is 0. *)
Definition SAFE_SPAWN_SLOTS : list (Q * Q) :=
  [ (0, 0); (4, 0); (-4, 0); (0, 4); (0, -4);
    (4, 4); (-4, 4); (4, -4); (-4, -4) ].

(** [text.charCodeAt(i)] for the ASCII text of an id. *)
Definition charCode (c : Ascii.ascii) : Z :=
  Z.of_nat (Ascii.nat_of_ascii c).

(** [hashIdForSlot(text)]: [hash = (hash * 31 + code) >>> 0], a 32-bit
    wrap-around. *)
Fixpoint hashFrom (hash : Z) (text : string) : Z :=
  match text with
  | EmptyString => hash
  | String c rest => hashFrom ((hash * 31 + charCode c) mod 2 ^ 32) rest
  end.

Definition hashIdForSlot (text : string) : Z := hashFrom 0 text.

(** [getSafeSpawnTransform(id)]: the position [(x, y, z)]; the yaw is 0. *)
Definition getSafeSpawnTransform (id : string) : Q * Q * Q :=
  let idx := (hashIdForSlot id mod Z.of_nat (length SAFE_SPAWN_SLOTS))%Z in
  let slot := nth (Z.to_nat idx) SAFE_SPAWN_SLOTS (0, 0) in
  (centerX + fst slot, height, centerZ + snd slot).

(** [isInsideSafeZone(x, z, margin)]: [Math.hypot(dx, dz) < radius +
    margin], compared through the squares. *)
Definition isInsideSafeZone (x z margin : Q) : bool :=
  let dx := x - centerX in
  let dz := z - centerZ in
  let r := radius + margin in
  Qle_bool 0 r && negb (Qle_bool (r * r) (dx * dx + dz * dz)).

End Spawn.

(** ** Vehicle dynamics of the client: [applyPlayerForces] *)

Module Drive.
Local Open Scope R_scope.

Record Vec := mkVec { x : R; y : R; z : R }.
Record Quat := mkQuat { qx : R; qy : R; qz : R; qw : R }.

Definition add (a b : Vec) : Vec := mkVec (x a + x b) (y a + y b) (z a + z b).
Definition scale (k : R) (a : Vec) : Vec := mkVec (x a * k) (y a * k) (z a * k).
Definition dot (a b : Vec) : R := x a * x b + y a * y b + z a * z b.

(** [Vector3.length()]. *)
Definition length (a : Vec) : R := sqrt (x a * x a + y a * y a + z a * z a).

(** [Vector3.normalize()]: [divideScalar(length() || 1)], and
    [divideScalar(s)] is [multiplyScalar(1 / s)]. *)
Definition normalize (a : Vec) : Vec :=
  let l := length a in
  scale (1 / (if Req_dec_T l 0 then 1 else l)) a.

(** [Vector3.applyQuaternion(q)]. *)
Definition applyQuaternion (q : Quat) (v : Vec) : Vec :=
  let tx := 2 * (qy q * z v - qz q * y v) in
  let ty := 2 * (qz q * x v - qx q * z v) in
  let tz := 2 * (qx q * y v - qy q * x v) in
  mkVec (x v + qw q * tx + qy q * tz - qz q * ty)
        (y v + qw q * ty + qz q * tx - qx q * tz)
        (z v + qw q * tz + qx q * ty - qy q * tx).

(** [clamp(v, a, b)]: [Math.max(a, Math.min(b, v))]. *)
Definition clamp (v a b : R) : R := Rmax a (Rmin b v).

(** [Math.sign]. *)
Definition sign (v : R) : R :=
  if Rlt_dec 0 v then 1 else if Rlt_dec v 0 then -1 else 0.

(** [approach(current, target, maxDelta)]. *)
Definition approach (current target maxDelta : R) : R :=
  let delta := target - current in
  if Rle_dec (Rabs delta) maxDelta then target
  else current + sign delta * maxDelta.

(** The [DRIVE] table. *)
Definition engineImpulse : R := 4.8.
Definition steerTorque : R := 0.52.
Definition maxSpeed : R := 11.0.
Definition maxReverse : R := 7.5.
Definition speedClamp : R := 0.32.
Definition sideGrip : R := 2.4.
Definition yawRateLimit : R := 3.2.

(** The player's rigid body as the function sees it.  An impulse changes
    the linear velocity by [invMass] times the impulse; a torque impulse
    changes the angular velocity by the engine's inverse inertia applied to
    it, a map the model does not look into. *)
Record Body := mkBody {
  rotation : Quat;
  linvel : Vec;
  angvel : Vec;
  invMass : R;
  invInertia : Vec -> Vec }.

(** [rb.applyImpulse(j, true)]. *)
Definition applyImpulse (j : Vec) (b : Body) : Body :=
  mkBody (rotation b) (add (linvel b) (scale (invMass b) j)) (angvel b)
         (invMass b) (invInertia b).

(** [rb.applyTorqueImpulse(t, true)]. *)
Definition applyTorqueImpulse (t : Vec) (b : Body) : Body :=
  mkBody (rotation b) (linvel b) (add (angvel b) (invInertia b t))
         (invMass b) (invInertia b).

(** [rb.setAngvel(w, true)]. *)
Definition setAngvel (w : Vec) (b : Body) : Body :=
  mkBody (rotation b) (linvel b) w (invMass b) (invInertia b).

(** The globals the function reads and writes: the joystick, the result of
    [keyboardAxes()], the smoothed input, the grounded flag, and the body
    ([None]: no car or no body yet). *)
Record Controls := mkControls {
  joyX : R; joyY : R; joyActive : bool; isCoarsePointer : bool;
  keyX : R; keyY : R;
  inputX : R; inputY : R;
  playerGrounded : bool;
  body : option Body }.

(** The raw axes: joystick first, keyboard when the joystick is idle, then
    the dead zone. *)
Definition rawAxes (c : Controls) : R * R :=
  let ax := joyX c in
  let ay := if joyActive c && isCoarsePointer c then - joyY c else joyY c in
  let '(ax, ay) :=
    if (negb (joyActive c) || negb (isCoarsePointer c))
       && (if Req_dec_T ax 0 then true else false)
       && (if Req_dec_T ay 0 then true else false)
    then (keyX c, keyY c) else (ax, ay) in
  (if Rlt_dec (Rabs ax) 0.06 then 0 else ax,
   if Rlt_dec (Rabs ay) 0.06 then 0 else ay).

(** The smoothed axes [ax], [ay], which also become [inputX] and
    [inputY]. *)
Definition axes (dt : R) (c : Controls) : R * R :=
  let '(ax0, ay0) := rawAxes c in
  (approach (inputX c) ax0 (6.0 * dt), approach (inputY c) ay0 (6.0 * dt)).

(** The forward and right axes of the body. *)
Definition forwardOf (rb : Body) : Vec :=
  normalize (applyQuaternion (rotation rb) (mkVec 0 0 (-1))).

Definition rightOf (rb : Body) : Vec :=
  normalize (applyQuaternion (rotation rb) (mkVec 1 0 0)).

(** [playerGrounded ? 1 : 0.15]. *)
Definition tractionOf (grounded : bool) : R := if grounded then 1 else 0.15.

(** The engine impulse. *)
Definition engineVec (ay traction : R) (forward : Vec) : Vec :=
  scale (ay * engineImpulse * traction) forward.

(** The steering torque impulse. *)
Definition steerVec (ax speedAlong traction : R) : Vec :=
  let speedFactor := clamp (Rabs speedAlong / maxSpeed) 0 1 in
  let torqueScale := 0.45 + speedFactor * 0.55 in
  let steerSign := if Rlt_dec speedAlong (-0.45) then -1 else 1 in
  mkVec 0 (- ax * steerSign * steerTorque * torqueScale * traction) 0.

(** The sideways grip impulse, if the side speed calls for one. *)
Definition sideImpulse (dt : R) (vel right : Vec) (traction : R)
  : option Vec :=
  let sideSpeed := dot vel right in
  let sideMagnitude := Rabs sideSpeed in
  if Rlt_dec 0.02 sideMagnitude then
    if Rlt_dec 0.01 traction then
      let gripScale := clamp (sideMagnitude / 6.5) 0.25 traction in
      let j := scale (- sideSpeed * sideGrip * gripScale) right in
      let maxSideImpulse := sideGrip * dt * 8 in
      let sideLen := length j in
      Some (if Rlt_dec maxSideImpulse sideLen
            then scale (maxSideImpulse / sideLen) j
            else j)
    else None
  else None.

(** The downforce impulse. *)
Definition downVec (dt : R) (grounded : bool) (vel : Vec) : Vec :=
  let downForce :=
    if grounded then clamp (length vel * 0.28) 0 6 else 0.8 in
  mkVec 0 (- downForce * dt) 0.

(** The yaw and roll stabiliser and the yaw-rate limit; both read the
    angular velocity once, before either acts. *)
Definition stabilise (rb : Body) : Body :=
  let ang := angvel rb in
  let rb :=
    if Rlt_dec 0.01 (Rabs (x ang) + Rabs (y ang) + Rabs (z ang))
    then applyTorqueImpulse
           (mkVec (- x ang * 0.035) (- y ang * 0.08) (- z ang * 0.035)) rb
    else rb in
  if Rlt_dec yawRateLimit (Rabs (y ang))
  then setAngvel (mkVec (x ang * 0.6) (sign (y ang) * yawRateLimit)
                        (z ang * 0.6)) rb
  else rb.

(** The speed clamp at the end of the force application: the impulse it
    hands to [applyImpulse], if any.  [vel] and [speedAlong] are the
    velocity read at the start of the function and its component along
    the forward axis. *)
Definition speedClampImpulse (vel : Vec) (speedAlong : R) : option Vec :=
  let speed := length vel in
  let forwardMax := if Rle_dec 0 speedAlong then maxSpeed else maxReverse in
  if Rlt_dec (forwardMax + 0.35) speed then
    let over := speed - forwardMax in
    let clampFactor := over * speedClamp in
    Some (scale (-1) (scale clampFactor (normalize vel)))
  else None.

(** An impulse that is applied only when there is one. *)
Definition applyIf (j : option Vec) (rb : Body) : Body :=
  match j with Some j => applyImpulse j rb | None => rb end.

(** The body just before the speed clamp: engine, steering, grip,
    downforce and stabiliser have acted. *)
Definition beforeClamp (dt : R) (c : Controls) (rb0 : Body) : Body :=
  let '(ax, ay) := axes dt c in
  let vel := linvel rb0 in
  let speedAlong := dot vel (forwardOf rb0) in
  let traction := tractionOf (playerGrounded c) in
  let rb := applyImpulse (engineVec ay traction (forwardOf rb0)) rb0 in
  let rb := applyTorqueImpulse (steerVec ax speedAlong traction) rb in
  let rb := applyIf (sideImpulse dt vel (rightOf rb0) traction) rb in
  let rb := applyImpulse (downVec dt (playerGrounded c) vel) rb in
  stabilise rb.

(** [applyPlayerForces(dt)] up to the speed clamp; what follows in the
    source only drives skid particles and the brake lights. *)
Definition applyPlayerForces (dt : R) (c : Controls) : Controls :=
  match body c with
  | None => c
  | Some rb0 =>
      let vel := linvel rb0 in
      let speedAlong := dot vel (forwardOf rb0) in
      let rb := beforeClamp dt c rb0 in
      let rb := applyIf (speedClampImpulse vel speedAlong) rb in
      mkControls (joyX c) (joyY c) (joyActive c) (isCoarsePointer c)
                 (keyX c) (keyY c) (fst (axes dt c)) (snd (axes dt c))
                 (playerGrounded c) (Some rb)
  end.

(** The speed of the body after the call, if there is a body. *)
Definition speedOf (c : Controls) : option R :=
  option_map (fun b => length (linvel b)) (body c).

(** Full throttle from the keyboard, on the ground, heading straight along
    the forward axis at speed 12, with a body of mass 2. *)
Definition sampleThrottle : Controls :=
  mkControls 0 0 false false 0 1 0 1 true
             (Some (mkBody (mkQuat 0 0 0 1) (mkVec 0 0 (-12)) (mkVec 0 0 0)
                           (1 / 2) (fun t => t))).

End Drive.

(** ** The host as a machine of events *)

Module HostRun.
Import Host.

(** What can happen to the host: a connection (with the id that
    [randomUUID()] draws for it), a frame from a connection, the close event
    of a connection's socket, and the heartbeat timer. *)
Inductive Event :=
| Connect (id : string) (now : Z)
| Message (id : string) (data : Incoming) (now : Z)
| Close (id : string)
| Heartbeat (now : Z).

Definition step (e : Event) (st : State) : State :=
  match e with
  | Connect id now => handleConnection id now st
  | Message id data now => onMessage id data now st
  | Close id => onClose id st
  | Heartbeat now => heartbeat now st
  end.

Definition run (es : list Event) (st : State) : State :=
  fold_left (fun s e => step e s) es st.

(** The ids drawn for the connections of a run. *)
Fixpoint connectIds (es : list Event) : list string :=
  match es with
  | [] => []
  | Connect id _ :: es' => id :: connectIds es'
  | _ :: es' => connectIds es'
  end.

(** Does the entry's body exist in the world ([playerSnapshot] is not
    [null])? *)
Definition bodied (w : World) (kc : string * Client) : bool :=
  match getRigidBody w (bodyHandle (snd kc)) with
  | Some _ => true
  | None => false
  end.


(** Three connections, input from the second, a sweep that finds the first
    and the third stale, and the close events that follow. *)
Definition sampleRun : list Event :=
  [ Connect "a" 0; Connect "b" 20000; Connect "c" 21000;
    Message "b" (Input (Some 0) (Some 1) false (Some 1)) 50000;
    Heartbeat 60000; Close "a"; Close "c" ].

End HostRun.

(** ** Snapshots of the host: [playerSnapshot], [propSnapshot],
    [buildSnapshot] *)

Module HostSnap.
Import Host.

(** [vectorArray(v)] and [quatArray(q)]. *)
Definition vectorArray (v : Vec3) : list Q := [vx v; vy v; vz v].
Definition quatArray (r : Quat) : list Q := [qx r; qy r; qz r; qw r].

(** The record both snapshot functions build from a body: [id], [p], [q],
    [lv], [av]. *)
Definition entityRecord (id : string) (b : Body) : Replica.EntityState :=
  Replica.mkEntity id (vectorArray (translation b)) (quatArray (rotation b))
                   (vectorArray (linvel b)) (vectorArray (angvel b)).

(** [playerSnapshot(id)]: [None] is [null]. *)
Definition playerSnapshot (id : string) (st : State)
  : option Replica.EntityState :=
  match get id (clients st) with
  | None => None
  | Some entry =>
      match getRigidBody (world st) (bodyHandle entry) with
      | None => None
      | Some body => Some (entityRecord id body)
      end
  end.

(** [propSnapshot(prop)]. *)
Definition propSnapshot (prop : PropEntry) (w : World)
  : option Replica.EntityState :=
  match getRigidBody w (propBody prop) with
  | None => None
  | Some body => Some (entityRecord (propId prop) body)
  end.

(** The payload of a [snapshot] message. *)
Record Payload := mkPayload {
  ptick : Z; pserverTime : Z;
  pplayers : list Replica.EntityState;
  pprops : list Replica.EntityState }.

(** [buildSnapshot()] as the snapshot timer calls it, without a target;
    [tick] is the host's tick counter, [now] is [Date.now()] and [props] the
    host's prop table. *)
Definition buildSnapshot (tick now : Z) (props : list PropEntry) (st : State)
  : Payload :=
  mkPayload tick now
    (flat_map (fun kc => match playerSnapshot (fst kc) st with
                         | Some snap => [snap]
                         | None => []
                         end) (clients st))
    (flat_map (fun prop => if negb (dynamic prop) then []
                           else match propSnapshot prop (world st) with
                                | Some snap => [snap]
                                | None => []
                                end) props).

(** The snapshot the client stores for a payload it receives at
    [receivedAt]. *)
Definition received (pl : Payload) (receivedAt : Q) : Replica.Snapshot :=
  Replica.mkSnapshot (ptick pl) (Some (inject_Z (pserverTime pl)))
                     (pplayers pl) (pprops pl) receivedAt.

(** A fixed and a dynamic prop of the sample world, and a prop whose body is
    gone. *)
Definition sampleProps : list PropEntry :=
  [ mkProp "p0" true 0 (mkVec3 3 (1 # 2) (-7)) (mkQuat 0 0 0 1);
    mkProp "p1" false 0 (mkVec3 0 0 0) (mkQuat 0 0 0 1);
    mkProp "p2" true 9 (mkVec3 0 0 0) (mkQuat 0 0 0 1) ].

Definition sampleHost : State :=
  mkState [] sampleFallen ∅ [] [].

End HostSnap.

(** ** The client's side of the connection: [sendInput],
    [scheduleReconnect], [ensureOfflineWorld], [handleMessage] *)

Module ClientNet.
Import JsNum.

(** [a || b] on numbers: [a] unless it is 0. *)
Definition orElse (a b : Q) : Q := if Qeq_bool a 0 then b else a.

(** What [sendInput] reads besides the clock: the smoothed input, the
    result of [keyboardAxes()] and the joystick. *)
Record Axes := mkAxes {
  inputX : Q; inputY : Q; keyX : Q; keyY : Q; joyX : Q; joyY : Q }.

(** The fields of [NETWORK] that [sendInput] uses; [socketOpen] stands for
    a socket that exists and is open. *)
Record Sender := mkSender { socketOpen : bool; lastSend : Q; seq : Z }.

(** An [input] message. *)
Record InputMsg := mkInputMsg {
  mseq : Z; mt : Q; msteer : Q; mthrottle : Q; mbrake : bool }.

(** [sendInput()]; [now] is [performance.now()]. *)
Definition sendInput (now : Q) (ax : Axes) (st : Sender)
  : Sender * option InputMsg :=
  if negb (socketOpen st) then (st, None)
  else if negb (Qle_bool 33 (now - lastSend st)) then (st, None)
  else
    let steer := clamp (orElse (orElse (inputX ax) (keyX ax)) (joyX ax))
                       (-1) 1 in
    let throttle :=
      clamp (- orElse (orElse (inputY ax) (keyY ax)) (joyY ax)) (-1) 1 in
    (mkSender (socketOpen st) now (seq st + 1),
     Some (mkInputMsg (seq st + 1) now steer throttle
                      (negb (Qle_bool 0 throttle)))).

(** A frame's call of [sendInput]: the clock, the axes, and whether the
    socket is open at that moment. *)
Record SendCall := mkSendCall { atTime : Q; axes : Axes; isOpen : bool }.

(** The messages a sequence of calls sends, in order. *)
Fixpoint sentBy (calls : list SendCall) (st : Sender) : list InputMsg :=
  match calls with
  | [] => []
  | c :: calls' =>
      let '(st', out) :=
        sendInput (atTime c) (axes c)
                  (mkSender (isOpen c) (lastSend st) (seq st)) in
      match out with
      | Some m => m :: sentBy calls' st'
      | None => sentBy calls' st'
      end
  end.

(** Each message is at least 33 ms after the one before ([t0] for the
    first). *)
Fixpoint spacedFrom (t0 : Q) (ms : list InputMsg) : Prop :=
  match ms with
  | [] => True
  | m :: ms' => 33 <= mt m - t0 /\ spacedFrom (mt m) ms'
  end.

(** The sequence numbers are [n + 1], [n + 2], ... *)
Fixpoint numberedFrom (n : Z) (ms : list InputMsg) : Prop :=
  match ms with
  | [] => True
  | m :: ms' => mseq m = (n + 1)%Z /\ numberedFrom (n + 1) ms'
  end.

(** The part of the client that the mode switch touches: the mode, the
    reconnect timer and the timeouts that are pending, whether the offline
    world is there and how many local props it holds, and the snapshot
    buffer with its clock offset. *)
Record Client := mkClientState {
  mode : Scheduler.Mode;
  reconnectTimer : option nat;
  timers : list nat;
  nextTimer : nat;
  offlineWorldReady : bool;
  clientProps : nat;
  net : Replica.Network }.

Definition withBuffer (buf : list Replica.Snapshot) (n : Replica.Network)
  : Replica.Network :=
  Replica.mkNetwork buf (Replica.snapshotDelay n) (Replica.serverTimeOffset n).

(** [scheduleReconnect()]: [setTimeout] hands out a fresh id, kept in
    [reconnectTimer] until the timeout fires. *)
Definition scheduleReconnect (c : Client) : Client :=
  match reconnectTimer c with
  | Some _ => c
  | None =>
      mkClientState (mode c) (Some (nextTimer c)) (timers c ++ [nextTimer c])
                    (S (nextTimer c)) (offlineWorldReady c) (clientProps c)
                    (net c)
  end.

(** [ensureOfflineWorld()]: [clearClientProps()] empties the local props
    and [spawnProps(20)] pushes twenty. *)
Definition ensureOfflineWorld (c : Client) : Client :=
  let props := if offlineWorldReady c then clientProps c else (0 + 20)%nat in
  mkClientState Scheduler.Offline (reconnectTimer c) (timers c) (nextTimer c)
                true props (withBuffer [] (net c)).

(** The [welcome] branch of [handleMessage]; [now] is [performance.now()],
    [dateNow] is [Date.now()]. *)
Definition onWelcome (now : Q) (serverTime : option Q) (dateNow : Q)
           (c : Client) : Client :=
  let st := match serverTime with
            | Some t => orElse t dateNow
            | None => dateNow
            end in
  mkClientState Scheduler.Online (reconnectTimer c) (timers c) (nextTimer c)
                false 0
                (Replica.mkNetwork [] (Replica.snapshotDelay (net c))
                                   (now - st)).

(** What reaches the client: a timeout firing, the end of the health check
    of [initNetwork], the socket opening or closing, a [welcome] or
    [snapshot] message, a frame of [tick], and the fallback of
    [startGame]. *)
Inductive Event :=
| TimerFired (id : nat)
| ProbeDone (ok : bool)
| SocketOpened
| SocketClosed
| GotWelcome (now : Q) (serverTime : option Q) (dateNow : Q)
| GotSnapshot (snap : Replica.Snapshot)
| Rendered (now : Q)
| StartFallback (onlineAttempt : bool).

Definition step (e : Event) (c : Client) : Client :=
  match e with
  | TimerFired id =>
      if existsb (Nat.eqb id) (timers c) then
        mkClientState (mode c) None
                      (List.filter (fun t => negb (Nat.eqb id t)) (timers c))
                      (nextTimer c) (offlineWorldReady c) (clientProps c)
                      (net c)
      else c
  | ProbeDone ok =>
      if ok then c else scheduleReconnect (ensureOfflineWorld c)
  | SocketOpened =>
      mkClientState Scheduler.Online (reconnectTimer c) (timers c)
                    (nextTimer c) (offlineWorldReady c) (clientProps c) (net c)
  | SocketClosed => scheduleReconnect (ensureOfflineWorld c)
  | GotWelcome now serverTime dateNow => onWelcome now serverTime dateNow c
  | GotSnapshot snap =>
      mkClientState (mode c) (reconnectTimer c) (timers c) (nextTimer c)
                    (offlineWorldReady c) (clientProps c)
                    (withBuffer
                       (Replica.receiveSnapshot snap
                          (Replica.snapshotBuffer (net c)))
                       (net c))
  | Rendered now =>
      match mode c with
      | Scheduler.Online =>
          match Replica.applySnapshotInterpolation now (net c) with
          | Some sel =>
              mkClientState (mode c) (reconnectTimer c) (timers c)
                            (nextTimer c) (offlineWorldReady c) (clientProps c)
                            (withBuffer (Replica.kept sel) (net c))
          | None => c
          end
      | Scheduler.Offline => c
      end
  | StartFallback onlineAttempt =>
      if negb onlineAttempt && negb (offlineWorldReady c)
      then ensureOfflineWorld c else c
  end.

Definition run (es : list Event) (c : Client) : Client :=
  fold_left (fun s e => step e s) es c.

(** The client as the module leaves it before [startGame]. *)
Definition initial : Client :=
  mkClientState Scheduler.Offline None [] 1 false 0
                (Replica.mkNetwork [] (12 # 100) 0).

(** Five frames at 30 ms intervals with the throttle key down. *)
Definition sampleCalls : list SendCall :=
  map (fun t => mkSendCall t (mkAxes 0 0 0 1 0 0) true) [100; 130; 160; 190; 220].

End ClientNet.

(** ** Collision response of the client: [applyCollisionImpulse] *)

Module Collide.
Import Drive.
Local Open Scope R_scope.

(** A rigid body as the function sees it: [isDynamic()], [mass()] and the
    linear velocity.  An impulse changes the velocity of a dynamic body by
    the impulse divided by the mass. *)
Record RBody := mkRBody { isDynamic : bool; mass : R; velocity : Vec }.

(** [rb.applyImpulse(j, true)]. *)
Definition push (j : Vec) (rb : RBody) : RBody :=
  mkRBody (isDynamic rb) (mass rb) (add (velocity rb) (scale (1 / mass rb) j)).

(** [if (rb.isDynamic()) rb.applyImpulse(j, true)]. *)
Definition pushIfDynamic (j : Vec) (rb : RBody) : RBody :=
  if isDynamic rb then push j rb else rb.

(** [rb.isDynamic() ? 1 / Math.max(m, 0.0001) : 0]. *)
Definition invMassOf (rb : RBody) : R :=
  if isDynamic rb then 1 / Rmax (mass rb) 0.0001 else 0.

Definition sub (a b : Vec) : Vec := mkVec (x a - x b) (y a - y b) (z a - z b).

(** [Vector3.lengthSq()]. *)
Definition lengthSq (a : Vec) : R := x a * x a + y a * y a + z a * z a.

(** [applyCollisionImpulse(rb1, rb2, normal, friction, restitution)]: the
    two bodies afterwards. *)
Definition applyCollisionImpulse (rb1 rb2 : RBody) (normal : Vec)
           (friction restitution : R) : RBody * RBody :=
  let relVel := sub (velocity rb1) (velocity rb2) in
  let normalSpeed := dot relVel normal in
  if Rlt_dec 0 normalSpeed then (rb1, rb2)
  else
    let invSum := invMassOf rb1 + invMassOf rb2 in
    if Req_dec_T invSum 0 then (rb1, rb2)
    else
      let impulseMag := (- (1 + restitution) * normalSpeed) / invSum in
      let impulse := scale impulseMag normal in
      let a1 := pushIfDynamic impulse rb1 in
      let a2 := pushIfDynamic (scale (-1) impulse) rb2 in
      let tangent := sub relVel (scale normalSpeed normal) in
      if Rlt_dec 0.000001 (lengthSq tangent) then
        let tangent := normalize tangent in
        let jt := - dot relVel tangent / invSum in
        let maxFriction := impulseMag * friction in
        let jtClamped := clamp jt (- maxFriction) maxFriction in
        let frictionImpulse := scale jtClamped tangent in
        (pushIfDynamic frictionImpulse a1,
         pushIfDynamic (scale (-1) frictionImpulse) a2)
      else (a1, a2).

(** The momentum of a body. *)
Definition momentum (rb : RBody) : Vec := scale (mass rb) (velocity rb).

(** A car of mass 2 running at speed 3 into a prop of mass 1 at rest. *)
Definition sampleCar : RBody := mkRBody true 2 (mkVec 0 0 (-3)).
Definition sampleCrate : RBody := mkRBody true 1 (mkVec 0 0 0).

End Collide.

(** ** The joystick of the client: [handleJoyEvent] *)

Module Joystick.
Local Open Scope R_scope.

(** [handleJoyEvent(e)]: the new [joyX] and [joyY].  [left], [top] and
    [width], [height] are the joystick's bounding rectangle, [px], [py] the
    pointer. *)
Definition handleJoyEvent (left top width height px py : R) : R * R :=
  let cx := left + width / 2 in
  let cy := top + height / 2 in
  let radius := width * 0.36 in
  let dx := px - cx in
  let dy := py - cy in
  let len := sqrt (dx * dx + dy * dy) in
  let '(dx, dy) :=
    if Rlt_dec radius len
    then ((dx / len) * radius, (dy / len) * radius)
    else (dx, dy) in
  let joyX := dx / radius in
  let joyY := - dy / radius in
  (if Rlt_dec (Rabs joyX) 0.08 then 0 else joyX,
   if Rlt_dec (Rabs joyY) 0.08 then 0 else joyY).

End Joystick.

(** ** Vehicle dynamics of the host: [quatFromEuler], [applyInputs] *)

Module HostDrive.
Import Drive.
Local Open Scope R_scope.

(** [quatFromEuler(yaw)]. *)
Definition quatFromEuler (yaw : R) : Quat :=
  let half := yaw * 0.5 in
  mkQuat 0 (sin half) 0 (cos half).

(** The forward and right axes that [applyInputs] expands from the
    rotation. *)
Definition fwdOf (t : Quat) : Vec :=
  mkVec (2 * (qx t * qz t + qw t * qy t))
        (2 * (qy t * qz t - qw t * qx t))
        (1 - 2 * (qx t * qx t + qy t * qy t)).

Definition rightOf (t : Quat) : Vec :=
  mkVec (1 - 2 * (qy t * qy t + qz t * qz t))
        (2 * (qx t * qy t + qw t * qz t))
        (2 * (qx t * qz t - qw t * qy t)).

Definition engineForce : R := 18.
Definition steerStrength : R := 0.6.
Definition brakeStrength : R := 14.
Definition sideGrip : R := 6.4.
Definition maxYaw : R := 3.0.

(** The stored input of a session. *)
Record Input := mkInput { steer : R; throttle : R; brake : bool }.

(** The sideways friction impulse of [applyInputs], after its scaling. *)
Definition sideImpulse (dt : R) (lv right : Vec) : Vec :=
  let lateral := dot lv right in
  let j := mkVec (- x right * lateral * sideGrip * dt)
                 (- y right * lateral * sideGrip * 0.4 * dt)
                 (- z right * lateral * sideGrip * dt) in
  let sideLen := length j in
  let maxSide := sideGrip * dt * 8 in
  let k := if Rlt_dec maxSide sideLen then maxSide / sideLen else 1 in
  mkVec (x j * k) (y j * k) (z j * k).

(** The body of the loop of [applyInputs(dt)] for one session whose socket
    is open and whose body exists. *)
Definition applyInputsBody (dt : R) (input : Input) (body : Body) : Body :=
  let transform := rotation body in
  let fwd := fwdOf transform in
  let right := rightOf transform in
  let throttle := clamp (throttle input) (-1) 1 in
  let steer := clamp (steer input) (-1) 1 in
  let body :=
    applyImpulse (mkVec (x fwd * engineForce * throttle * dt)
                        (y fwd * engineForce * throttle * dt)
                        (z fwd * engineForce * throttle * dt)) body in
  let speedMag := length (linvel body) in
  let steerScale := 1 - Rmin (speedMag / 14) 1 * 0.6 in
  let body :=
    applyTorqueImpulse (mkVec 0 (steerStrength * steer * steerScale * dt) 0)
                       body in
  let body :=
    if brake input then
      let lv := linvel body in
      applyImpulse (mkVec (- x lv * brakeStrength * dt) (- y lv * 0.5 * dt)
                          (- z lv * brakeStrength * dt)) body
    else body in
  let body := applyImpulse (sideImpulse dt (linvel body) right) body in
  let downForce := Rmin (speedMag * 0.35) 8 in
  let body := applyImpulse (mkVec 0 (- downForce * dt) 0) body in
  let ang := angvel body in
  if Rlt_dec maxYaw (Rabs (y ang))
  then setAngvel (mkVec (x ang * 0.6) (sign (y ang) * maxYaw) (z ang * 0.6))
                 body
  else body.

End HostDrive.

(** ** The particle pools of the client: [ParticlePool] *)

Module Particles.
Import JsNum Host.

(** Slot [i] of the pool's arrays [positions], [velocities], [life] and
    [colors]. *)
Record Particle := mkParticle {
  position : Vec3; velocity : Vec3; life : Q; colors : Vec3 }.


(** [this.life[i] > 0]. *)
Definition alive (p : Particle) : bool := negb (Qle_bool (life p) 0).




(** The body of the loop of [update] for one slot. *)
Definition updateSlot (dt gravity : Q) (col : Vec3) (p : Particle)
  : Particle :=
  if Qle_bool (life p) 0 then p
  else
    let l := life p - dt in
    if Qle_bool l 0 then
      mkParticle (position p) (velocity p) l (mkVec3 0 0 0)
    else
      let fade := clamp l 0 1 in
      let v := mkVec3 (vx (velocity p)) (vy (velocity p) - gravity * dt)
                      (vz (velocity p)) in
      mkParticle (mkVec3 (vx (position p) + vx v * dt)
                         (vy (position p) + vy v * dt)
                         (vz (position p) + vz v * dt))
                 v l
                 (mkVec3 (vx col * fade) (vy col * fade) (vz col * fade)).






End Particles.

(** ** The props of the host: [mulberry32], [createProps] *)

Module Props.
Import JsNum Host.

(** [ToInt32] and [ToUint32] of an integral number. *)
Definition toUint32 (n : Z) : Z := (n mod 2 ^ 32)%Z.
Definition toInt32 (n : Z) : Z :=
  let m := toUint32 n in if (m <? 2 ^ 31)%Z then m else (m - 2 ^ 32)%Z.

(** [Math.imul(a, b)], [a ^ b], [a | b] and [a >>> k]. *)
Definition imul (a b : Z) : Z := toInt32 (toInt32 a * toInt32 b).
Definition xor32 (a b : Z) : Z := Z.lxor (toInt32 a) (toInt32 b).
Definition or32 (a b : Z) : Z := Z.lor (toInt32 a) (toInt32 b).
Definition ushr (a k : Z) : Z := Z.shiftr (toUint32 a) k.

(** One call of the generator [mulberry32(seed)] returns: the value and the
    [seed] the closure holds afterwards. *)
Definition mulberry32 (seed : Z) : Q * Z :=
  let seed := (seed + 1831565813)%Z in
  let t := seed in
  let t := imul (xor32 t (ushr t 15)) (or32 t 1) in
  let t := xor32 t (t + imul (xor32 t (ushr t 7)) (or32 t 61)) in
  (inject_Z (toUint32 (xor32 t (ushr t 14))) / inject_Z 4294967296, seed).

(** [lerp(a, b, t)] of the host. *)
Definition lerp (a b t : Q) : Q := a + (b - a) * t.

Inductive Shape := Cylinder | Box.

(** An entry of [props] as [createProps] pushes it. *)
Record Created := mkCreated {
  entry : PropEntry;
  shape : Shape;
  size : Vec3;
  propCollider : Z }.

Section CreateProps.

(** The rotation [quatArray(quatFromEuler(u * Math.PI * 2))] of a random
    value [u]; sines and cosines are not rational. *)
Variable heading : Q -> Quat.

(** The body of the loop of [createProps] for index [i]: the entry it
    pushes, the world and the generator's seed afterwards. *)
Definition createProp (name : string) (seed : Z) (w : World)
  : Created * World * Z :=
  let (r1, s1) := mulberry32 seed in
  let dyn := negb (Qle_bool r1 (35 # 100)) in
  let (r2, s2) := mulberry32 s1 in
  let shp := if negb (Qle_bool r2 (6 # 10)) then Cylinder else Box in
  let (r3, s3) := mulberry32 s2 in
  let (r4, s4) := mulberry32 s3 in
  let (r5, s5) := mulberry32 s4 in
  let sz := mkVec3 ((4 # 10) + r3 * (4 # 10)) ((35 # 100) + r4 * (35 # 100))
                   ((4 # 10) + r5 * (4 # 10)) in
  let (r6, s6) := mulberry32 s5 in
  let (r7, s7) := mulberry32 s6 in
  let p := mkVec3 (lerp (-15) 15 r6) (vy sz + (1 # 10)) (lerp (-15) 15 r7) in
  let (r8, s8) := mulberry32 s7 in
  let q := heading r8 in
  let body :=
    if dyn then mkBody p q zeroVec zeroVec false
    else mkBody p (mkQuat 0 0 0 1) zeroVec zeroVec false in
  let (bh, w1) := createRigidBody body w in
  let (ch, w2) := createCollider w1 in
  (mkCreated (mkProp name dyn bh p q) shp sz ch, w2, s8).

(** The decimal digits of an index, for the ids [p0], [p1], ... *)
Definition digit (n : nat) : string :=
  String (Ascii.ascii_of_nat (48 + n)) EmptyString.

Definition propName (i : nat) : string :=
  String.append "p"
    (if (i <? 10)%nat then digit i
     else String.append (digit (i / 10)) (digit (i mod 10))).

(** The loop of [createProps] from index [i] for [n] more props. *)
Fixpoint createLoop (n i : nat) (seed : Z) (w : World)
  : list Created * World * Z :=
  match n with
  | O => ([], w, seed)
  | S n' =>
      let '(c, w1, s1) := createProp (propName i) seed w in
      let '(cs, w2, s2) := createLoop n' (S i) s1 w1 in
      (c :: cs, w2, s2)
  end.

(** [createProps()]: the entries of [props], in order, and the world. *)
Definition createProps (w : World) : list Created * World :=
  fst (createLoop 18 0 1337 w).

(** A position inside the square of side 30 in which props are placed,
    above the ground. *)
Definition placed (p : Vec3) : Prop :=
  -15 <= vx p /\ vx p < 15
  /\ (45 # 100) <= vy p /\ vy p < (8 # 10)
  /\ -15 <= vz p /\ vz p < 15.

(** [dynamicPropHandles]. *)
Definition dynamicPropHandles (cs : list Created) : list Z :=
  map (fun c => propBody (entry c))
      (List.filter (fun c => dynamic (entry c)) cs).

End CreateProps.

End Props.

(** ** The input devices of the client, up to the smoothed axes *)

Module InputPipeline.
Import Drive.
Local Open Scope R_scope.

(** [joy.getBoundingClientRect()]. *)
Record Rect := mkRect { left : R; top : R; width : R; height : R }.

(** The input globals: the controls, the set [keys] of pressed key codes
    and [joyPointerId]. *)
Record State := mkState {
  controls : Controls;
  keys : gset string;
  joyPointerId : option nat }.

Definition has (ks : gset string) (code : string) : bool :=
  bool_decide (code ∈ ks).

(** [keyboardAxes()]. *)
Definition keyboardAxes (ks : gset string) : R * R :=
  let left := has ks "ArrowLeft" || has ks "KeyA" in
  let right := has ks "ArrowRight" || has ks "KeyD" in
  let up := has ks "ArrowUp" || has ks "KeyW" in
  let down := has ks "ArrowDown" || has ks "KeyS" in
  let x := 0 in
  let y := 0 in
  let x := if left then x - 1 else x in
  let x := if right then x + 1 else x in
  let y := if up then y + 1 else y in
  let y := if down then y - 1 else y in
  (- x, - y).

Definition withJoy (jx jy : R) (active : bool) (c : Controls) : Controls :=
  mkControls jx jy active (isCoarsePointer c) (keyX c) (keyY c)
             (inputX c) (inputY c) (playerGrounded c) (body c).

Definition withKeys (k : R * R) (c : Controls) : Controls :=
  mkControls (joyX c) (joyY c) (joyActive c) (isCoarsePointer c)
             (fst k) (snd k) (inputX c) (inputY c) (playerGrounded c)
             (body c).

(** [handleJoyEvent(e)] on the globals. *)
Definition handleJoy (rect : Rect) (px py : R) (active : bool) (st : State)
  : State :=
  let j := Joystick.handleJoyEvent (left rect) (top rect) (width rect)
                                   (height rect) px py in
  mkState (withJoy (fst j) (snd j) active (controls st)) (keys st)
          (joyPointerId st).

(** [releaseJoy()]. *)
Definition releaseJoy (st : State) : State :=
  mkState (withJoy 0 0 false (controls st)) (keys st) None.

Inductive Event :=
| PointerDown (pointerId : nat) (rect : Rect) (clientX clientY : R)
| PointerMove (pointerId : nat) (rect : Rect) (clientX clientY : R)
| PointerUp (pointerId : nat)
| PointerCancel
| KeyDown (code : string)
| KeyUp (code : string)
| Physics (dt : R).

Definition samePointer (id : nat) (p : option nat) : bool :=
  match p with Some q => Nat.eqb id q | None => false end.

(** The listeners of the joystick and the keyboard, and the call of
    [applyPlayerForces(dt)] in a physics step. *)
Definition step (st : State) (e : Event) : State :=
  match e with
  | PointerDown id rect px py =>
      handleJoy rect px py true
                (mkState (controls st) (keys st) (Some id))
  | PointerMove id rect px py =>
      if negb (joyActive (controls st))
         || negb (samePointer id (joyPointerId st))
      then st
      else handleJoy rect px py (joyActive (controls st)) st
  | PointerUp id =>
      if negb (samePointer id (joyPointerId st)) then st else releaseJoy st
  | PointerCancel => releaseJoy st
  | KeyDown code =>
      mkState (controls st) ({[code]} ∪ keys st) (joyPointerId st)
  | KeyUp code =>
      mkState (controls st) (keys st ∖ {[code]}) (joyPointerId st)
  | Physics dt =>
      mkState (applyPlayerForces dt
                 (withKeys (keyboardAxes (keys st)) (controls st)))
              (keys st) (joyPointerId st)
  end.

Definition run (es : list Event) (st : State) : State := fold_left step es st.

(** The globals when the script has loaded: no key pressed, the joystick
    idle, all axes 0. *)
Definition initial (coarse grounded : bool) (rb : option Body) : State :=
  mkState (mkControls 0 0 false coarse 0 0 0 0 grounded rb) ∅ None.

(** The joystick has a positive width and physics steps are not
    negative. *)
Definition valid (e : Event) : Prop :=
  match e with
  | PointerDown _ rect _ _ | PointerMove _ rect _ _ => 0 < width rect
  | Physics dt => 0 <= dt
  | _ => True
  end.

(** All four axes lie in [-1, 1]. *)
Definition bounded (c : Controls) : Prop :=
  Rabs (joyX c) <= 1 /\ Rabs (joyY c) <= 1
  /\ Rabs (inputX c) <= 1 /\ Rabs (inputY c) <= 1.

(** A touch far to the right of the joystick, then a physics step with
    the W key held. *)
Definition sampleEvents : list Event :=
  [ PointerDown 1 (mkRect 0 0 100 100) 500 50;
    KeyDown "KeyW";
    Physics (1 / 60);
    PointerUp 1;
    Physics (1 / 60) ].

End InputPipeline.

(** ** The relay server *)

Module Relay.

#[local] Set Warnings "-register-all".

(** A value [JSON.parse] returns.  The fields of an object are its own
    properties, each key once. *)
Inductive Json :=
| JNull
| JBool (b : bool)
| JNum (n : Q)
| JStr (s : string)
| JArr (items : list Json)
| JObj (fields : list (string * Json)).

(** [Boolean(v)]. *)
Definition truthy (v : Json) : bool :=
  match v with
  | JNull => false
  | JBool b => b
  | JNum n => negb (Qeq_bool n 0)
  | JStr s => negb (String.eqb s EmptyString)
  | JArr _ | JObj _ => true
  end.

Fixpoint lookup (name : string) (fs : list (string * Json)) : option Json :=
  match fs with
  | [] => None
  | (k, v) :: fs' => if String.eqb k name then Some v else lookup name fs'
  end.

(** [v.name] for the names the server reads, on a value that is not
    [null]; [None] is [undefined]. *)
Definition prop (name : string) (v : Json) : option Json :=
  match v with JObj fs => lookup name fs | _ => None end.

(** [state?.name]. *)
Definition chain (name : string) (state : option Json) : option Json :=
  match state with Some v => prop name v | None => None end.

(** [v || d]. *)
Definition orElse (v : option Json) (d : Json) : Json :=
  match v with
  | Some x => if truthy x then x else d
  | None => d
  end.

(** [Boolean(v)] of a value that may be [undefined]. *)
Definition toBoolean (v : option Json) : bool :=
  match v with Some x => truthy x | None => false end.

(** The object [snapshotState] returns. *)
Record PlayerState := mkPlayerState {
  p : Json; y : Json; q : Json; s : Json; st : Json; b : bool; t : Z }.

(** [snapshotState(state)]; [now] is [Date.now()]. *)
Definition snapshotState (state : option Json) (now : Z) : PlayerState :=
  mkPlayerState
    (orElse (chain "p" state) (JArr [JNum 0; JNum 0; JNum 0]))
    (orElse (chain "y" state) (JNum 0))
    (orElse (chain "q" state) (JArr [JNum 0; JNum 0; JNum 0; JNum 1]))
    (orElse (chain "s" state) (JNum 0))
    (orElse (chain "st" state) (JNum 0))
    (toBoolean (chain "b" state))
    now.

(** A stored state as the value it is. *)
Definition toJson (r : PlayerState) : Json :=
  JObj [ ("p", p r); ("y", y r); ("q", q r); ("s", s r); ("st", st r);
         ("b", JBool (b r)); ("t", JNum (inject_Z (t r))) ].

(** An entry of [clients]; its socket is named by the entry's id. *)
Record Client := mkClient { state : PlayerState; lastSeen : Z }.

Inductive Msg :=
| Hello (id : string) (players : list (string * PlayerState)) (worldSeed : Z)
| PlayerJoined (id : string)
| PlayerLeft (id : string)
| StateOf (id : string) (state : PlayerState).

Inductive Effect :=
| Send (socket : string) (m : Msg)
| Ping (socket : string)
| Terminate (socket : string).

(** The server: [clients] in insertion order, the sockets' ready states,
    and the effects so far. *)
Record State := mkState {
  clients : list (string * Client);
  sockets : gmap string Host.ReadyState;
  effects : list Effect }.

Definition WORLD_SEED : Z := 20240525.
Definition HEARTBEAT_MS : Z := 15000.

Fixpoint get (id : string) (cs : list (string * Client)) : option Client :=
  match cs with
  | [] => None
  | (k, c) :: cs' => if String.eqb k id then Some c else get id cs'
  end.

Fixpoint set (id : string) (c : Client) (cs : list (string * Client))
  : list (string * Client) :=
  match cs with
  | [] => [(id, c)]
  | (k, c0) :: cs' =>
      if String.eqb k id then (k, c) :: cs' else (k, c0) :: set id c cs'
  end.

Definition del (id : string) (cs : list (string * Client))
  : list (string * Client) :=
  List.filter (fun kc => negb (String.eqb (fst kc) id)) cs.

(** [client.ws.readyState === client.ws.OPEN] for the socket of [id]. *)
Definition socketOpen (st : State) (id : string) : bool :=
  match sockets st !! id with
  | Some r => Host.isOpen r
  | None => false
  end.

(** The sessions [broadcast(data, skipId)] sends to, in order. *)
Definition receivers (skipId : string) (st : State) : list string :=
  map fst
      (List.filter (fun kc => negb (String.eqb (fst kc) skipId)
                              && socketOpen st (fst kc))
                   (clients st)).

(** [broadcast(data, skipId)]. *)
Definition broadcast (m : Msg) (skipId : string) (st : State) : State :=
  mkState (clients st) (sockets st)
          (effects st ++ map (fun k => Send k m) (receivers skipId st)).

(** The [connection] handler, [id] being the identifier drawn. *)
Definition onConnection (id : string) (now : Z) (st : State) : State :=
  let cs := set id (mkClient (snapshotState None now) now) (clients st) in
  let others :=
    map (fun kc => (fst kc,
                    snapshotState (Some (toJson (state (snd kc)))) now))
        (List.filter (fun kc => negb (String.eqb (fst kc) id)) cs) in
  broadcast (PlayerJoined id) id
    (mkState cs (<[id := Host.OPEN]> (sockets st))
             (effects st ++ [Send id (Hello id others WORLD_SEED)])).

(** A frame: one [JSON.parse] rejects, or the value it returns. *)
Inductive Incoming :=
| Malformed
| Parsed (data : Json).

(** [data.type === 'state' && data.state]. *)
Definition isStateMessage (data : Json) : bool :=
  match prop "type" data with
  | Some (JStr ty) => String.eqb ty "state"
  | _ => false
  end
  && toBoolean (prop "state" data).

(** The [message] handler of connection [id]; [None] when it throws:
    reading [data.type] of [null] is a [TypeError]. *)
Definition onMessage (id : string) (frame : Incoming) (now : Z) (st : State)
  : option State :=
  match frame with
  | Malformed => Some st
  | Parsed JNull => None
  | Parsed data =>
      if isStateMessage data then
        let state := snapshotState (prop "state" data) now in
        match get id (clients st) with
        | None => Some st
        | Some _ =>
            Some (broadcast (StateOf id state) id
                    (mkState (set id (mkClient state now) (clients st))
                             (sockets st) (effects st)))
        end
      else Some st
  end.

(** The [close] handler of connection [id]. *)
Definition onClose (id : string) (st : State) : State :=
  broadcast (PlayerLeft id) id
    (mkState (del id (clients st)) (<[id := Host.CLOSED]> (sockets st))
             (effects st)).

(** The body of the heartbeat loop for one entry. *)
Definition sweepOne (now : Z) (kc : string * Client) (st : State) : State :=
  let (id, client) := kc in
  if negb (socketOpen st id) then st
  else if (HEARTBEAT_MS * 2 <? now - lastSeen client)%Z then
    broadcast (PlayerLeft id) id
      (mkState (del id (clients st)) (<[id := Host.CLOSING]> (sockets st))
               (effects st ++ [Terminate id]))
  else mkState (clients st) (sockets st) (effects st ++ [Ping id]).

(** The heartbeat callback. *)
Definition heartbeat (now : Z) (st : State) : State :=
  fold_left (fun s kc => sweepOne now kc s) (clients st) st.

Inductive Event :=
| Connection (id : string) (now : Z)
| Message (id : string) (frame : Incoming) (now : Z)
| Close (id : string)
| Heartbeat (now : Z).

(** One event; [None] when its handler throws. *)
Definition step (st : State) (e : Event) : option State :=
  match e with
  | Connection id now => Some (onConnection id now st)
  | Message id frame now => onMessage id frame now st
  | Close id => Some (onClose id st)
  | Heartbeat now => Some (heartbeat now st)
  end.

(** The events in order, up to the first handler that throws. *)
Fixpoint run (es : list Event) (st : State) : option State :=
  match es with
  | [] => Some st
  | e :: es' =>
      match step st e with
      | Some st' => run es' st'
      | None => None
      end
  end.

Definition empty : State := mkState [] ∅ [].

(** A state with the time stamp of another read of the clock. *)
Definition retime (now : Z) (r : PlayerState) : PlayerState :=
  mkPlayerState (p r) (y r) (q r) (s r) (st r) (b r) now.

(** A stored state that [snapshotState] hands on as it is, but for the
    time stamp. *)
Definition normalised (r : PlayerState) : Prop :=
  forall now, snapshotState (Some (toJson r)) now = retime now r.

Definition allNormalised (st : State) : Prop :=
  Forall (fun kc => normalised (state (snd kc))) (clients st).

(** A state message with a position and a speed. *)
Definition sampleFrame : Incoming :=
  Parsed (JObj [ ("type", JStr "state");
                 ("state", JObj [ ("p", JArr [JNum 1; JNum 0; JNum 2]);
                                  ("s", JNum 3) ]) ]).

Definition sampleRelay : State :=
  onConnection "b" 10 (onConnection "a" 0 empty).

End Relay.

(** ** The offline props of the client: [findPropPosition] *)

Module OfflineProps.
Local Open Scope R_scope.

(** [SAFE_ZONE.radius]; the centre is the origin. *)
Definition radius : R := 10.

(** [isInsideSafeZone(x, z, margin)]. *)
Definition isInsideSafeZone (x z margin : R) : bool :=
  let dx := x - 0 in
  let dz := z - 0 in
  if Rlt_dec (sqrt (dx * dx + dz * dz)) (radius + margin) then true
  else false.

(** The [while] loop of [findPropPosition] with [n] attempts left; [rnd k]
    is the [k]-th value of [Math.random()].  The position found, if any,
    and the number of values drawn so far. *)
Fixpoint attempts (n : nat) (rnd : nat -> R) (k : nat) (sizeX sizeZ : R)
  : option (R * R) * nat :=
  match n with
  | O => (None, k)
  | S n' =>
      let x := (rnd k * 2 - 1) * 55 in
      let z := (rnd (k + 1)%nat * 2 - 1) * 55 in
      let padding := Rmax sizeX sizeZ + 1.0 in
      if isInsideSafeZone x z padding
      then attempts n' rnd (k + 2) sizeX sizeZ
      else (Some (x, z), (k + 2)%nat)
  end.

(** [findPropPosition()] inside [spawnProps], for a prop of the given
    size. *)
Definition findPropPosition (rnd : nat -> R) (k : nat) (sizeX sizeZ : R)
  : (R * R) * nat :=
  match attempts 8 rnd k sizeX sizeZ with
  | (Some pos, k') => (pos, k')
  | (None, k') =>
      let angle := rnd k' * PI * 2 in
      let r := radius + 6 + rnd (k' + 1)%nat * 18 in
      ((0 + cos angle * r, 0 + sin angle * r), (k' + 2)%nat)
  end.

End OfflineProps.

(** ** The HTTP front of both servers: [CORS] and the request handler *)

Module Cors.

(** [s.endsWith(suffix)]. *)
Definition endsWith (s suffix : string) : bool :=
  let n := String.length s in
  let m := String.length suffix in
  (m <=? n)%nat && String.eqb (String.substring (n - m) m s) suffix.

(** [CORS.allowList(origin)]; the header is absent ([None]) or a string. *)
Definition allowList (origin : option string) : option string :=
  match origin with
  | None => Some "*"
  | Some o =>
      if String.eqb o EmptyString then Some "*"
      else if endsWith o ".netlify.app" then Some o
      else if String.eqb o "https://mini-car-3d.netlify.app" then Some o
      else None
  end.

(** [CORS.headers(origin)]. *)
Definition headers (origin : option string) : list (string * string) :=
  match allowList origin with
  | None => []
  | Some allowed =>
      [ ("Access-Control-Allow-Origin", allowed);
        ("Access-Control-Allow-Methods", "GET,POST,OPTIONS");
        ("Access-Control-Allow-Headers", "Content-Type, Authorization");
        ("Access-Control-Max-Age", "86400") ]
  end.

Record Request := mkRequest {
  method : string; url : string; origin : option string }.

(** What the handler does: a response it writes itself (status, headers
    in the order of the object literal, and the object it sends as JSON,
    if any), or the static file branch,
    which answers 404 or 200 with the CORS headers it is given. *)
Inductive Payload :=
| Nothing
| Health (ok : bool) (error : option string).

Inductive Outcome :=
| Responded (status : nat) (hs : list (string * string)) (body : Payload)
| ServeFile (path : string) (corsHeaders : list (string * string)).

Definition isSome {A : Type} (o : option A) : bool :=
  match o with Some _ => true | None => false end.

(** The callback of [http.createServer]. *)
Definition handle (req : Request) : Outcome :=
  let corsHeaders := headers (origin req) in
  if String.eqb (method req) "OPTIONS" then
    Responded (if isSome (allowList (origin req)) then 204 else 403)
              (corsHeaders ++ [("Content-Length", "0")]) Nothing
  else if String.eqb (url req) "/health" then
    if negb (isSome (allowList (origin req))) then
      Responded 403 [("Content-Type", "application/json; charset=utf-8")]
                (Health false (Some "CORS blocked"))
    else
      Responded 200
                ([("Content-Type", "application/json; charset=utf-8");
                  ("Cache-Control", "no-cache")] ++ corsHeaders)
                (Health true None)
  else
    ServeFile (if String.eqb (url req) "/" then "/index.html" else url req)
              corsHeaders.

(** The value of a header in a list of headers. *)
Fixpoint header (name : string) (hs : list (string * string))
  : option string :=
  match hs with
  | [] => None
  | (k, v) :: hs' => if String.eqb k name then Some v else header name hs'
  end.

(** The headers of an outcome that bear on CORS. *)
Definition allowOrigin (o : Outcome) : option string :=
  match o with
  | Responded _ hs _ => header "Access-Control-Allow-Origin" hs
  | ServeFile _ hs => header "Access-Control-Allow-Origin" hs
  end.

End Cors.

(** * Theorems *)

(** ** Facts about rationals *)


Lemma Qle_bool_true (x y : Q) : Qle_bool x y = true <-> x <= y.
Proof. apply Qle_bool_iff. Qed.

Lemma Qle_bool_false (x y : Q) : Qle_bool x y = false <-> y < x.
Proof.
  split; intros H.
  - apply Qnot_le_lt. intros Hle. apply Qle_bool_iff in Hle. congruence.
  - destruct (Qle_bool x y) eqn:E; [|reflexivity].
    apply Qle_bool_iff in E. exfalso. apply (Qlt_not_le _ _ H E).
Qed.

(** ** The fixed-step loop *)

Section SchedulerFacts.
Import Scheduler.














End SchedulerFacts.


Example C1_sample_steps :
  option_map
    (map (fun r => (length (Scheduler.physicsSteps (Scheduler.calls r)),
                    Qred (Scheduler.accumulator (Scheduler.after r)))))
    (Scheduler.run 16 Scheduler.sampleFrames (Scheduler.mkClock 0 0))
  = Some [(3%nat, 0); (1%nat, 1 # 300); (3%nat, 1 # 300); (0%nat, 0)].
Proof. reflexivity. Qed.


(** ** The ground-contact counter *)

Section GroundFacts.
Import Ground.

Lemma updateGroundState_involved (h : Z) (e : ContactEvent) (g : GroundState) :
  involves h e = true ->
  (0 <= playerGroundContacts g)%Z ->
  let g' := updateGroundState (Some h) e g in
  (0 <= playerGroundContacts g')%Z /\ consistent g'.
Proof.
  unfold involves, updateGroundState, consistent. intros -> Hg.
  destruct (started e); simpl; split; try reflexivity; lia.
Qed.

Lemma updateGroundState_end_at_zero (h : Z) (e : ContactEvent) (b : bool) :
  involves h e = true -> started e = false ->
  updateGroundState (Some h) e (mkGround 0 b) = mkGround 0 false.
Proof.
  unfold involves, updateGroundState. intros -> ->. reflexivity.
Qed.

End GroundFacts.

(** C10. From a non-negative counter, after every event of any sequence of
    contact events that involve the player's collider the counter is still
    non-negative and the grounded flag is [counter > 0]; a contact end at
    counter 0 leaves the counter at 0 (and the flag false). *)
Theorem C10_ground_counter (h : Z) (es : list Ground.ContactEvent) :
  forall g : Ground.GroundState,
    (0 <= Ground.playerGroundContacts g)%Z ->
    Forall (fun e => Ground.involves h e = true) es ->
    Forall (fun g' => (0 <= Ground.playerGroundContacts g')%Z /\ Ground.consistent g')
           (Ground.trace (Some h) es g)
    /\ (forall e b, Ground.involves h e = true -> Ground.started e = false ->
          Ground.updateGroundState (Some h) e (Ground.mkGround 0 b)
          = Ground.mkGround 0 false).
Proof.
  intros g Hg Hes. split; [|apply updateGroundState_end_at_zero].
  revert g Hg. induction Hes as [|e es He Hes IH]; intros g Hg; simpl.
  - constructor.
  - destruct (updateGroundState_involved h e g He Hg) as [H0 Hc].
    constructor; [split; assumption | apply IH; assumption].
Qed.

Lemma C10_ground_counter_witness :
  Forall (fun g' => (0 <= Ground.playerGroundContacts g')%Z /\ Ground.consistent g')
         (Ground.trace (Some 7%Z) Ground.sampleEvents (Ground.mkGround 0 false))
  /\ (forall e b, Ground.involves 7 e = true -> Ground.started e = false ->
        Ground.updateGroundState (Some 7%Z) e (Ground.mkGround 0 b)
        = Ground.mkGround 0 false).
Proof.
  apply (C10_ground_counter 7 Ground.sampleEvents (Ground.mkGround 0 false)).
  - simpl. lia.
  - repeat constructor.
Defined.

Example C10_sample_trace :
  map Ground.playerGroundContacts
      (Ground.trace (Some 7%Z) Ground.sampleEvents (Ground.mkGround 0 false))
  = [0; 0; 1; 0; 0]%Z.
Proof. reflexivity. Qed.

(** ** Linear interpolation of positions *)

Section LerpFacts.
Import JsNum.








Lemma positionAt_lerp slerp (a b : Replica.EntityState) (t : Q) (i : nat) :
  (i < 3)%nat ->
  Replica.positionAt slerp a b t i
  = lerp (Replica.comp (Replica.p a) i) (Replica.comp (Replica.p b) i) t.
Proof.
  intros Hi. unfold Replica.positionAt, Replica.interpolateState.
  cbn [Replica.p Replica.lerpVec].
  destruct i as [|[|[|i]]]; [reflexivity | reflexivity | reflexivity | lia].
Qed.

End LerpFacts.



Example C7_sample_midpoint :
  option_map (fun s => map Qred (Replica.p s))
    (Replica.interpolateState Replica.sampleSlerp (Some Replica.sampleA)
                              (Some Replica.sampleB) (1 # 4))
  = Some [5 # 2; 1 # 2; 2].
Proof. reflexivity. Qed.

(** ** The snapshot buffer *)

Section BufferFacts.
Import Replica.

Lemma insertByTime_perm (s : Snapshot) (l : list Snapshot) :
  Permutation (insertByTime s l) (s :: l).
Proof.
  induction l as [|x l IH]; simpl; [reflexivity|].
  destruct (Qle_bool (sortKey s) (sortKey x)); [reflexivity|].
  rewrite IH. apply perm_swap.
Qed.

Lemma sortByTime_perm (l : list Snapshot) : Permutation (sortByTime l) l.
Proof.
  induction l as [|x l IH]; simpl; [reflexivity|].
  rewrite insertByTime_perm. constructor. exact IH.
Qed.

Lemma sortByTime_length (l : list Snapshot) :
  length (sortByTime l) = length l.
Proof. apply Permutation_length, sortByTime_perm. Qed.

Lemma insertByTime_sorted (s : Snapshot) (l : list Snapshot) :
  keySorted l -> keySorted (insertByTime s l).
Proof.
  unfold keySorted. induction 1 as [|x l Hl IH Hx]; simpl.
  - repeat constructor.
  - destruct (Qle_bool (sortKey s) (sortKey x)) eqn:E.
    + apply Qle_bool_true in E. constructor.
      * constructor; assumption.
      * constructor; [exact E|].
        eapply Forall_impl; [exact Hx|].
        intros y Hy. simpl in Hy. eapply Qle_trans; eassumption.
    + apply Qle_bool_false in E. constructor; [exact IH|].
      rewrite (insertByTime_perm s l).
      constructor; [apply Qlt_le_weak; exact E | exact Hx].
Qed.

Lemma sortByTime_sorted (l : list Snapshot) : keySorted (sortByTime l).
Proof.
  induction l as [|x l IH]; simpl.
  - constructor.
  - apply insertByTime_sorted, IH.
Qed.

(** Sorting a buffer that is sorted already, as [handleMessage] leaves it,
    changes nothing. *)
Lemma sortByTime_fixed (l : list Snapshot) : keySorted l -> sortByTime l = l.
Proof.
  unfold keySorted. induction 1 as [|x l Hl IH Hx]; simpl; [reflexivity|].
  rewrite IH. destruct l as [|y l']; [reflexivity|]. simpl.
  inversion Hx as [|? ? Hxy _]; subst.
  apply Qle_bool_true in Hxy. rewrite Hxy. reflexivity.
Qed.

Lemma keySorted_tl (l : list Snapshot) : keySorted l -> keySorted (tl l).
Proof. destruct 1; simpl; [constructor | assumption]. Qed.

Lemma keySorted_byTime (offset : Q) (l : list Snapshot) :
  keySorted l -> sortedByTime offset l.
Proof.
  unfold keySorted, sortedByTime.
  induction 1 as [|x l Hl IH Hx]; constructor; [exact IH|].
  eapply Forall_impl; [exact Hx|].
  intros y Hy. unfold snapshotClientTime. simpl in Hy. lra.
Qed.

(** One reception: the result is sorted, holds at most 90 entries when the
    buffer did, and is the sorted buffer with perhaps its front entry (one
    of smallest server time) dropped. *)
Lemma receiveSnapshot_sorted (snap : Snapshot) (buf : list Snapshot) :
  keySorted (receiveSnapshot snap buf).
Proof.
  unfold receiveSnapshot.
  destruct (90 <? length (sortByTime (buf ++ [snap])))%nat.
  - apply keySorted_tl, sortByTime_sorted.
  - apply sortByTime_sorted.
Qed.

Lemma receiveSnapshot_length (snap : Snapshot) (buf : list Snapshot) :
  (length buf <= 90)%nat -> (length (receiveSnapshot snap buf) <= 90)%nat.
Proof.
  intros H. unfold receiveSnapshot.
  destruct (Nat.ltb_spec 90 (length (sortByTime (buf ++ [snap])))) as [L|L];
    [|exact L].
  rewrite sortByTime_length, length_app in L. simpl in L.
  assert (E : length (tl (sortByTime (buf ++ [snap]))) = length buf).
  { destruct (sortByTime (buf ++ [snap])) as [|x l] eqn:Es.
    - apply (f_equal (@length _)) in Es.
      rewrite sortByTime_length, length_app in Es. simpl in Es. lia.
    - apply (f_equal (@length _)) in Es.
      rewrite sortByTime_length, length_app in Es. simpl in *. lia. }
  rewrite E. exact H.
Qed.

Lemma receiveSnapshot_evicts (snap : Snapshot) (buf : list Snapshot) :
  (90 < length buf + 1)%nat ->
  exists old,
    sortByTime (buf ++ [snap]) = old :: receiveSnapshot snap buf
    /\ Forall (fun s => sortKey old <= sortKey s) (receiveSnapshot snap buf).
Proof.
  intros H. unfold receiveSnapshot.
  pose proof (sortByTime_sorted (buf ++ [snap])) as Hs.
  pose proof (sortByTime_length (buf ++ [snap])) as Hl.
  rewrite length_app in Hl. simpl in Hl.
  destruct (Nat.ltb_spec 90 (length (sortByTime (buf ++ [snap])))) as [L|L];
    [|lia].
  destruct (sortByTime (buf ++ [snap])) as [|x l]; [simpl in L; lia|].
  exists x. split; [reflexivity|]. simpl.
  inversion Hs; subst. assumption.
Qed.

Lemma receiveSnapshot_kept (snap : Snapshot) (buf : list Snapshot) :
  exists dropped,
    Permutation (dropped ++ receiveSnapshot snap buf) (buf ++ [snap]).
Proof.
  unfold receiveSnapshot.
  pose proof (sortByTime_perm (buf ++ [snap])) as P.
  set (srt := sortByTime (buf ++ [snap])) in *.
  destruct (90 <? length srt)%nat.
  - destruct srt as [|x l]; [exists [] | exists [x]]; exact P.
  - exists []. exact P.
Qed.

Lemma receiveAll_kept (snaps : list Snapshot) :
  forall buf,
  exists dropped,
    Permutation (dropped ++ receiveAll snaps buf) (buf ++ snaps).
Proof.
  induction snaps as [|s snaps IH]; intros buf; simpl.
  - exists []. simpl. rewrite app_nil_r. reflexivity.
  - destruct (IH (receiveSnapshot s buf)) as [d1 H1].
    destruct (receiveSnapshot_kept s buf) as [d2 H2].
    exists (d2 ++ d1).
    rewrite <- app_assoc, H1, app_assoc, H2, <- app_assoc.
    reflexivity.
Qed.

Lemma receiveAll_sorted (snaps : list Snapshot) :
  forall buf, keySorted buf -> keySorted (receiveAll snaps buf).
Proof.
  induction snaps as [|s snaps IH]; intros buf H; simpl; [exact H|].
  apply IH, receiveSnapshot_sorted.
Qed.

Lemma receiveAll_length (snaps : list Snapshot) :
  forall buf,
    (length buf <= 90)%nat -> (length (receiveAll snaps buf) <= 90)%nat.
Proof.
  induction snaps as [|s snaps IH]; intros buf H; simpl; [exact H|].
  apply IH, receiveSnapshot_length, H.
Qed.

End BufferFacts.

(** C3, as the code has it.  After any sequence of snapshot messages is
    received into an empty buffer, the buffer is sorted ascending by adjusted
    server time and holds at most 90 entries; a reception that would exceed
    the bound evicts the front entry of the sorted buffer, one of smallest
    server time; and the buffer holds no two entries with the same tick index
    provided the received messages carry pairwise distinct tick indices
    (nothing filters duplicates). *)
Theorem C3_buffer_sorted_bounded (offset : Q) (snaps : list Replica.Snapshot) :
  let buf := Replica.receiveAll snaps [] in
  Replica.sortedByTime offset buf
  /\ (length buf <= 90)%nat
  /\ (forall snap b,
        (90 < length b + 1)%nat ->
        exists old,
          Replica.sortByTime (b ++ [snap])
          = old :: Replica.receiveSnapshot snap b
          /\ Forall (fun s => Replica.snapshotClientTime offset old
                              <= Replica.snapshotClientTime offset s)
                    (Replica.receiveSnapshot snap b))
  /\ (Replica.distinctTicks snaps -> Replica.distinctTicks buf).
Proof.
  intros buf. subst buf. split; [|split; [|split]].
  - apply keySorted_byTime, receiveAll_sorted. constructor.
  - apply receiveAll_length. simpl. lia.
  - intros snap b Hb.
    destruct (receiveSnapshot_evicts snap b Hb) as (old & E & Hall).
    exists old. split; [exact E|].
    eapply Forall_impl; [exact Hall|].
    intros y Hy. unfold Replica.snapshotClientTime. simpl in Hy. lra.
  - unfold Replica.distinctTicks. intros Hnd.
    destruct (receiveAll_kept snaps []) as [dropped Hperm].
    simpl in Hperm.
    apply (Permutation_map Replica.tick) in Hperm.
    rewrite map_app in Hperm.
    apply (Permutation_NoDup (Permutation_sym Hperm)) in Hnd.
    apply List.NoDup_app_remove_l in Hnd. exact Hnd.
Qed.

Lemma C3_buffer_sorted_bounded_witness :
  Replica.distinctTicks (Replica.receiveAll Replica.sampleSnapshots [])
  /\ exists old,
      Replica.sortByTime
        (Replica.sampleFull ++ [Replica.mkSnapshot 9 (Some 900) [] [] 0])
      = old :: Replica.receiveSnapshot
                 (Replica.mkSnapshot 9 (Some 900) [] [] 0) Replica.sampleFull
      /\ Forall (fun s => Replica.snapshotClientTime 0 old
                          <= Replica.snapshotClientTime 0 s)
                (Replica.receiveSnapshot
                   (Replica.mkSnapshot 9 (Some 900) [] [] 0)
                   Replica.sampleFull).
Proof.
  destruct (C3_buffer_sorted_bounded 0 Replica.sampleSnapshots)
    as (_ & _ & Hevict & Hticks).
  split.
  - apply Hticks. unfold Replica.distinctTicks. simpl.
    repeat constructor; simpl; intuition lia.
  - apply Hevict. vm_compute. lia.
Defined.

(** C3 as stated fails: the same tick delivered twice stays twice in the
    buffer. *)
Lemma C3_duplicate_ticks_kept :
  let buf := Replica.receiveAll Replica.sampleTwice [] in
  ~ (Replica.sortedByTime 0 buf
     /\ Replica.distinctTicks buf
     /\ (length buf <= 90)%nat).
Proof.
  intros buf (_ & Hd & _). subst buf.
  unfold Replica.distinctTicks in Hd. vm_compute in Hd.
  inversion Hd as [|x l Hin _]; subst. apply Hin. left. reflexivity.
Qed.

Example C3_sample_sorted :
  map Replica.tick (Replica.receiveAll Replica.sampleSnapshots [])
  = [1; 2; 3]%Z.
Proof. reflexivity. Qed.

(** ** Selection of the interpolation pair *)

Section SelectionFacts.
Import Replica.
Variables offset renderTime : Q.

Lemma secondDue_cons (s s1 : Snapshot) (rest : list Snapshot) :
  secondDue offset renderTime (s :: s1 :: rest)
  <-> snapshotClientTime offset s1 <= renderTime.
Proof.
  unfold secondDue. simpl. split.
  - intros (x & E & H). injection E as ->. exact H.
  - intros H. exists s1. split; [reflexivity | exact H].
Qed.

(** The loop prunes exactly as the specification words it. *)
Lemma prune_PrunedTo (buf : list Snapshot) :
  PrunedTo offset renderTime buf (prune offset renderTime buf).
Proof.
  induction buf as [|s buf IH].
  - simpl. apply pruned_done. simpl. intros [H _]. lia.
  - destruct buf as [|s1 [|s2 rest]].
    + simpl. apply pruned_done. simpl. intros [H _]. lia.
    + simpl. apply pruned_done. simpl. intros [H _]. lia.
    + change (prune offset renderTime (s :: s1 :: s2 :: rest))
        with (if Qle_bool (snapshotClientTime offset s1) renderTime
              then prune offset renderTime (s1 :: s2 :: rest)
              else s :: s1 :: s2 :: rest).
      destruct (Qle_bool (snapshotClientTime offset s1) renderTime) eqn:E.
      * apply Qle_bool_true in E. apply pruned_shift.
        -- simpl. lia.
        -- apply secondDue_cons. exact E.
        -- exact IH.
      * apply Qle_bool_false in E. apply pruned_done.
        intros [_ H]. apply secondDue_cons in H. lra.
Qed.

(** The specification's pruning has one outcome only. *)
Lemma PrunedTo_unique (buf out1 out2 : list Snapshot) :
  PrunedTo offset renderTime buf out1 ->
  PrunedTo offset renderTime buf out2 -> out1 = out2.
Proof.
  intros H1. revert out2.
  induction H1 as [buf Hn | s buf out Hlen Hdue _ IH]; intros out2 H2.
  - inversion H2 as [? _ | ? ? ? Hlen Hdue _]; subst; [reflexivity|].
    exfalso. apply Hn. split; assumption.
  - inversion H2 as [? Hn | ? ? ? _ _ H]; subst.
    + exfalso. apply Hn. split; assumption.
    + apply IH. exact H.
Qed.

Lemma prune_nonempty (buf : list Snapshot) :
  buf <> [] -> prune offset renderTime buf <> [].
Proof.
  induction buf as [|s buf IH]; intros Hne; [congruence|].
  destruct buf as [|s1 [|s2 rest]]; simpl; try discriminate.
  destruct (Qle_bool (snapshotClientTime offset s1) renderTime);
    [|discriminate].
  apply IH. discriminate.
Qed.

Lemma prune_suffix (buf : list Snapshot) :
  exists shifted, buf = shifted ++ prune offset renderTime buf.
Proof.
  induction buf as [|s buf IH]; [exists []; reflexivity|].
  destruct buf as [|s1 [|s2 rest]]; try (exists []; reflexivity).
  change (prune offset renderTime (s :: s1 :: s2 :: rest))
    with (if Qle_bool (snapshotClientTime offset s1) renderTime
          then prune offset renderTime (s1 :: s2 :: rest)
          else s :: s1 :: s2 :: rest).
  destruct (Qle_bool (snapshotClientTime offset s1) renderTime).
  - destruct IH as [sh E]. exists (s :: sh).
    rewrite <- app_comm_cons. f_equal. exact E.
  - exists []. reflexivity.
Qed.

Lemma find_first (buf : list Snapshot) (x : Snapshot) :
  find (due offset renderTime) buf = Some x ->
  exists pre post,
    buf = pre ++ x :: post
    /\ Forall (fun s => snapshotClientTime offset s < renderTime) pre
    /\ renderTime <= snapshotClientTime offset x.
Proof.
  induction buf as [|s buf IH]; simpl; [discriminate|].
  destruct (due offset renderTime s) eqn:E.
  - intros [= ->]. exists [], buf. repeat split.
    + constructor.
    + apply Qle_bool_true. exact E.
  - intros H. destruct (IH H) as (pre & post & -> & Hpre & Hx).
    exists (s :: pre), post. repeat split; [|exact Hx].
    constructor; [|exact Hpre]. apply Qle_bool_false. exact E.
Qed.

Lemma find_none_all (buf : list Snapshot) :
  find (due offset renderTime) buf = None ->
  Forall (fun s => snapshotClientTime offset s < renderTime) buf.
Proof.
  induction buf as [|s buf IH]; simpl; [constructor|].
  destruct (due offset renderTime s) eqn:E; [discriminate|].
  intros H. constructor; [|apply IH; exact H].
  apply Qle_bool_false. exact E.
Qed.

End SelectionFacts.

(** C2. On an empty buffer [applySnapshotInterpolation] does nothing.
    Otherwise, with [renderTime = now - snapshotDelay * 1000], the buffer it
    leaves is the sorted buffer pruned from the front while it has more than
    2 entries and the second entry's adjusted time is <= [renderTime];
    [prev] is the front of that buffer; [next] is its first entry with
    adjusted time >= [renderTime], or its last entry when none qualifies;
    and [alpha = clamp ((renderTime - prevTime) / max 1 (nextTime -
    prevTime)) 0 1]. *)
Theorem C2_interpolation_selection (now : Q) (net : Replica.Network) :
  let off := Replica.serverTimeOffset net in
  let renderTime := now - Replica.snapshotDelay net * 1000 in
  match Replica.applySnapshotInterpolation now net with
  | None => Replica.snapshotBuffer net = []
  | Some sel =>
      Replica.snapshotBuffer net <> []
      /\ Replica.PrunedTo off renderTime
           (Replica.sortByTime (Replica.snapshotBuffer net))
           (Replica.kept sel)
      /\ head (Replica.kept sel) = Some (Replica.prev sel)
      /\ Replica.IsNext off renderTime (Replica.kept sel) (Replica.next sel)
      /\ Replica.alpha sel
         = JsNum.clamp
             ((renderTime - Replica.snapshotClientTime off (Replica.prev sel))
              / Qmax 1 (Replica.snapshotClientTime off (Replica.next sel)
                        - Replica.snapshotClientTime off (Replica.prev sel)))
             0 1
  end.
Proof.
  intros off renderTime. unfold Replica.applySnapshotInterpolation.
  destruct (Replica.snapshotBuffer net) as [|s0 buf0] eqn:Ebuf;
    [reflexivity|].
  fold off. fold renderTime.
  pose proof (prune_PrunedTo off renderTime
                (Replica.sortByTime (s0 :: buf0))) as Hpr.
  assert (Hne : Replica.prune off renderTime
                  (Replica.sortByTime (s0 :: buf0)) <> []).
  { apply prune_nonempty. intros E.
    apply (f_equal (@length _)) in E.
    rewrite sortByTime_length in E. discriminate. }
  destruct (Replica.prune off renderTime (Replica.sortByTime (s0 :: buf0)))
    as [|first rest] eqn:Ekept; [congruence|].
  cbn [Replica.kept Replica.prev Replica.next Replica.alpha].
  split; [discriminate|]. split; [exact Hpr|]. split; [reflexivity|].
  split; [|reflexivity].
  destruct (find (Replica.due off renderTime) (first :: rest)) as [x|] eqn:Ef.
  - left. apply find_first. exact Ef.
  - right. split; [apply find_none_all; exact Ef|].
    exists (removelast (first :: rest)).
    apply app_removelast_last. discriminate.
Qed.

Example C2_sample_selection :
  option_map
    (fun sel => (map Replica.tick (Replica.kept sel),
                 Replica.tick (Replica.prev sel),
                 Replica.tick (Replica.next sel),
                 Qred (Replica.alpha sel)))
    (Replica.applySnapshotInterpolation 1195
       (Replica.mkNetwork Replica.sampleSnapshots (12 # 100) 0))
  = Some ([2; 3]%Z, 2%Z, 3%Z, 1 # 2).
Proof. reflexivity. Qed.

(** ** The host's props *)

Section PropFacts.
Import Host.

Lemma outOfBounds_true (t : Vec3) :
  outOfBounds t = true
  <-> (200 < Qabs (vx t) \/ vy t < -20 \/ 200 < Qabs (vz t)).
Proof.
  unfold outOfBounds.
  rewrite !orb_true_iff, !negb_true_iff, !Qle_bool_false. tauto.
Qed.

Lemma outOfBounds_false (t : Vec3) :
  outOfBounds t = false
  <-> (Qabs (vx t) <= 200 /\ -20 <= vy t /\ Qabs (vz t) <= 200).
Proof.
  unfold outOfBounds.
  rewrite !orb_false_iff, !negb_false_iff, !Qle_bool_true. tauto.
Qed.

Lemma resetProp_dom (prop : PropEntry) (w : World) :
  dom (bodies (resetPropIfOutOfBounds prop w)) = dom (bodies w).
Proof.
  unfold resetPropIfOutOfBounds, getRigidBody.
  destruct (dynamic prop); simpl; [|reflexivity].
  destruct (bodies w !! propBody prop) as [body|] eqn:E; [|reflexivity].
  destruct (outOfBounds (translation body)); [|reflexivity].
  simpl. apply dom_insert_lookup_L. rewrite E. eauto.
Qed.

End PropFacts.

(** C9. A dynamic prop whose body has left the bounds ([|x| > 200], or
    [y < -20], or [|z| > 200]) is put back at its recorded initial
    translation and rotation with zero linear and zero angular velocity, and
    no other body changes; a prop that is not dynamic, or has no body, or
    whose body is within the bounds leaves the world as it is; and the check
    never removes a body from the world. *)
Theorem C9_prop_reset (prop : Host.PropEntry) (w : Host.World) :
  let w' := Host.resetPropIfOutOfBounds prop w in
  (forall body,
      Host.dynamic prop = true ->
      Host.getRigidBody w (Host.propBody prop) = Some body ->
      (200 < Qabs (Host.vx (Host.translation body))
       \/ Host.vy (Host.translation body) < -20
       \/ 200 < Qabs (Host.vz (Host.translation body))) ->
      Host.getRigidBody w' (Host.propBody prop)
      = Some (Host.mkBody (Host.initialP prop) (Host.initialQ prop)
                          (Host.mkVec3 0 0 0) (Host.mkVec3 0 0 0) false)
      /\ (forall h, h <> Host.propBody prop ->
                    Host.getRigidBody w' h = Host.getRigidBody w h))
  /\ (Host.dynamic prop = false
      \/ Host.getRigidBody w (Host.propBody prop) = None
      \/ (exists body,
             Host.getRigidBody w (Host.propBody prop) = Some body
             /\ Qabs (Host.vx (Host.translation body)) <= 200
             /\ -20 <= Host.vy (Host.translation body)
             /\ Qabs (Host.vz (Host.translation body)) <= 200) ->
      w' = w)
  /\ dom (Host.bodies w') = dom (Host.bodies w).
Proof.
  intros w'. subst w'. split; [|split; [|apply resetProp_dom]].
  - intros body Hdyn Hbody Hout.
    apply outOfBounds_true in Hout.
    unfold Host.resetPropIfOutOfBounds. rewrite Hdyn, Hbody, Hout. simpl.
    unfold Host.getRigidBody, Host.setBody. simpl. split.
    + apply lookup_insert_eq.
    + intros h Hne. apply lookup_insert_ne. congruence.
  - unfold Host.resetPropIfOutOfBounds.
    intros [Hdyn | [Hnone | (body & Hbody & Hin)]].
    + rewrite Hdyn. reflexivity.
    + rewrite Hnone. destruct (Host.dynamic prop); reflexivity.
    + rewrite Hbody.
      rewrite (proj2 (outOfBounds_false (Host.translation body)) Hin).
      destruct (Host.dynamic prop); reflexivity.
Qed.

Lemma C9_prop_reset_witness :
  Host.getRigidBody
    (Host.resetPropIfOutOfBounds Host.sampleProp Host.sampleFallen) 0%Z
  = Some (Host.mkBody (Host.mkVec3 3 (1 # 2) (-7)) (Host.mkQuat 0 0 0 1)
                      (Host.mkVec3 0 0 0) (Host.mkVec3 0 0 0) false)
  /\ Host.resetPropIfOutOfBounds
       (Host.mkProp "p1" false 0 (Host.mkVec3 0 0 0) (Host.mkQuat 0 0 0 1))
       Host.sampleFallen
     = Host.sampleFallen.
Proof.
  destruct (C9_prop_reset Host.sampleProp Host.sampleFallen)
    as (Hreset & _ & _).
  destruct (C9_prop_reset
              (Host.mkProp "p1" false 0 (Host.mkVec3 0 0 0)
                           (Host.mkQuat 0 0 0 1))
              Host.sampleFallen) as (_ & Hsame & _).
  split.
  - refine (proj1 (Hreset
             (Host.mkBody (Host.mkVec3 3 (-25) (-7)) (Host.mkQuat 0 1 0 0)
                          (Host.mkVec3 0 (-9) 0) (Host.mkVec3 1 0 0) true)
             _ _ _)).
    + reflexivity.
    + reflexivity.
    + right. left. simpl. reflexivity.
  - apply Hsame. left. reflexivity.
Defined.

(** ** The host's session table *)

Section SessionFacts.
Import Host.

Lemma get_set_eq (id : string) (c : Client) (cs : list (string * Client)) :
  get id (set id c cs) = Some c.
Proof.
  induction cs as [|[k c0] cs IH]; simpl.
  - rewrite String.eqb_refl. reflexivity.
  - destruct (String.eqb k id) eqn:E; simpl; rewrite E; [reflexivity|].
    exact IH.
Qed.

Lemma get_set_ne (id other : string) (c : Client)
      (cs : list (string * Client)) :
  other <> id -> get other (set id c cs) = get other cs.
Proof.
  intros Hne. induction cs as [|[k c0] cs IH]; simpl.
  - apply String.eqb_neq in Hne. rewrite String.eqb_sym, Hne. reflexivity.
  - destruct (String.eqb k id) eqn:E; simpl.
    + apply String.eqb_eq in E. subst k.
      apply String.eqb_neq in Hne. rewrite String.eqb_sym, Hne.
      reflexivity.
    + destruct (String.eqb k other); [reflexivity | exact IH].
Qed.

Lemma set_length_known (id : string) (c c0 : Client)
      (cs : list (string * Client)) :
  get id cs = Some c0 -> length (set id c cs) = length cs.
Proof.
  induction cs as [|[k c1] cs IH]; simpl; [discriminate|].
  destruct (String.eqb k id); simpl; [reflexivity|].
  intros H. rewrite IH by exact H. reflexivity.
Qed.

Lemma get_del_eq (id : string) (cs : list (string * Client)) :
  get id (del id cs) = None.
Proof.
  unfold del. induction cs as [|[k c0] cs IH]; simpl; [reflexivity|].
  destruct (String.eqb k id) eqn:E; simpl; [exact IH|].
  rewrite E. exact IH.
Qed.

Lemma broadcast_clients (m : Msg) (skip : string) (st : State) :
  clients (broadcast m skip st) = clients st
  /\ world (broadcast m skip st) = world st.
Proof. split; reflexivity. Qed.

End SessionFacts.

(** C4, as the code has it.  For a session in the table, an [input] message
    overwrites the stored input sample with the message's sample whatever its
    sequence number; the stored sequence number becomes the message's when
    that is a number (lower or not) and stays otherwise; the liveness stamp
    becomes the time of receipt; no other session changes. *)
Theorem C4_last_input_wins
  (id : string) (steerNum throttleNum : option Q) (brakeFlag : bool)
  (seq : option Q) (now : Z) (st : Host.State) (client : Host.Client) :
  Host.get id (Host.clients st) = Some client ->
  let st' :=
    Host.onMessage id (Host.Input steerNum throttleNum brakeFlag seq) now st in
  Host.get id (Host.clients st')
  = Some (Host.mkClient
            (Host.ws client) (Host.colorId client) (Host.bodyHandle client)
            (Host.colliderHandle client)
            (Host.mkInput (JsNum.orZero steerNum) (JsNum.orZero throttleNum)
                          brakeFlag)
            (match seq with Some n => n | None => Host.lastSeq client end)
            now)
  /\ (forall other, other <> id ->
        Host.get other (Host.clients st') = Host.get other (Host.clients st))
  /\ Host.world st' = Host.world st
  /\ Host.effects st' = Host.effects st.
Proof.
  intros Hget st'. subst st'. unfold Host.onMessage. rewrite Hget. simpl.
  split; [apply get_set_eq|]. split; [|split; reflexivity].
  intros other Hne. apply get_set_ne. exact Hne.
Qed.

Lemma C4_last_input_wins_witness :
  Host.get "a"
    (Host.clients
       (Host.onMessage "a" (Host.Input (Some (-1)) None true (Some 3)) 200
                       Host.sampleSeq5))
  = Some (Host.mkClient (Some "a") 0 0 0 (Host.mkInput (-1) 0 true) 3 200).
Proof.
  apply (C4_last_input_wins "a" (Some (-1)) None true (Some 3) 200
           Host.sampleSeq5
           (Host.mkClient (Some "a") 0 0 0 (Host.mkInput 1 1 false) 5 100)).
  reflexivity.
Defined.

(** C4 as stated fails: after an input with sequence number 5, an input with
    the lower sequence number 3 is not discarded; it replaces both the stored
    input and the stored sequence number. *)
Lemma C4_lower_seq_overwrites :
  let before := Host.get "a" (Host.clients Host.sampleSeq5) in
  let after :=
    Host.get "a"
      (Host.clients
         (Host.onMessage "a" (Host.Input (Some (-1)) None true (Some 3)) 200
                         Host.sampleSeq5)) in
  before
  = Some (Host.mkClient (Some "a") 0 0 0 (Host.mkInput 1 1 false) 5 100)
  /\ after
     = Some (Host.mkClient (Some "a") 0 0 0 (Host.mkInput (-1) 0 true) 3 200)
  /\ 3 < 5
  /\ ~ (option_map Host.lastInput after = option_map Host.lastInput before
        \/ option_map Host.lastSeq after = option_map Host.lastSeq before).
Proof.
  split; [reflexivity|]. split; [reflexivity|]. split; [reflexivity|].
  intros [H | H]; vm_compute in H; discriminate.
Qed.

(** ** Heartbeat and close *)

(** C5, evaluated on the code.  Sessions ["a"] and ["b"] are connected;
    ["a"] has been silent since time 0, ["b"] sent input at 39000.  The
    sweep at 45000 removes ["a"] (entry and body) and terminates its socket,
    and sends ["b"] one [player-left]; the close event that the termination
    triggers then sends ["b"] a second [player-left] for ["a"]. *)
Theorem C5_stale_session_player_left_twice :
  let swept := Host.heartbeat 45000 Host.sampleTwo in
  let closed := Host.onClose "a" swept in
  Host.positionOf "a" Host.sampleTwo = Some (Host.mkVec3 (-4) (6 # 10) (-4))
  /\ Host.get "a" (Host.clients swept) = None
  /\ Host.getRigidBody (Host.world swept) 0 = None
  /\ Host.closing swept = ["a"]
  /\ Host.playerLeftCount "b" "a" (Host.effects swept) = 1%nat
  /\ Host.playerLeftCount "b" "a" (Host.effects closed) = 2%nat.
Proof. vm_compute. repeat split; reflexivity. Qed.

Section SweepFacts.
Import Host.
Variable now : Z.

Lemma get_del_ne (id k : string) (cs : list (string * Client)) :
  k <> id -> get id (del k cs) = get id cs.
Proof.
  intros Hne. unfold del. induction cs as [|[k' c'] cs IH]; simpl;
    [reflexivity|].
  destruct (String.eqb k' k) eqn:Ek; simpl.
  - apply String.eqb_eq in Ek. subst k'.
    apply String.eqb_neq in Hne. rewrite Hne. exact IH.
  - destruct (String.eqb k' id); [reflexivity | exact IH].
Qed.

Lemma get_In (id : string) (c : Client) (cs : list (string * Client)) :
  List.NoDup (map fst cs) -> In (id, c) cs -> get id cs = Some c.
Proof.
  induction cs as [|[k c'] cs IH]; simpl; intros Hnd Hin; [contradiction|].
  inversion Hnd as [|? ? Hnotin Hnd']; subst.
  destruct Hin as [[= -> ->] | Hin].
  - rewrite String.eqb_refl. reflexivity.
  - destruct (String.eqb k id) eqn:E; [|apply IH; assumption].
    apply String.eqb_eq in E. subst k. exfalso. apply Hnotin.
    apply (in_map fst) in Hin. exact Hin.
Qed.

(** Visiting the stale session itself removes it. *)
Lemma sweepOne_target (id : string) (c : Client) (st : State) :
  ws c = Some id ->
  get id (clients st) = Some c ->
  sockets st !! id = Some OPEN ->
  (HEARTBEAT_MS * 2 < now - lastSeen c)%Z ->
  sweptOut id (bodyHandle c) (sweepOne now (id, c) st).
Proof.
  intros Hws Hget Hsock Hstale. unfold sweepOne, socketOpen.
  rewrite Hws, Hsock. simpl.
  apply Z.ltb_lt in Hstale. rewrite Hstale.
  unfold sweptOut, broadcast, removePlayer, terminate. simpl.
  rewrite Hget. simpl. split; [apply get_del_eq|]. split.
  - unfold getRigidBody.
    destruct (bodies (world st) !! bodyHandle c) eqn:E; simpl.
    + apply lookup_delete_eq.
    + exact E.
  - apply in_or_app. right. left. reflexivity.
Qed.

(** Visiting another session leaves the stale one as it was. *)
Lemma sweepOne_other (id k : string) (c c' : Client) (st : State) :
  k <> id -> ws c' = Some k ->
  get id (clients st) = Some c -> sockets st !! id = Some OPEN ->
  get id (clients (sweepOne now (k, c') st)) = Some c
  /\ sockets (sweepOne now (k, c') st) !! id = Some OPEN.
Proof.
  intros Hne Hws Hget Hsock. unfold sweepOne.
  destruct (socketOpen st c'); simpl; [|split; assumption].
  rewrite Hws.
  destruct (HEARTBEAT_MS * 2 <? now - lastSeen c')%Z;
    [|split; assumption].
  unfold broadcast, removePlayer, terminate. simpl.
  destruct (get k (clients st)); simpl.
  - rewrite get_del_ne by exact Hne.
    rewrite lookup_insert_ne by exact Hne. split; assumption.
  - rewrite lookup_insert_ne by exact Hne. split; assumption.
Qed.

(** Once a session is swept out, no later visit brings it back. *)
Lemma sweepOne_keeps (id : string) (h : Z) (kc : string * Client)
      (st : State) :
  sweptOut id h st -> sweptOut id h (sweepOne now kc st).
Proof.
  intros (Hget & Hbody & Hcl). destruct kc as [k c']. unfold sweepOne.
  destruct (socketOpen st c'); simpl; [|repeat split; assumption].
  destruct (ws c') as [sock|]; [|repeat split; assumption].
  destruct (HEARTBEAT_MS * 2 <? now - lastSeen c')%Z;
    [|repeat split; assumption].
  unfold sweptOut, broadcast, removePlayer, terminate. simpl.
  destruct (get k (clients st)) as [e|] eqn:Ek; simpl.
  - split; [|split].
    + destruct (String.eqb_spec k id) as [->|Hne]; [congruence|].
      rewrite get_del_ne by exact Hne. exact Hget.
    + unfold getRigidBody in *.
      destruct (bodies (world st) !! bodyHandle e); simpl; [|exact Hbody].
      destruct (decide (bodyHandle e = h)) as [->|Hne].
      * apply lookup_delete_eq.
      * rewrite lookup_delete_ne by exact Hne. exact Hbody.
    + apply in_or_app. left. exact Hcl.
  - split; [exact Hget|]. split; [exact Hbody|].
    apply in_or_app. left. exact Hcl.
Qed.

Lemma sweep_keeps (id : string) (h : Z) (l : list (string * Client)) :
  forall st,
    sweptOut id h st ->
    sweptOut id h (fold_left (fun s kc => sweepOne now kc s) l st).
Proof.
  induction l as [|kc l IH]; intros st H; simpl; [exact H|].
  apply IH, sweepOne_keeps, H.
Qed.

Lemma sweep_reaches (id : string) (c : Client) (l : list (string * Client)) :
  forall st,
    wellKeyed l -> In (id, c) l ->
    get id (clients st) = Some c -> sockets st !! id = Some OPEN ->
    (HEARTBEAT_MS * 2 < now - lastSeen c)%Z ->
    sweptOut id (bodyHandle c)
             (fold_left (fun s kc => sweepOne now kc s) l st).
Proof.
  induction l as [|[k c'] l IH]; intros st [Hnd Hws] Hin Hget Hsock Hstale;
    simpl in *; [contradiction|].
  inversion Hnd as [|? ? Hnotin Hnd']; subst.
  inversion Hws as [|? ? Hws1 Hws']; subst. simpl in Hws1.
  destruct Hin as [[= -> ->] | Hin].
  - apply sweep_keeps, sweepOne_target; assumption.
  - assert (Hne : k <> id).
    { intros ->. apply Hnotin. apply (in_map fst) in Hin. exact Hin. }
    destruct (sweepOne_other id k c c' st Hne Hws1 Hget Hsock) as [Hg Hs].
    apply IH; try assumption. split; assumption.
Qed.

(** The sweep removes every stale session whose socket is open: its entry
    and its body are gone, and its socket is closing. *)
Lemma heartbeat_removes_stale (id : string) (c : Client) (st : State) :
  wellKeyed (clients st) -> In (id, c) (clients st) ->
  sockets st !! id = Some OPEN ->
  (HEARTBEAT_MS * 2 < now - lastSeen c)%Z ->
  sweptOut id (bodyHandle c) (heartbeat now st).
Proof.
  intros Hwk Hin Hsock Hstale. unfold heartbeat.
  apply sweep_reaches; try assumption.
  apply get_In; [apply Hwk | exact Hin].
Qed.

Lemma del_wellKeyed (id : string) (cs : list (string * Client)) :
  wellKeyed cs -> wellKeyed (del id cs).
Proof.
  unfold wellKeyed, del. intros [Hnd Hws]. split.
  - induction cs as [|[k c] cs IH]; simpl; [constructor|].
    inversion Hnd as [|? ? Hnotin Hnd']; subst.
    inversion Hws as [|? ? _ Hws']; subst.
    destruct (negb (String.eqb k id)); simpl; [|apply IH; assumption].
    constructor; [|apply IH; assumption].
    intros Hin. apply Hnotin.
    apply in_map_iff in Hin. destruct Hin as ([k' c'] & <- & Hin).
    apply filter_In in Hin. destruct Hin as [Hin _].
    apply (in_map fst) in Hin. exact Hin.
  - apply List.Forall_forall. intros kc Hin.
    apply filter_In in Hin. destruct Hin as [Hin _].
    rewrite List.Forall_forall in Hws. apply Hws. exact Hin.
Qed.

Lemma del_In (id other : string) (c : Client) (cs : list (string * Client)) :
  other <> id -> In (other, c) cs -> In (other, c) (del id cs).
Proof.
  intros Hne Hin. unfold del. apply filter_In. split; [exact Hin|].
  simpl. apply negb_true_iff, String.eqb_neq. exact Hne.
Qed.

(** A broadcast of [player-left] reaches an open session other than the
    skipped one exactly once. *)
Lemma broadcast_reaches (id other : string) (c : Client) (st : State) :
  other <> id ->
  wellKeyed (clients st) -> In (other, c) (clients st) ->
  sockets st !! other = Some OPEN ->
  playerLeftCount other id (effects (broadcast (PlayerLeft id) id st))
  = S (playerLeftCount other id (effects st)).
Proof.
  intros Hne [Hnd Hws] Hin Hsock.
  unfold broadcast, playerLeftCount. cbn [effects].
  rewrite List.filter_app, length_app.
  rewrite Nat.add_comm. change (S ?n) with (1 + n)%nat. f_equal.
  revert Hnd Hws Hin.
  generalize (clients st) as l.
  assert (Hzero : forall l : list (string * Client),
             Forall (fun kc => ws (snd kc) = Some (fst kc)) l ->
             ~ In other (map fst l) ->
             length
               (List.filter
                  (fun e => match e with
                            | Send s0 (PlayerLeft i) =>
                                String.eqb s0 other && String.eqb i id
                            | _ => false
                            end)
                  (flat_map
                     (fun kc =>
                        if String.eqb (fst kc) id then []
                        else if socketOpen st (snd kc)
                             then match ws (snd kc) with
                                  | Some sock => [Send sock (PlayerLeft id)]
                                  | None => []
                                  end
                             else []) l)) = 0%nat).
  { induction l as [|[k c'] l IH]; simpl; intros Hws Hnot; [reflexivity|].
    inversion Hws as [|? ? Hws1 Hws']; subst. simpl in Hws1.
    rewrite List.filter_app, length_app, IH by tauto.
    destruct (String.eqb k id); [reflexivity|].
    destruct (socketOpen st c'); [|reflexivity].
    rewrite Hws1. simpl.
    destruct (String.eqb_spec k other) as [->|_]; [tauto | reflexivity]. }
  induction l as [|[k c'] l IH]; simpl; intros Hnd Hws Hin; [contradiction|].
  inversion Hnd as [|? ? Hnotin Hnd']; subst.
  inversion Hws as [|? ? Hws1 Hws']; subst. simpl in Hws1.
  rewrite List.filter_app, length_app.
  destruct Hin as [[= -> ->] | Hin].
  - rewrite Hzero by assumption.
    apply String.eqb_neq in Hne. rewrite Hne.
    unfold socketOpen. rewrite Hws1, Hsock. simpl.
    rewrite !String.eqb_refl. reflexivity.
  - rewrite IH by assumption.
    assert (Hk : k <> other).
    { intros ->. apply Hnotin. apply (in_map fst) in Hin. exact Hin. }
    destruct (String.eqb k id); [reflexivity|].
    destruct (socketOpen st c'); [|reflexivity].
    rewrite Hws1. simpl.
    apply String.eqb_neq in Hk. rewrite Hk. reflexivity.
Qed.

(** The close handler broadcasts whether or not the session still exists:
    every other session whose socket is open is sent one more
    [player-left]. *)
Lemma onClose_always_broadcasts (id other : string) (c : Client) (st : State) :
  other <> id ->
  wellKeyed (clients st) -> In (other, c) (clients st) ->
  sockets st !! other = Some OPEN ->
  playerLeftCount other id (effects (onClose id st))
  = S (playerLeftCount other id (effects st)).
Proof.
  intros Hne Hwk Hin Hsock. unfold onClose, removePlayer. cbn [clients].
  destruct (get id (clients st)) as [e|].
  - rewrite (broadcast_reaches id other c); cbn [clients sockets effects].
    + reflexivity.
    + exact Hne.
    + apply del_wellKeyed, Hwk.
    + apply del_In; assumption.
    + rewrite lookup_insert_ne by congruence. exact Hsock.
  - rewrite (broadcast_reaches id other c); cbn [clients sockets effects].
    + reflexivity.
    + exact Hne.
    + exact Hwk.
    + exact Hin.
    + rewrite lookup_insert_ne by congruence. exact Hsock.
Qed.

End SweepFacts.

(** ** Spawning *)

Section SpawnFacts.
Import Host.

Lemma spawnPlayer_position (id : string) (colorIdx : nat) (now : Z)
      (st : State) :
  positionOf id (spawnPlayer id colorIdx now st)
  = Some (spawnPoint (length (clients st))).
Proof.
  unfold positionOf, spawnPlayer. simpl.
  rewrite get_set_eq. simpl.
  unfold getRigidBody. simpl. rewrite lookup_insert_eq. reflexivity.
Qed.

Lemma handleConnection_position (id : string) (now : Z) (st : State) :
  positionOf id (handleConnection id now st)
  = Some (spawnPoint (length (clients st))).
Proof.
  pose proof (spawnPlayer_position id (length (clients st) mod 8) now st)
    as Hsp.
  unfold handleConnection, positionOf in *.
  set (st1 := spawnPlayer id (length (clients st) mod 8) now st) in *.
  destruct (get id (clients st1)) as [e|] eqn:Eg; [|discriminate].
  cbn [clients world broadcast]. rewrite get_set_eq. simpl. exact Hsp.
Qed.

Lemma slot_inside (i : nat) :
  (i < 9)%nat ->
  let slot := nth i Spawn.SAFE_SPAWN_SLOTS (0, 0) in
  Spawn.isInsideSafeZone (Spawn.centerX + fst slot)
                         (Spawn.centerZ + snd slot) 0 = true.
Proof.
  intros Hi.
  do 9 (destruct i as [|i]; [reflexivity|]). lia.
Qed.

End SpawnFacts.

(** C6, as the code has it.  The host places the entity of a connecting
    participant at [spawnPoint n], where [n] is the number of sessions in the
    table at that moment: [x = (n mod 4) * 4 - 4], [y = 0.6],
    [z = floor (n / 4) * 4 - 4]; the id plays no part.  The hash of the id
    modulo the nine-slot table is what the client's [getSafeSpawnTransform]
    uses, and each of its positions lies inside the safe zone, at the zone's
    height. *)
Theorem C6_spawn_position (id : string) (now : Z) (st : Host.State) :
  Host.positionOf id (Host.handleConnection id now st)
  = Some (Host.mkVec3
            (inject_Z (Z.of_nat (length (Host.clients st)) mod 4 * 4 - 4))
            (6 # 10)
            (inject_Z (Z.of_nat (length (Host.clients st)) / 4 * 4 - 4)))
  /\ (forall id', Host.positionOf id' (Host.handleConnection id' now st)
                  = Host.positionOf id (Host.handleConnection id now st))
  /\ (let '(x, y, z) := Spawn.getSafeSpawnTransform id in
      let slot :=
        nth (Z.to_nat (Spawn.hashIdForSlot id mod 9)) Spawn.SAFE_SPAWN_SLOTS
            (0, 0) in
      x = Spawn.centerX + fst slot /\ z = Spawn.centerZ + snd slot
      /\ y = 6 # 10
      /\ Spawn.isInsideSafeZone x z 0 = true).
Proof.
  split; [apply handleConnection_position|].
  split; [intros id'; rewrite !handleConnection_position; reflexivity|].
  unfold Spawn.getSafeSpawnTransform.
  change (Z.of_nat (length Spawn.SAFE_SPAWN_SLOTS)) with 9%Z.
  split; [reflexivity|]. split; [reflexivity|]. split; [reflexivity|].
  apply slot_inside.
  pose proof (Z.mod_pos_bound (Spawn.hashIdForSlot id) 9 ltac:(lia)). lia.
Qed.

(** C6 as stated fails: the same id is spawned at different places
    according to how many sessions are connected, and at neither place is
    the slot that the hash of the id selects. *)
Lemma C6_spawn_depends_on_count :
  Host.positionOf "a" (Host.handleConnection "a" 0 Host.emptyState)
  = Some (Host.mkVec3 (-4) (6 # 10) (-4))
  /\ Host.positionOf "a"
       (Host.handleConnection "a" 0
          (Host.handleConnection "b" 0 Host.emptyState))
     = Some (Host.mkVec3 0 (6 # 10) (-4))
  /\ Spawn.getSafeSpawnTransform "a" = (0 + 4, 6 # 10, 0 + -4)
  /\ ~ (forall st1 st2,
          Host.positionOf "a" (Host.handleConnection "a" 0 st1)
          = Host.positionOf "a" (Host.handleConnection "a" 0 st2)).
Proof.
  split; [reflexivity|]. split; [reflexivity|]. split; [reflexivity|].
  intros H.
  specialize (H Host.emptyState (Host.handleConnection "b" 0 Host.emptyState)).
  vm_compute in H. discriminate.
Qed.

(** ** The soft speed clamp *)

Section DriveFacts.
Import Drive.
Local Open Scope R_scope.

Lemma sumsq_nonneg (a : Vec) : 0 <= x a * x a + y a * y a + z a * z a.
Proof. nra. Qed.

Lemma length_nonneg (a : Vec) : 0 <= length a.
Proof. apply sqrt_pos. Qed.

Lemma length_sqr (a : Vec) : length a * length a = dot a a.
Proof. unfold length, dot. apply sqrt_sqrt, sumsq_nonneg. Qed.

Lemma length_scale (k : R) (a : Vec) :
  length (scale k a) = Rabs k * length a.
Proof.
  unfold length, scale. simpl.
  replace (x a * k * (x a * k) + y a * k * (y a * k) + z a * k * (z a * k))
    with (k² * (x a * x a + y a * y a + z a * z a)) by (unfold Rsqr; ring).
  rewrite sqrt_mult; [|apply Rle_0_sqr | apply sumsq_nonneg].
  rewrite sqrt_Rsqr_abs. reflexivity.
Qed.

Lemma normalize_nonzero (a : Vec) :
  length a <> 0 -> normalize a = scale (1 / length a) a.
Proof.
  intros H. unfold normalize.
  destruct (Req_dec_T (length a) 0); [contradiction | reflexivity].
Qed.

Lemma vec_eq (a b : Vec) :
  x a = x b -> y a = y b -> z a = z b -> a = b.
Proof. destruct a, b. simpl. intros -> -> ->. reflexivity. Qed.

(** Nothing but linear impulses changes the linear velocity. *)
Lemma stabilise_linvel (rb : Body) :
  linvel (stabilise rb) = linvel rb /\ invMass (stabilise rb) = invMass rb.
Proof.
  unfold stabilise.
  destruct (Rlt_dec 0.01 _); destruct (Rlt_dec yawRateLimit _);
    split; reflexivity.
Qed.

Lemma applyIf_linvel (j : option Vec) (rb : Body) :
  linvel (applyIf j rb)
  = match j with
    | Some j => add (linvel rb) (scale (invMass rb) j)
    | None => linvel rb
    end
  /\ invMass (applyIf j rb) = invMass rb.
Proof. destruct j; split; reflexivity. Qed.

(** The clamp impulse, when the speed is over the margin. *)
Lemma speedClampImpulse_over (vel : Vec) (speedAlong : R) :
  let speed := length vel in
  let forwardMax := if Rle_dec 0 speedAlong then maxSpeed else maxReverse in
  forwardMax + 0.35 < speed ->
  speedClampImpulse vel speedAlong
  = Some (scale (- ((speed - forwardMax) * speedClamp) / speed) vel).
Proof.
  intros speed forwardMax Hover. unfold speedClampImpulse.
  fold speed. fold forwardMax.
  destruct (Rlt_dec (forwardMax + 0.35) speed) as [_|Hn];
    [|contradiction].
  assert (Hpos : 0 < speed).
  { subst forwardMax. unfold maxSpeed, maxReverse in Hover.
    destruct (Rle_dec 0 speedAlong); lra. }
  rewrite normalize_nonzero by (fold speed; lra). fold speed.
  f_equal. apply vec_eq; simpl; field; lra.
Qed.

Lemma speedClampImpulse_within (vel : Vec) (speedAlong : R) :
  let speed := length vel in
  let forwardMax := if Rle_dec 0 speedAlong then maxSpeed else maxReverse in
  speed <= forwardMax + 0.35 ->
  speedClampImpulse vel speedAlong = None.
Proof.
  intros speed forwardMax Hin. unfold speedClampImpulse.
  fold speed. fold forwardMax.
  destruct (Rlt_dec (forwardMax + 0.35) speed); [lra | reflexivity].
Qed.

Lemma applyPlayerForces_body (dt : R) (c : Controls) (rb0 : Body) :
  body c = Some rb0 ->
  body (applyPlayerForces dt c)
  = Some (applyIf (speedClampImpulse (linvel rb0)
                                     (dot (linvel rb0) (forwardOf rb0)))
                  (beforeClamp dt c rb0)).
Proof. intros H. unfold applyPlayerForces. rewrite H. reflexivity. Qed.

End DriveFacts.

(** C8, as the code has it.  When the speed read at the start of the force
    application exceeds the direction-dependent maximum (11.0 forward, 7.5 in
    reverse) by more than 0.35, the last impulse applied is opposite to that
    velocity and of magnitude overage * speedClamp; when the speed is within
    the margin no clamp impulse is applied and the body is left as the
    earlier forces made it. *)
Theorem C8_speed_clamp_impulse (dt : R) (c : Drive.Controls) (rb0 : Drive.Body) :
  Drive.body c = Some rb0 ->
  let vel := Drive.linvel rb0 in
  let speed := Drive.length vel in
  let speedAlong := Drive.dot vel (Drive.forwardOf rb0) in
  let forwardMax := if Rle_dec 0 speedAlong then 11.0%R else 7.5%R in
  let pre := Drive.beforeClamp dt c rb0 in
  ((forwardMax + 0.35 < speed)%R ->
   exists j,
     Drive.body (Drive.applyPlayerForces dt c) = Some (Drive.applyImpulse j pre)
     /\ j = Drive.scale (- ((speed - forwardMax) * 0.32) / speed)%R vel
     /\ Drive.length j = ((speed - forwardMax) * 0.32)%R
     /\ Drive.dot j vel = (- ((speed - forwardMax) * 0.32) * speed)%R
     /\ (Drive.dot j vel < 0)%R)
  /\ ((speed <= forwardMax + 0.35)%R ->
      Drive.body (Drive.applyPlayerForces dt c) = Some pre).
Proof.
  intros Hbody vel speed speedAlong forwardMax pre.
  unfold Drive.applyPlayerForces. rewrite Hbody. simpl.
  fold vel. fold speedAlong. fold pre.
  split.
  - intros Hover.
    pose proof (speedClampImpulse_over vel speedAlong Hover) as E.
    fold speed in E.
    change (if Rle_dec 0 speedAlong then Drive.maxSpeed else Drive.maxReverse)
      with forwardMax in E.
    unfold Drive.speedClamp in E.
    assert (Hpos : (0 < speed)%R).
    { subst forwardMax. destruct (Rle_dec 0 speedAlong); lra. }
    assert (Hcf : (0 < (speed - forwardMax) * 0.32)%R) by nra.
    eexists. rewrite E. simpl. split; [reflexivity|]. split; [reflexivity|].
    assert (Hdot : Drive.dot (Drive.scale
                                (- ((speed - forwardMax) * 0.32) / speed)%R vel)
                             vel
                   = (- ((speed - forwardMax) * 0.32) * speed)%R).
    { transitivity ((- ((speed - forwardMax) * 0.32) / speed)
                    * Drive.dot vel vel)%R.
      - unfold Drive.dot, Drive.scale. simpl. ring.
      - rewrite <- length_sqr. fold speed. field. lra. }
    split; [|split; [exact Hdot|rewrite Hdot; nra]].
    rewrite length_scale. fold speed.
    rewrite Rabs_left.
    + field. lra.
    + apply Rmult_neg_pos; [lra | apply Rinv_0_lt_compat; lra].
  - intros Hin.
    rewrite (speedClampImpulse_within vel speedAlong Hin). reflexivity.
Qed.

Section ThrottleSample.
Import Drive.
Local Open Scope R_scope.

Let rb0 : Body :=
  mkBody (mkQuat 0 0 0 1) (mkVec 0 0 (-12)) (mkVec 0 0 0) (1 / 2)
         (fun t => t).

Lemma sample_speed : length (mkVec 0 0 (-12)) = 12.
Proof.
  unfold length. simpl.
  replace (0 * 0 + 0 * 0 + -12 * -12) with (12 * 12) by lra.
  apply sqrt_square. lra.
Qed.

Lemma normalize_axis (a : Vec) (l : R) :
  0 < l -> x a * x a + y a * y a + z a * z a = l * l ->
  normalize a = mkVec (x a / l) (y a / l) (z a / l).
Proof.
  intros Hl Hsq.
  assert (E : length a = l).
  { unfold length. rewrite Hsq. apply sqrt_square. lra. }
  rewrite normalize_nonzero by lra. rewrite E.
  apply vec_eq; simpl; field; lra.
Qed.

Lemma sample_forward : forwardOf rb0 = mkVec 0 0 (-1).
Proof.
  unfold forwardOf.
  replace (applyQuaternion (rotation rb0) (mkVec 0 0 (-1)))
    with (mkVec 0 0 (-1)) by (apply vec_eq; simpl; lra).
  rewrite (normalize_axis _ 1) by (simpl; lra).
  apply vec_eq; simpl; lra.
Qed.

Lemma sample_right : rightOf rb0 = mkVec 1 0 0.
Proof.
  unfold rightOf.
  replace (applyQuaternion (rotation rb0) (mkVec 1 0 0))
    with (mkVec 1 0 0) by (apply vec_eq; simpl; lra).
  rewrite (normalize_axis _ 1) by (simpl; lra).
  apply vec_eq; simpl; lra.
Qed.

Lemma sample_axes : axes (1 / 60) sampleThrottle = (0, 1).
Proof.
  unfold axes, rawAxes, approach. simpl.
  destruct (Req_dec_T 0 0) as [_|H]; [|lra]. simpl.
  destruct (Rlt_dec (Rabs 0) 0.06) as [_|H];
    [|rewrite Rabs_R0 in H; lra].
  destruct (Rlt_dec (Rabs 1) 0.06) as [H|_];
    [rewrite Rabs_R1 in H; lra|].
  replace (0 - 0) with 0 by lra. replace (1 - 1) with 0 by lra.
  rewrite Rabs_R0.
  destruct (Rle_dec 0 (6.0 * (1 / 60))) as [_|H]; [reflexivity | lra].
Qed.

Lemma sample_side :
  sideImpulse (1 / 60) (mkVec 0 0 (-12)) (mkVec 1 0 0) 1 = None.
Proof.
  unfold sideImpulse, dot. simpl.
  replace (0 * 1 + 0 * 0 + -12 * 0) with 0 by lra. rewrite Rabs_R0.
  destruct (Rlt_dec 0.02 0); [lra | reflexivity].
Qed.

Lemma sample_down :
  downVec (1 / 60) true (mkVec 0 0 (-12)) = mkVec 0 (- 3.36 * (1 / 60)) 0.
Proof.
  unfold downVec, clamp. rewrite sample_speed.
  rewrite Rmin_right by lra. rewrite Rmax_right by lra.
  apply vec_eq; simpl; lra.
Qed.

Lemma sample_clamp :
  speedClampImpulse (mkVec 0 0 (-12)) 12 = Some (mkVec 0 0 0.32).
Proof.
  rewrite speedClampImpulse_over.
  - rewrite sample_speed.
    destruct (Rle_dec 0 12); [|lra].
    f_equal. unfold maxSpeed, speedClamp. apply vec_eq; simpl; lra.
  - rewrite sample_speed. destruct (Rle_dec 0 12); unfold maxSpeed; lra.
Qed.

(** The linear velocity the sample has after the force application. *)
Lemma sample_after :
  option_map linvel (body (applyPlayerForces (1 / 60) sampleThrottle))
  = Some (mkVec 0 (- 0.028) (- 14.24)).
Proof.
  rewrite (applyPlayerForces_body (1 / 60) sampleThrottle rb0 eq_refl).
  cbn [option_map].
  pose proof (applyIf_linvel
                (speedClampImpulse (linvel rb0)
                                   (dot (linvel rb0) (forwardOf rb0)))
                (beforeClamp (1 / 60) sampleThrottle rb0)) as [Elin _].
  rewrite Elin. clear Elin.
  assert (Epre : linvel (beforeClamp (1 / 60) sampleThrottle rb0)
                 = mkVec 0 (- 0.028) (- 14.4)
                 /\ invMass (beforeClamp (1 / 60) sampleThrottle rb0)
                    = 1 / 2).
  { unfold beforeClamp. rewrite sample_axes.
    match goal with
    | |- linvel (stabilise ?b) = _ /\ _ =>
        destruct (stabilise_linvel b) as [-> ->]
    end.
    rewrite sample_forward, sample_right. simpl.
    rewrite sample_side, sample_down. simpl.
    split; [|reflexivity].
    apply vec_eq; simpl; unfold engineImpulse; lra. }
  destruct Epre as [-> ->].
  rewrite sample_forward.
  replace (dot (linvel rb0) (mkVec 0 0 (-1))) with 12
    by (unfold dot; simpl; lra).
  change (linvel rb0) with (mkVec 0 0 (-12)).
  rewrite sample_clamp. f_equal.
  apply vec_eq; simpl; lra.
Qed.

End ThrottleSample.

(** C8 as stated fails: with the throttle held, a body moving at speed 12
    (more than 11.0 + 0.35) leaves the force application of the step faster
    than it entered it, at about 14.24: the engine impulse of the same step
    outweighs the clamp impulse. *)
Lemma C8_throttle_outruns_clamp :
  Drive.speedOf Drive.sampleThrottle = Some 12%R
  /\ (Drive.maxSpeed + 0.35 < 12)%R
  /\ exists after,
      Drive.speedOf (Drive.applyPlayerForces (1 / 60) Drive.sampleThrottle)
      = Some after
      /\ (12 < after)%R.
Proof.
  split; [|split].
  - unfold Drive.speedOf. simpl. rewrite sample_speed. reflexivity.
  - unfold Drive.maxSpeed. lra.
  - pose proof sample_after as H.
    unfold Drive.speedOf.
    destruct (Drive.body
                (Drive.applyPlayerForces (1 / 60) Drive.sampleThrottle))
      as [b|]; [|discriminate].
    simpl in H. injection H as H. simpl. rewrite H.
    eexists. split; [reflexivity|].
    unfold Drive.length. simpl.
    rewrite <- (sqrt_square 12) at 1 by lra.
    apply sqrt_lt_1_alt. lra.
Qed.

Lemma C8_speed_clamp_impulse_witness :
  exists j,
    Drive.body (Drive.applyPlayerForces (1 / 60) Drive.sampleThrottle)
    = Some (Drive.applyImpulse j
              (Drive.beforeClamp (1 / 60) Drive.sampleThrottle
                 (Drive.mkBody (Drive.mkQuat 0 0 0 1) (Drive.mkVec 0 0 (-12))
                               (Drive.mkVec 0 0 0) (1 / 2) (fun t => t))))
    /\ (Drive.dot j (Drive.mkVec 0 0 (-12)) < 0)%R.
Proof.
  destruct (C8_speed_clamp_impulse (1 / 60) Drive.sampleThrottle
              (Drive.mkBody (Drive.mkQuat 0 0 0 1) (Drive.mkVec 0 0 (-12))
                            (Drive.mkVec 0 0 0) (1 / 2) (fun t => t))
              eq_refl) as [Hover _].
  destruct Hover as (j & Hbody & _ & _ & _ & Hneg).
  - simpl. rewrite sample_speed.
    destruct (Rle_dec 0 _); lra.
  - exists j. split; [exact Hbody | exact Hneg].
Defined.

(** * Further properties of the code *)

(** ** The fixed-step loop never needs its cap *)

Section SchedulerMore.
Import Scheduler.



End SchedulerMore.



(** ** What the interpolation pair always satisfies *)

Section SelectionMore.
Import Replica.

Lemma prune_length (offset renderTime : Q) (buf : list Snapshot) :
  (Nat.min 2 (length buf) <= length (prune offset renderTime buf))%nat.
Proof.
  induction buf as [|s buf IH]; [simpl; lia|].
  destruct buf as [|s1 [|s2 rest]]; try (simpl; lia).
  change (prune offset renderTime (s :: s1 :: s2 :: rest))
    with (if Qle_bool (snapshotClientTime offset s1) renderTime
          then prune offset renderTime (s1 :: s2 :: rest)
          else s :: s1 :: s2 :: rest).
  destruct (Qle_bool (snapshotClientTime offset s1) renderTime).
  - simpl in IH |- *. lia.
  - simpl. lia.
Qed.

Lemma keySorted_suffix (pre l : list Snapshot) :
  keySorted (pre ++ l) -> keySorted l.
Proof.
  unfold keySorted. induction pre as [|x pre IH]; simpl; [tauto|].
  intros H. inversion H; subst. apply IH. assumption.
Qed.

Lemma keySorted_head_least (x : Snapshot) (l : list Snapshot) (y : Snapshot) :
  keySorted (x :: l) -> In y (x :: l) -> sortKey x <= sortKey y.
Proof.
  unfold keySorted. intros H Hin. inversion H as [|? ? _ Hall]; subst.
  destruct Hin as [<-|Hin]; [apply Qle_refl|].
  rewrite List.Forall_forall in Hall. apply Hall. exact Hin.
Qed.

Lemma clamp_unit (v : Q) : 0 <= JsNum.clamp v 0 1 /\ JsNum.clamp v 0 1 <= 1.
Proof.
  unfold JsNum.clamp. split.
  - apply Q.le_max_l.
  - apply Q.max_lub; [lra | apply Q.le_min_l].
Qed.

End SelectionMore.

(** Whatever the buffer and the clock, when [applySnapshotInterpolation]
    selects a pair: the factor lies in [0, 1]; the buffer it leaves is a tail
    of the sorted buffer and still holds two entries if the buffer held two
    or more (one if it held one); and [prev] is never later than [next]. *)
Theorem interpolation_pair_sound (now : Q) (net : Replica.Network) :
  match Replica.applySnapshotInterpolation now net with
  | None => Replica.snapshotBuffer net = []
  | Some sel =>
      0 <= Replica.alpha sel /\ Replica.alpha sel <= 1
      /\ (exists shifted,
             Replica.sortByTime (Replica.snapshotBuffer net)
             = shifted ++ Replica.kept sel)
      /\ (Nat.min 2 (length (Replica.snapshotBuffer net))
          <= length (Replica.kept sel))%nat
      /\ In (Replica.prev sel) (Replica.kept sel)
      /\ In (Replica.next sel) (Replica.kept sel)
      /\ Replica.snapshotClientTime (Replica.serverTimeOffset net)
                                    (Replica.prev sel)
         <= Replica.snapshotClientTime (Replica.serverTimeOffset net)
                                       (Replica.next sel)
  end.
Proof.
  unfold Replica.applySnapshotInterpolation.
  destruct (Replica.snapshotBuffer net) as [|s0 buf0] eqn:Ebuf;
    [reflexivity|].
  set (off := Replica.serverTimeOffset net).
  set (rt := now - Replica.snapshotDelay net * 1000).
  pose proof (prune_suffix off rt (Replica.sortByTime (s0 :: buf0)))
    as [shifted Hsuf].
  pose proof (prune_length off rt (Replica.sortByTime (s0 :: buf0))) as Hlen.
  rewrite sortByTime_length in Hlen.
  pose proof (sortByTime_sorted (s0 :: buf0)) as Hsorted.
  rewrite Hsuf in Hsorted. apply keySorted_suffix in Hsorted.
  destruct (Replica.prune off rt (Replica.sortByTime (s0 :: buf0)))
    as [|first rest] eqn:Ekept; [simpl in Hlen; lia|].
  cbn [Replica.kept Replica.prev Replica.next Replica.alpha].
  assert (Hnext : In (match find (Replica.due off rt) (first :: rest) with
                      | Some s => s
                      | None => List.last (first :: rest) first
                      end) (first :: rest)).
  { destruct (find (Replica.due off rt) (first :: rest)) as [x|] eqn:Ef.
    - apply find_some in Ef. apply Ef.
    - rewrite (app_removelast_last first (l := first :: rest)) at 2
        by discriminate.
      apply in_or_app. right. left. reflexivity. }
  split; [apply clamp_unit|]. split; [apply clamp_unit|].
  split; [exists shifted; exact Hsuf|]. split; [exact Hlen|].
  split; [left; reflexivity|]. split; [exact Hnext|].
  unfold Replica.snapshotClientTime.
  pose proof (keySorted_head_least first rest _ Hsorted Hnext). lra.
Qed.

Lemma receiveSnapshot_length_exact (snap : Replica.Snapshot)
      (buf : list Replica.Snapshot) :
  (length buf <= 90)%nat ->
  length (Replica.receiveSnapshot snap buf) = Nat.min 90 (length buf + 1).
Proof.
  intros H. unfold Replica.receiveSnapshot.
  pose proof (sortByTime_length (buf ++ [snap])) as Hl.
  rewrite length_app in Hl. simpl in Hl.
  destruct (Nat.ltb_spec 90 (length (Replica.sortByTime (buf ++ [snap]))))
    as [L|L].
  - destruct (Replica.sortByTime (buf ++ [snap])) as [|x l];
      cbn [length tl] in *; lia.
  - lia.
Qed.

Lemma receiveAll_length_exact (snaps : list Replica.Snapshot) :
  forall buf,
    (length buf <= 90)%nat ->
    length (Replica.receiveAll snaps buf)
    = Nat.min 90 (length buf + length snaps).
Proof.
  induction snaps as [|s snaps IH]; intros buf H.
  - cbn [Replica.receiveAll fold_left length]. lia.
  - change (Replica.receiveAll (s :: snaps) buf)
      with (Replica.receiveAll snaps (Replica.receiveSnapshot s buf)).
    rewrite IH by (apply receiveSnapshot_length, H).
    rewrite receiveSnapshot_length_exact by exact H.
    cbn [length]. lia.
Qed.

(** The buffer holds received snapshots only, each at most as often as it
    was received, and none is dropped before the bound is reached: the
    buffer and what was evicted are, together, a rearrangement of the
    messages received, and the buffer holds [min 90 n] of the [n] messages. *)
Theorem buffer_holds_received (snaps : list Replica.Snapshot) :
  length (Replica.receiveAll snaps []) = Nat.min 90 (length snaps)
  /\ exists evicted,
      Permutation (evicted ++ Replica.receiveAll snaps []) snaps.
Proof.
  split.
  - rewrite receiveAll_length_exact by (simpl; lia). reflexivity.
  - destruct (receiveAll_kept snaps []) as [evicted Hperm].
    exists evicted. exact Hperm.
Qed.

(** ** Sessions of the host *)

Section HostMore.
Import Host HostRun.

Lemma set_keys_known (id : string) (c : Client) (cs : list (string * Client)) :
  In id (map fst cs) -> map fst (set id c cs) = map fst cs.
Proof.
  induction cs as [|[k c0] cs IH]; simpl; [contradiction|].
  intros Hin. destruct (String.eqb_spec k id) as [->|Hne]; [reflexivity|].
  simpl. f_equal. apply IH. destruct Hin; [contradiction | assumption].
Qed.

Lemma set_keys_new (id : string) (c : Client) (cs : list (string * Client)) :
  ~ In id (map fst cs) -> set id c cs = cs ++ [(id, c)].
Proof.
  induction cs as [|[k c0] cs IH]; simpl; [reflexivity|].
  intros Hnot. destruct (String.eqb_spec k id) as [->|Hne]; [tauto|].
  f_equal. apply IH. tauto.
Qed.

Lemma get_None_keys (id : string) (cs : list (string * Client)) :
  get id cs = None <-> ~ In id (map fst cs).
Proof.
  induction cs as [|[k c0] cs IH]; simpl; [tauto|].
  destruct (String.eqb_spec k id) as [->|Hne].
  - split; [discriminate | tauto].
  - rewrite IH. tauto.
Qed.

Lemma set_wellKeyed (id : string) (c : Client) (cs : list (string * Client)) :
  ws c = Some id -> wellKeyed cs -> wellKeyed (set id c cs).
Proof.
  intros Hws [Hnd Hall]. unfold wellKeyed.
  destruct (in_dec String.string_dec id (map fst cs)) as [Hin|Hnot].
  - rewrite set_keys_known by exact Hin. split; [exact Hnd|].
    clear Hnd Hin. induction cs as [|[k c0] cs IH]; simpl.
    + constructor; [exact Hws | constructor].
    + inversion Hall as [|? ? H1 H2]; subst.
      destruct (String.eqb_spec k id) as [->|Hne].
      * constructor; assumption.
      * constructor; [exact H1 | apply IH; exact H2].
  - rewrite set_keys_new by exact Hnot. split.
    + rewrite map_app. simpl.
      apply (Permutation_NoDup (l := id :: map fst cs)).
      * apply Permutation_cons_append.
      * constructor; assumption.
    + apply Forall_app. split; [exact Hall|].
      constructor; [exact Hws | constructor].
Qed.

Lemma set_keys_incl (id : string) (c : Client) (cs : list (string * Client))
      (k : string) :
  In k (map fst (set id c cs)) -> k = id \/ In k (map fst cs).
Proof.
  destruct (in_dec String.string_dec id (map fst cs)) as [Hin|Hnot].
  - rewrite set_keys_known by exact Hin. tauto.
  - rewrite set_keys_new by exact Hnot. rewrite map_app, in_app_iff. simpl.
    intros [H|[H|[]]]; [right; exact H | left; congruence].
Qed.

Lemma del_keys_incl (id : string) (cs : list (string * Client)) (k : string) :
  In k (map fst (del id cs)) -> In k (map fst cs).
Proof.
  unfold del. intros Hin. apply in_map_iff in Hin.
  destruct Hin as (kc & <- & Hin). apply filter_In in Hin.
  apply in_map. apply Hin.
Qed.

(** [removePlayer] only ever shrinks the table. *)
Lemma removePlayer_table (id : string) (st : State) :
  (wellKeyed (clients st) -> wellKeyed (clients (removePlayer id st)))
  /\ (forall k, In k (map fst (clients (removePlayer id st))) ->
                In k (map fst (clients st))).
Proof.
  unfold removePlayer. destruct (get id (clients st)); simpl.
  - split; [apply del_wellKeyed | apply del_keys_incl].
  - tauto.
Qed.

Lemma sweepOne_table (now : Z) (kc : string * Client) (st : State) :
  (wellKeyed (clients st) -> wellKeyed (clients (sweepOne now kc st)))
  /\ (forall k, In k (map fst (clients (sweepOne now kc st))) ->
                In k (map fst (clients st))).
Proof.
  destruct kc as [id c]. unfold sweepOne.
  destruct (socketOpen st c); simpl; [|tauto].
  destruct (ws c) as [sock|]; [|tauto].
  destruct (HEARTBEAT_MS * 2 <? now - lastSeen c)%Z; simpl; [|tauto].
  apply (removePlayer_table id (terminate sock st)).
Qed.

Lemma sweep_table (now : Z) (l : list (string * Client)) :
  forall st,
    (wellKeyed (clients st) ->
     wellKeyed (clients (fold_left (fun s kc => sweepOne now kc s) l st)))
    /\ (forall k,
          In k (map fst (clients
                           (fold_left (fun s kc => sweepOne now kc s) l st))) ->
          In k (map fst (clients st))).
Proof.
  induction l as [|kc l IH]; intros st; simpl; [tauto|].
  destruct (IH (sweepOne now kc st)) as [H1 H2].
  destruct (sweepOne_table now kc st) as [H3 H4].
  split; [tauto|]. intros k Hk. apply H4, H2, Hk.
Qed.

Lemma heartbeat_table (now : Z) (st : State) :
  (wellKeyed (clients st) -> wellKeyed (clients (heartbeat now st)))
  /\ (forall k, In k (map fst (clients (heartbeat now st))) ->
                In k (map fst (clients st))).
Proof. apply sweep_table. Qed.

Lemma spawnPlayer_clients (id : string) (colorIdx : nat) (now : Z)
      (st : State) :
  clients (spawnPlayer id colorIdx now st)
  = set id (mkClient None colorIdx (nextBody (world st))
                     (nextCollider (world st)) (mkInput 0 0 false) 0 now)
        (clients st).
Proof. reflexivity. Qed.

Lemma handleConnection_clients (id : string) (now : Z) (st : State) :
  clients (handleConnection id now st)
  = set id (mkClient (Some id) (length (clients st) mod 8)
                     (nextBody (world st)) (nextCollider (world st))
                     (mkInput 0 0 false) 0 now)
        (set id (mkClient None (length (clients st) mod 8)
                          (nextBody (world st)) (nextCollider (world st))
                          (mkInput 0 0 false) 0 now)
             (clients st)).
Proof.
  unfold handleConnection. cbn [clients broadcast].
  rewrite spawnPlayer_clients, get_set_eq. reflexivity.
Qed.

Lemma set_set (id : string) (c1 c2 : Client) (cs : list (string * Client)) :
  set id c2 (set id c1 cs) = set id c2 cs.
Proof.
  induction cs as [|[k c0] cs IH]; simpl.
  - rewrite String.eqb_refl. reflexivity.
  - destruct (String.eqb k id) eqn:E; simpl; rewrite E; [reflexivity|].
    f_equal. exact IH.
Qed.

Lemma step_table (e : Event) (st : State) :
  (wellKeyed (clients st) -> wellKeyed (clients (step e st)))
  /\ (forall k, In k (map fst (clients (step e st))) ->
                In k (connectIds [e]) \/ In k (map fst (clients st))).
Proof.
  destruct e as [id now | id data now | id | now]; cbn [step connectIds].
  - rewrite handleConnection_clients, set_set. split.
    + apply set_wellKeyed. reflexivity.
    + intros k Hk. apply set_keys_incl in Hk.
      destruct Hk as [->|Hk]; [left; left; reflexivity | right; exact Hk].
  - unfold onMessage. destruct data; try tauto.
    destruct (get id (clients st)) as [client|] eqn:Eg; [|tauto]. simpl.
    split.
    + intros Hwk. apply set_wellKeyed; [|exact Hwk]. simpl.
      destruct Hwk as [_ Hall]. rewrite List.Forall_forall in Hall.
      assert (Hin : In id (map fst (clients st))).
      { destruct (in_dec String.string_dec id (map fst (clients st))); [assumption|].
        apply get_None_keys in n. congruence. }
      clear - Eg Hall. induction (clients st) as [|[k c0] cs IH];
        simpl in *; [discriminate|].
      destruct (String.eqb_spec k id) as [->|Hne].
      * injection Eg as <-. apply (Hall (id, c0)). left. reflexivity.
      * apply IH; [exact Eg|]. intros x Hx. apply Hall. right. exact Hx.
    + intros k Hk. apply set_keys_incl in Hk. destruct Hk as [->|Hk]; [|tauto].
      right. destruct (in_dec String.string_dec id (map fst (clients st)));
        [assumption|]. apply get_None_keys in n. congruence.
  - unfold onClose. cbn [clients broadcast].
    match goal with
    | |- context [removePlayer id ?s] =>
        destruct (removePlayer_table id s) as [H1 H2]
    end.
    split; [exact H1|]. intros k Hk. right. apply H2, Hk.
  - destruct (heartbeat_table now st) as [H1 H2].
    split; [exact H1|]. intros k Hk. right. apply H2, Hk.
Qed.

Lemma run_wellKeyed (es : list Event) :
  forall st,
    wellKeyed (clients st) -> wellKeyed (clients (run es st)).
Proof.
  induction es as [|e es IH]; intros st H; simpl; [exact H|].
  apply IH. apply step_table. exact H.
Qed.

End HostMore.

Section HeartbeatMore.
Import Host HostRun.
Variable now : Z.
Variable id : string.
Variable c : Client.





End HeartbeatMore.

Lemma host_table_reach (es : list HostRun.Event) :
  Host.wellKeyed (Host.clients (HostRun.run es Host.emptyState)).
Proof. apply run_wellKeyed. split; constructor. Qed.

(** In every state the host can reach, the session table has no repeated
    id, every entry's socket is the connection of its id, and every id in
    the table was drawn for some connection. *)
Theorem host_table_invariant (es : list HostRun.Event) :
  Host.wellKeyed (Host.clients (HostRun.run es Host.emptyState))
  /\ forall k,
      In k (map fst (Host.clients (HostRun.run es Host.emptyState))) ->
      In k (HostRun.connectIds es).
Proof.
  split.
  - apply run_wellKeyed. split; constructor.
  - assert (H : forall st k,
               In k (map fst (Host.clients (HostRun.run es st))) ->
               In k (HostRun.connectIds es)
               \/ In k (map fst (Host.clients st))).
    { induction es as [|e es' IH]; intros st k Hk; simpl in *; [tauto|].
      apply IH in Hk. destruct Hk as [Hk|Hk].
      - left. destruct e; simpl; tauto.
      - apply step_table in Hk. destruct e; simpl in *; tauto. }
    intros k Hk. apply H in Hk. simpl in Hk. tauto.
Qed.

(** Removing a player twice is removing it once; removing an unknown id
    changes nothing; after a removal the id has no entry and the entry's
    body is out of the world. *)
Theorem removePlayer_idempotent (id : string) (st : Host.State) :
  Host.removePlayer id (Host.removePlayer id st) = Host.removePlayer id st
  /\ Host.get id (Host.clients (Host.removePlayer id st)) = None
  /\ match Host.get id (Host.clients st) with
     | Some e =>
         Host.getRigidBody (Host.world (Host.removePlayer id st))
                           (Host.bodyHandle e) = None
     | None => Host.removePlayer id st = st
     end.
Proof.
  assert (Hgone : Host.get id (Host.clients (Host.removePlayer id st)) = None).
  { unfold Host.removePlayer.
    destruct (Host.get id (Host.clients st)) eqn:E; simpl;
      [apply get_del_eq | exact E]. }
  split; [|split; [exact Hgone|]].
  - unfold Host.removePlayer at 1. rewrite Hgone. reflexivity.
  - unfold Host.removePlayer.
    destruct (Host.get id (Host.clients st)) as [e|]; [|reflexivity].
    simpl. unfold Host.getRigidBody.
    destruct (Host.bodies (Host.world st) !! Host.bodyHandle e) eqn:E; simpl.
    + apply lookup_delete_eq.
    + exact E.
Qed.

(** In every state the host can reach, the heartbeat sweep removes each
    session that is silent for more than two intervals and whose socket is
    open: its entry and its body are gone and its socket is closing. *)
Theorem stale_session_swept
  (es : list HostRun.Event) (now : Z) (id : string) (c : Host.Client) :
  let st := HostRun.run es Host.emptyState in
  In (id, c) (Host.clients st) ->
  Host.sockets st !! id = Some Host.OPEN ->
  (Host.HEARTBEAT_MS * 2 < now - Host.lastSeen c)%Z ->
  Host.sweptOut id (Host.bodyHandle c) (Host.heartbeat now st).
Proof.
  intros st Hin Hsock Hstale.
  apply heartbeat_removes_stale; try assumption.
  apply host_table_reach.
Qed.

Lemma stale_session_swept_witness :
  Host.sweptOut "c" 2
    (Host.heartbeat 60000
       (HostRun.run (firstn 4 HostRun.sampleRun) Host.emptyState)).
Proof.
  apply (stale_session_swept (firstn 4 HostRun.sampleRun) 60000 "c"
           (Host.mkClient (Some "c") 2 2 2 (Host.mkInput 0 0 false) 0 21000)).
  - vm_compute. right. right. left. reflexivity.
  - vm_compute. reflexivity.
  - vm_compute. reflexivity.
Defined.



Section ConnectionMore.
Import Host HostRun.

Lemma welcome_list (id : string) (w : World) (cs : list (string * Client)) :
  Forall (fun kc => fst kc <> id) cs ->
  flat_map (fun kc =>
              if String.eqb (fst kc) id then []
              else match getRigidBody w (bodyHandle (snd kc)) with
                   | Some _ => [fst kc]
                   | None => []
                   end) cs
  = map fst (List.filter (bodied w) cs).
Proof.
  induction 1 as [|[k c0] cs Hne _ IH]; simpl; [reflexivity|].
  simpl in Hne. apply String.eqb_neq in Hne. rewrite Hne, IH.
  unfold bodied. simpl.
  destruct (getRigidBody w (bodyHandle c0)); reflexivity.
Qed.

Lemma joined_list (id : string) (m : Msg) (st st2 : State)
      (cs : list (string * Client)) :
  Forall (fun kc => fst kc <> id) cs ->
  Forall (fun kc => ws (snd kc) = Some (fst kc)) cs ->
  (forall k, k <> id -> sockets st2 !! k = sockets st !! k) ->
  flat_map (fun kc =>
              if String.eqb (fst kc) id then []
              else if socketOpen st2 (snd kc)
                   then match ws (snd kc) with
                        | Some sock => [Send sock m]
                        | None => []
                        end
                   else []) cs
  = map (fun kc => Send (fst kc) m)
        (List.filter (fun kc => socketOpen st (snd kc)) cs).
Proof.
  intros Hne Hws Hsock.
  induction cs as [|[k c0] cs IH]; simpl; [reflexivity|].
  inversion Hne as [|? ? Hk Hne']; subst.
  inversion Hws as [|? ? Hw Hws']; subst. simpl in Hk, Hw.
  rewrite (IH Hne' Hws').
  apply String.eqb_neq in Hk. rewrite Hk.
  assert (E : socketOpen st2 c0 = socketOpen st c0).
  { unfold socketOpen. rewrite Hw, Hsock; [reflexivity|].
    apply String.eqb_neq. exact Hk. }
  rewrite E, Hw. destruct (socketOpen st c0); reflexivity.
Qed.

Lemma fresh_keys (id : string) (cs : list (string * Client)) :
  get id cs = None -> Forall (fun kc => fst kc <> id) cs.
Proof.
  intros H. apply get_None_keys in H. apply List.Forall_forall.
  intros kc Hin Heq. apply H. rewrite <- Heq. apply in_map. exact Hin.
Qed.

End ConnectionMore.

(** What a connection makes the host send, when the id drawn is new to the
    table: one [welcome] to the newcomer, listing in table order exactly the
    sessions already there whose body exists (never the newcomer itself),
    and then one [player-joined] to each session already there whose socket
    is open; nothing else. *)
Theorem connection_messages (id : string) (now : Z) (st : Host.State) :
  Host.wellKeyed (Host.clients st) ->
  Host.get id (Host.clients st) = None ->
  let st' := Host.handleConnection id now st in
  Host.effects st'
  = Host.effects st
    ++ Host.Send id
         (Host.Welcome id
            (map fst (List.filter (HostRun.bodied (Host.world st'))
                                  (Host.clients st))))
       :: map (fun kc => Host.Send (fst kc) (Host.PlayerJoined id))
              (List.filter (fun kc => Host.socketOpen st (snd kc))
                           (Host.clients st)).
Proof.
  intros [Hnd Hws] Hnew st'. subst st'.
  pose proof (fresh_keys id _ Hnew) as Hne.
  pose proof (proj1 (get_None_keys id _) Hnew) as Hnot.
  unfold Host.handleConnection.
  rewrite spawnPlayer_clients, get_set_eq.
  cbn [Host.colorId Host.bodyHandle Host.colliderHandle Host.lastInput
       Host.lastSeq].
  rewrite set_set, set_keys_new by exact Hnot.
  unfold Host.broadcast.
  cbn [Host.effects Host.clients Host.world Host.sockets].
  rewrite !flat_map_app. cbn [flat_map fst snd].
  rewrite String.eqb_refl, !app_nil_r.
  rewrite (welcome_list id _ _ Hne).
  rewrite (joined_list id _ st _ _ Hne Hws).
  - unfold Host.spawnPlayer. cbn [Host.effects Host.world].
    rewrite <- app_assoc. reflexivity.
  - intros k Hk. cbn [Host.sockets].
    rewrite lookup_insert_ne by congruence. reflexivity.
Qed.

Lemma connection_messages_witness :
  Host.effects (Host.handleConnection "c" 21000
                  (Host.handleConnection "b" 20000
                     (Host.handleConnection "a" 0 Host.emptyState)))
  = Host.effects (Host.handleConnection "b" 20000
                    (Host.handleConnection "a" 0 Host.emptyState))
    ++ [ Host.Send "c" (Host.Welcome "c" ["a"; "b"]);
         Host.Send "a" (Host.PlayerJoined "c");
         Host.Send "b" (Host.PlayerJoined "c") ].
Proof.
  rewrite (connection_messages "c" 21000
             (Host.handleConnection "b" 20000
                (Host.handleConnection "a" 0 Host.emptyState))).
  - reflexivity.
  - apply (host_table_reach [HostRun.Connect "a" 0; HostRun.Connect "b" 20000]).
  - reflexivity.
Defined.

(** ** Snapshots *)

(** A snapshot never carries a fixed prop: its prop records are exactly the
    records of the dynamic props whose body exists, each with the body's
    current position, rotation and velocities. *)
Theorem snapshot_props_dynamic
  (tick now : Z) (props : list Host.PropEntry) (st : Host.State)
  (rec : Replica.EntityState) :
  In rec (HostSnap.pprops (HostSnap.buildSnapshot tick now props st))
  <-> exists prop body,
      In prop props
      /\ Host.dynamic prop = true
      /\ Host.getRigidBody (Host.world st) (Host.propBody prop) = Some body
      /\ rec = HostSnap.entityRecord (Host.propId prop) body.
Proof.
  unfold HostSnap.buildSnapshot. cbn [HostSnap.pprops].
  rewrite in_flat_map. split.
  - intros (prop & Hin & Hrec). exists prop.
    unfold HostSnap.propSnapshot in Hrec.
    destruct (Host.dynamic prop); simpl in Hrec; [|contradiction].
    destruct (Host.getRigidBody (Host.world st) (Host.propBody prop))
      as [body|]; [|contradiction].
    exists body. destruct Hrec as [<-|[]]. repeat split; assumption.
  - intros (prop & body & Hin & Hdyn & Hbody & ->).
    exists prop. split; [exact Hin|].
    unfold HostSnap.propSnapshot. rewrite Hdyn, Hbody. left. reflexivity.
Qed.

Lemma players_of_table (st : Host.State) (l : list (string * Host.Client)) :
  (forall kc, In kc l ->
              Host.get (fst kc) (Host.clients st) = Some (snd kc)) ->
  map Replica.eid
      (flat_map (fun kc => match HostSnap.playerSnapshot (fst kc) st with
                           | Some snap => [snap]
                           | None => []
                           end) l)
  = map fst (List.filter (HostRun.bodied (Host.world st)) l).
Proof.
  induction l as [|[k c] l IH]; intros H; simpl; [reflexivity|].
  rewrite map_app, IH by (intros kc Hin; apply H; right; exact Hin).
  pose proof (H (k, c) (or_introl eq_refl)) as Hk. simpl in Hk.
  unfold HostSnap.playerSnapshot at 1, HostRun.bodied at 2. rewrite Hk.
  simpl.
  destruct (Host.getRigidBody (Host.world st) (Host.bodyHandle c));
    reflexivity.
Qed.

(** In every state the host can reach, the player records of a snapshot
    are, in table order, those of the sessions whose body exists; a session
    without a body is left out. *)
Theorem snapshot_players_bodied
  (es : list HostRun.Event) (tick now : Z) (props : list Host.PropEntry) :
  let st := HostRun.run es Host.emptyState in
  map Replica.eid (HostSnap.pplayers (HostSnap.buildSnapshot tick now props st))
  = map fst (List.filter (HostRun.bodied (Host.world st)) (Host.clients st)).
Proof.
  intros st. unfold HostSnap.buildSnapshot. cbn [HostSnap.pplayers].
  apply players_of_table. intros [k c] Hin. simpl.
  apply get_In; [|exact Hin]. apply (host_table_reach es).
Qed.

(** What the host measured is what the client shows when it interpolates a
    snapshot record against itself, whatever the factor: each position
    component is the body's. *)
Theorem snapshot_position_round_trip
  (slerp : list Q -> list Q -> Q -> list Q) (id : string) (b : Host.Body)
  (alpha : Q) :
  let rec := HostSnap.entityRecord id b in
  Replica.positionAt slerp rec rec alpha 0%nat == Host.vx (Host.translation b)
  /\ Replica.positionAt slerp rec rec alpha 1%nat
     == Host.vy (Host.translation b)
  /\ Replica.positionAt slerp rec rec alpha 2%nat
     == Host.vz (Host.translation b).
Proof.
  intros rec. subst rec.
  rewrite !positionAt_lerp by lia.
  unfold HostSnap.entityRecord, HostSnap.vectorArray, Replica.comp,
    JsNum.lerp. simpl.
  repeat split; ring.
Qed.

(** ** The client's side of the connection *)

Section ClientNetFacts.
Import ClientNet.

Lemma clamp_range (v a b : Q) :
  a <= b -> a <= JsNum.clamp v a b /\ JsNum.clamp v a b <= b.
Proof.
  intros Hab. unfold JsNum.clamp. split.
  - apply Q.le_max_l.
  - apply Q.max_lub; [exact Hab | apply Q.le_min_l].
Qed.

Lemma sendInput_cases (now : Q) (ax : Axes) (st : Sender) :
  (snd (sendInput now ax st) = None /\ fst (sendInput now ax st) = st)
  \/ exists m,
      snd (sendInput now ax st) = Some m
      /\ fst (sendInput now ax st) = mkSender (socketOpen st) now (seq st + 1)
      /\ mseq m = (seq st + 1)%Z /\ mt m = now
      /\ 33 <= now - lastSend st
      /\ -1 <= msteer m /\ msteer m <= 1
      /\ -1 <= mthrottle m /\ mthrottle m <= 1
      /\ mbrake m = negb (Qle_bool 0 (mthrottle m)).
Proof.
  unfold sendInput. destruct (socketOpen st); simpl; [|left; tauto].
  destruct (Qle_bool 33 (now - lastSend st)) eqn:E; simpl; [|left; tauto].
  right. eexists. split; [reflexivity|]. simpl.
  apply Qle_bool_true in E.
  repeat split; try reflexivity; try exact E;
    apply clamp_range; lra.
Qed.

Lemma applySnapshot_kept (now : Q) (n : Replica.Network) (sel : Replica.Selection) :
  Replica.applySnapshotInterpolation now n = Some sel ->
  Replica.kept sel
  = Replica.prune (Replica.serverTimeOffset n)
                  (now - Replica.snapshotDelay n * 1000)
                  (Replica.sortByTime (Replica.snapshotBuffer n)).
Proof.
  unfold Replica.applySnapshotInterpolation.
  destruct (Replica.snapshotBuffer n); [discriminate|].
  destruct (Replica.prune _ _ _) eqn:E; [discriminate|].
  intros [= <-]. reflexivity.
Qed.

Lemma kept_sorted_bounded (now : Q) (n : Replica.Network)
      (sel : Replica.Selection) :
  Replica.applySnapshotInterpolation now n = Some sel ->
  Replica.keySorted (Replica.kept sel)
  /\ (length (Replica.kept sel) <= length (Replica.snapshotBuffer n))%nat.
Proof.
  intros H. rewrite (applySnapshot_kept now n sel H).
  destruct (prune_suffix (Replica.serverTimeOffset n)
              (now - Replica.snapshotDelay n * 1000)
              (Replica.sortByTime (Replica.snapshotBuffer n))) as [sh E].
  split.
  - apply (keySorted_suffix sh). rewrite <- E. apply sortByTime_sorted.
  - apply (f_equal (@length _)) in E.
    rewrite sortByTime_length, length_app in E. lia.
Qed.

End ClientNetFacts.

(** Whatever the frames, the axes and the state of the socket, the [input]
    messages that [sendInput] sends carry consecutive sequence numbers, are
    at least 33 ms apart, and hold a steer and a throttle in [-1, 1] with
    the brake flag set exactly when the throttle is negative. *)
Theorem sendInput_stream (calls : list ClientNet.SendCall) :
  forall st : ClientNet.Sender,
    ClientNet.numberedFrom (ClientNet.seq st) (ClientNet.sentBy calls st)
    /\ ClientNet.spacedFrom (ClientNet.lastSend st) (ClientNet.sentBy calls st)
    /\ Forall (fun m =>
                 -1 <= ClientNet.msteer m /\ ClientNet.msteer m <= 1
                 /\ -1 <= ClientNet.mthrottle m /\ ClientNet.mthrottle m <= 1
                 /\ (ClientNet.mbrake m = true <-> ClientNet.mthrottle m < 0))
              (ClientNet.sentBy calls st).
Proof.
  induction calls as [|c calls IH]; intros st; simpl;
    [repeat split; constructor|].
  set (st0 := ClientNet.mkSender (ClientNet.isOpen c) (ClientNet.lastSend st)
                                 (ClientNet.seq st)).
  destruct (sendInput_cases (ClientNet.atTime c) (ClientNet.axes c) st0)
    as [[Hout Hst] | (m & Hout & Hst & Hseq & Ht & Hgap & Hs1 & Hs2 & Ht1
                      & Ht2 & Hb)];
    destruct (ClientNet.sendInput (ClientNet.atTime c) (ClientNet.axes c) st0)
      as [st' out]; simpl in Hout, Hst; subst st' out.
  - apply (IH st0).
  - destruct (IH (ClientNet.mkSender (ClientNet.socketOpen st0)
                    (ClientNet.atTime c) (ClientNet.seq st0 + 1)))
      as (Hn & Hsp & Hall).
    simpl in Hn, Hsp, Hseq, Hgap.
    split; [split; [exact Hseq | exact Hn]|].
    split; [split; [rewrite Ht; exact Hgap | rewrite Ht; exact Hsp]|].
    constructor; [|exact Hall].
    repeat split; try assumption.
    + intros Hbt. rewrite Hb in Hbt. apply negb_true_iff in Hbt.
      apply Qle_bool_false. exact Hbt.
    + intros Hlt. rewrite Hb. apply negb_true_iff.
      apply Qle_bool_false. exact Hlt.
Qed.

Example sendInput_sample :
  map (fun m => (ClientNet.mseq m, ClientNet.mt m, ClientNet.mthrottle m,
                 ClientNet.mbrake m))
      (ClientNet.sentBy ClientNet.sampleCalls (ClientNet.mkSender true 0 7))
  = [ (8%Z, 100, -1, true); (9%Z, 160, -1, true); (10%Z, 220, -1, true) ].
Proof. reflexivity. Qed.

(** However timeouts, health checks, openings and closings of the socket,
    messages and frames follow one another, there is never more than one
    reconnect timeout pending: the pending timeouts are exactly the one
    that [reconnectTimer] holds, if it holds one. *)
Theorem reconnect_timer_single (es : list ClientNet.Event) :
  let c := ClientNet.run es ClientNet.initial in
  ClientNet.timers c
  = match ClientNet.reconnectTimer c with
    | Some t => [t]
    | None => []
    end.
Proof.
  cbv zeta.
  assert (H : forall c,
             ClientNet.timers c
             = match ClientNet.reconnectTimer c with
               | Some t => [t]
               | None => []
               end ->
             ClientNet.timers (ClientNet.run es c)
             = match ClientNet.reconnectTimer (ClientNet.run es c) with
               | Some t => [t]
               | None => []
               end).
  { induction es as [|e es IH]; intros c Hc; simpl; [exact Hc|].
    apply IH.
    assert (Hs : forall c0,
               ClientNet.timers c0
               = match ClientNet.reconnectTimer c0 with
                 | Some t => [t]
                 | None => []
                 end ->
               ClientNet.timers (ClientNet.scheduleReconnect
                                   (ClientNet.ensureOfflineWorld c0))
               = match ClientNet.reconnectTimer
                         (ClientNet.scheduleReconnect
                            (ClientNet.ensureOfflineWorld c0)) with
                 | Some t => [t]
                 | None => []
                 end).
    { intros c0 H0. unfold ClientNet.scheduleReconnect,
        ClientNet.ensureOfflineWorld. simpl.
      destruct (ClientNet.reconnectTimer c0); simpl; [exact H0|].
      rewrite H0. reflexivity. }
    destruct e; simpl; try exact Hc; try (apply Hs; exact Hc).
    - destruct (ClientNet.reconnectTimer c) as [t|] eqn:Et;
        rewrite Hc; simpl.
      + destruct (Nat.eqb_spec id t) as [->|Hne]; simpl; rewrite ?Et;
          first [reflexivity | exact Hc].
      + rewrite Et. exact Hc.
    - destruct ok; [exact Hc | apply Hs; exact Hc].
    - destruct (ClientNet.mode c); [|exact Hc].
      destruct (Replica.applySnapshotInterpolation now (ClientNet.net c));
        exact Hc.
    - destruct (negb onlineAttempt && negb (ClientNet.offlineWorldReady c));
        exact Hc. }
  apply H. reflexivity.
Qed.

Section ClientRunFacts.
Import ClientNet.

Lemma run_invariant (P : Client -> Prop) :
  (forall e c, P c -> P (step e c)) ->
  forall es c, P c -> P (run es c).
Proof.
  intros Hstep es. induction es as [|e es IH]; intros c Hc; simpl;
    [exact Hc|].
  apply IH, Hstep, Hc.
Qed.

End ClientRunFacts.

(** Entering the offline mode any number of times spawns the local props
    once: the client holds twenty local props while the offline world is
    marked ready and none otherwise, whatever the order of disconnects,
    failed health checks, welcomes and frames. *)
Theorem offline_world_spawned_once (es : list ClientNet.Event) :
  let c := ClientNet.run es ClientNet.initial in
  ClientNet.clientProps c
  = if ClientNet.offlineWorldReady c then 20%nat else 0%nat.
Proof.
  cbv zeta.
  apply (run_invariant
           (fun c => ClientNet.clientProps c
                     = if ClientNet.offlineWorldReady c then 20%nat
                       else 0%nat)); [|reflexivity].
  assert (He : forall c,
             ClientNet.clientProps c
             = (if ClientNet.offlineWorldReady c then 20%nat else 0%nat) ->
             ClientNet.clientProps (ClientNet.ensureOfflineWorld c) = 20%nat
             /\ ClientNet.offlineWorldReady (ClientNet.ensureOfflineWorld c)
                = true).
  { intros c Hc. unfold ClientNet.ensureOfflineWorld. simpl.
    destruct (ClientNet.offlineWorldReady c); [|split; reflexivity].
    split; [exact Hc | reflexivity]. }
  assert (Hs : forall c,
             ClientNet.clientProps (ClientNet.scheduleReconnect c)
             = ClientNet.clientProps c
             /\ ClientNet.offlineWorldReady (ClientNet.scheduleReconnect c)
                = ClientNet.offlineWorldReady c).
  { intros c. unfold ClientNet.scheduleReconnect.
    destruct (ClientNet.reconnectTimer c); split; reflexivity. }
  intros e c Hc.
  destruct e; simpl; try exact Hc; try reflexivity.
  - destruct (existsb (Nat.eqb id) (ClientNet.timers c)); exact Hc.
  - destruct ok; [exact Hc|].
    destruct (Hs (ClientNet.ensureOfflineWorld c)) as [-> ->].
    destruct (He c Hc) as [-> ->]. reflexivity.
  - destruct (Hs (ClientNet.ensureOfflineWorld c)) as [-> ->].
    destruct (He c Hc) as [-> ->]. reflexivity.
  - destruct (ClientNet.mode c); [|exact Hc].
    destruct (Replica.applySnapshotInterpolation now (ClientNet.net c));
      exact Hc.
  - destruct (negb onlineAttempt && negb (ClientNet.offlineWorldReady c));
      [|exact Hc].
    destruct (He c Hc) as [-> ->]. reflexivity.
Qed.

(** Under any interleaving of snapshot receptions, rendered frames,
    welcomes, disconnects and reconnects, the snapshot buffer stays sorted by
    server time and never holds more than 90 entries. *)
Theorem buffer_invariant (es : list ClientNet.Event) :
  let c := ClientNet.run es ClientNet.initial in
  Replica.keySorted (Replica.snapshotBuffer (ClientNet.net c))
  /\ (length (Replica.snapshotBuffer (ClientNet.net c)) <= 90)%nat.
Proof.
  cbv zeta.
  apply (run_invariant
           (fun c =>
              Replica.keySorted (Replica.snapshotBuffer (ClientNet.net c))
              /\ (length (Replica.snapshotBuffer (ClientNet.net c)) <= 90)%nat)).
  2:{ split; [constructor | simpl; lia]. }
  assert (He : forall c,
             Replica.snapshotBuffer
               (ClientNet.net (ClientNet.scheduleReconnect
                                 (ClientNet.ensureOfflineWorld c))) = []).
  { intros c. unfold ClientNet.scheduleReconnect, ClientNet.ensureOfflineWorld.
    simpl. destruct (ClientNet.reconnectTimer c); reflexivity. }
  intros e c [Hsorted Hlen].
  destruct e; simpl; try (split; assumption).
  - destruct (existsb (Nat.eqb id) (ClientNet.timers c)); split; assumption.
  - destruct ok; [split; assumption|]. rewrite He.
    split; [constructor | simpl; lia].
  - rewrite He. split; [constructor | simpl; lia].
  - split; [constructor | simpl; lia].
  - split; [apply receiveSnapshot_sorted | apply receiveSnapshot_length, Hlen].
  - destruct (ClientNet.mode c); [|split; assumption].
    destruct (Replica.applySnapshotInterpolation now (ClientNet.net c))
      as [sel|] eqn:E; [|split; assumption].
    simpl. destruct (kept_sorted_bounded now _ sel E) as [H1 H2].
    split; [exact H1 | lia].
  - destruct (negb onlineAttempt && negb (ClientNet.offlineWorldReady c));
      [|split; assumption].
    split; [constructor | simpl; lia].
Qed.

(** ** Input smoothing and impulse bounds of the vehicle dynamics *)

Section DriveBounds.
Import Drive.
Local Open Scope R_scope.

Lemma Rabs_bound (a b : R) : Rabs a <= b -> - b <= a <= b.
Proof. unfold Rabs. destruct (Rcase_abs a); lra. Qed.

Lemma sign_cases (v : R) :
  (0 < v /\ sign v = 1) \/ (v < 0 /\ sign v = -1) \/ (v = 0 /\ sign v = 0).
Proof.
  unfold sign. destruct (Rlt_dec 0 v); [left; split; [lra | reflexivity]|].
  destruct (Rlt_dec v 0); [right; left; split; [lra | reflexivity]|].
  right; right; split; [lra | reflexivity].
Qed.

Lemma approach_step (current target maxDelta : R) :
  0 <= maxDelta ->
  Rmin current target <= approach current target maxDelta <= Rmax current target
  /\ Rabs (approach current target maxDelta - current) <= maxDelta
  /\ Rabs (target - approach current target maxDelta) <= Rabs (target - current)
  /\ (Rabs (target - current) <= maxDelta ->
      approach current target maxDelta = target).
Proof.
  intros Hm. unfold approach.
  destruct (Rle_dec (Rabs (target - current)) maxDelta) as [Hle | Hgt].
  - repeat split.
    + unfold Rmin. destruct (Rle_dec current target); lra.
    + unfold Rmax. destruct (Rle_dec current target); lra.
    + exact Hle.
    + replace (target - target) with 0 by ring. rewrite Rabs_R0.
      apply Rabs_pos.
  - assert (Hlt : maxDelta < Rabs (target - current)) by lra.
    destruct (sign_cases (target - current)) as [[Hs ->] | [[Hs ->] | [Hs ->]]].
    + rewrite Rabs_right in Hlt by lra.
      repeat split.
      * unfold Rmin. destruct (Rle_dec current target); lra.
      * unfold Rmax. destruct (Rle_dec current target); lra.
      * replace (current + 1 * maxDelta - current) with maxDelta by ring.
        rewrite Rabs_right; lra.
      * rewrite !Rabs_right; lra.
      * intros H. rewrite Rabs_right in H; lra.
    + rewrite Rabs_left in Hlt by lra.
      repeat split.
      * unfold Rmin. destruct (Rle_dec current target); lra.
      * unfold Rmax. destruct (Rle_dec current target); lra.
      * replace (current + -1 * maxDelta - current) with (- maxDelta) by ring.
        rewrite Rabs_left1; lra.
      * rewrite !Rabs_left; lra.
      * intros H. rewrite Rabs_left in H; lra.
    + rewrite Hs, Rabs_R0 in Hlt. lra.
Qed.

Lemma deadzone_unit (v d : R) :
  Rabs v <= 1 -> Rabs (if Rlt_dec (Rabs v) d then 0 else v) <= 1.
Proof.
  intros H. destruct (Rlt_dec (Rabs v) d); [rewrite Rabs_R0; lra | exact H].
Qed.

Lemma rawAxes_unit (c : Controls) :
  Rabs (joyX c) <= 1 -> Rabs (joyY c) <= 1 ->
  Rabs (keyX c) <= 1 -> Rabs (keyY c) <= 1 ->
  Rabs (fst (rawAxes c)) <= 1 /\ Rabs (snd (rawAxes c)) <= 1.
Proof.
  intros Hjx Hjy Hkx Hky. unfold rawAxes.
  assert (Hny : Rabs (- joyY c) <= 1) by (rewrite Rabs_Ropp; exact Hjy).
  destruct (joyActive c && isCoarsePointer c);
    destruct ((negb (joyActive c) || negb (isCoarsePointer c))
              && (if Req_dec_T (joyX c) 0 then true else false)
              && _);
    simpl; split; apply deadzone_unit; assumption.
Qed.

Lemma approach_unit (current target maxDelta : R) :
  0 <= maxDelta -> Rabs current <= 1 -> Rabs target <= 1 ->
  Rabs (approach current target maxDelta) <= 1.
Proof.
  intros Hm Hc Ht.
  destruct (approach_step current target maxDelta Hm) as [[Hlo Hhi] _].
  apply Rabs_le. apply Rabs_bound in Hc. apply Rabs_bound in Ht.
  unfold Rmin, Rmax in *. destruct (Rle_dec current target); lra.
Qed.

End DriveBounds.

(** The smoothed steering and throttle axes of [applyPlayerForces]: while
    the joystick and the keyboard deliver values in [-1, 1], the smoothed
    axes stay in [-1, 1], each moves by at most [6.0 * dt] per call, never
    past the raw axis it follows, and reaches it exactly once it is within
    [6.0 * dt] of it. *)
Theorem smoothed_axes_bounded (dt : R) (c : Drive.Controls) :
  (0 <= dt)%R ->
  (Rabs (Drive.joyX c) <= 1)%R -> (Rabs (Drive.joyY c) <= 1)%R ->
  (Rabs (Drive.keyX c) <= 1)%R -> (Rabs (Drive.keyY c) <= 1)%R ->
  (Rabs (Drive.inputX c) <= 1)%R -> (Rabs (Drive.inputY c) <= 1)%R ->
  let raw := Drive.rawAxes c in
  let ax := fst (Drive.axes dt c) in
  let ay := snd (Drive.axes dt c) in
  (Rabs ax <= 1 /\ Rabs ay <= 1
   /\ Rabs (ax - Drive.inputX c) <= 6.0 * dt
   /\ Rabs (ay - Drive.inputY c) <= 6.0 * dt
   /\ Rmin (Drive.inputX c) (fst raw) <= ax <= Rmax (Drive.inputX c) (fst raw)
   /\ Rmin (Drive.inputY c) (snd raw) <= ay <= Rmax (Drive.inputY c) (snd raw)
   /\ (Rabs (fst raw - Drive.inputX c) <= 6.0 * dt -> ax = fst raw)
   /\ (Rabs (snd raw - Drive.inputY c) <= 6.0 * dt -> ay = snd raw))%R.
Proof.
  intros Hdt Hjx Hjy Hkx Hky Hix Hiy raw ax ay.
  destruct (rawAxes_unit c Hjx Hjy Hkx Hky) as [Hrx Hry].
  assert (Hm : (0 <= 6.0 * dt)%R) by lra.
  subst raw ax ay. unfold Drive.axes.
  destruct (Drive.rawAxes c) as [ax0 ay0]. simpl in *.
  destruct (approach_step (Drive.inputX c) ax0 _ Hm) as (Bx & Dx & _ & Ex).
  destruct (approach_step (Drive.inputY c) ay0 _ Hm) as (By & Dy & _ & Ey).
  repeat split; try tauto.
  - apply approach_unit; assumption.
  - apply approach_unit; assumption.
Qed.

Lemma smoothed_axes_bounded_witness :
  (Rabs (fst (Drive.axes (1 / 60) Drive.sampleThrottle)) <= 1
   /\ Rabs (snd (Drive.axes (1 / 60) Drive.sampleThrottle)) <= 1)%R.
Proof.
  assert (H0 : (Rabs 0 <= 1)%R) by (rewrite Rabs_R0; lra).
  assert (H1 : (Rabs 1 <= 1)%R) by (rewrite Rabs_R1; lra).
  destruct (smoothed_axes_bounded (1 / 60) Drive.sampleThrottle)
    as (Hx & Hy & _); simpl; try assumption; try lra.
Defined.

(** ** The joystick *)

(** The joystick's axes lie in the unit disc. *)
Lemma handleJoyEvent_disc (left top width height px py : R) :
  (0 < width)%R ->
  let jx := fst (Joystick.handleJoyEvent left top width height px py) in
  let jy := snd (Joystick.handleJoyEvent left top width height px py) in
  (jx * jx + jy * jy <= 1
   /\ -1 <= jx <= 1 /\ -1 <= jy <= 1
   /\ (jx = 0 \/ 0.08 <= Rabs jx)
   /\ (jy = 0 \/ 0.08 <= Rabs jy))%R.
Proof.
  intros Hw jx jy. subst jx jy. unfold Joystick.handleJoyEvent.
  set (dx := (px - (left + width / 2))%R).
  set (dy := (py - (top + height / 2))%R).
  set (r := (width * 0.36)%R).
  assert (Hr : (0 < r)%R) by (unfold r; lra).
  set (len := sqrt (dx * dx + dy * dy)).
  assert (Hlen : (len * len = dx * dx + dy * dy)%R)
    by (apply sqrt_sqrt; nra).
  assert (Hlen0 : (0 <= len)%R) by apply sqrt_pos.
  assert (Hdisc : forall ux uy : R,
             (ux * ux + uy * uy <= 1)%R ->
             let jx := if Rlt_dec (Rabs ux) 0.08 then 0%R else ux in
             let jy := if Rlt_dec (Rabs uy) 0.08 then 0%R else uy in
             (jx * jx + jy * jy <= 1
              /\ -1 <= jx <= 1 /\ -1 <= jy <= 1
              /\ (jx = 0 \/ 0.08 <= Rabs jx)
              /\ (jy = 0 \/ 0.08 <= Rabs jy))%R).
  { intros ux uy Hu jx jy.
    assert (Hsq : (jx * jx + jy * jy <= 1)%R).
    { subst jx jy.
      destruct (Rlt_dec (Rabs ux) 0.08); destruct (Rlt_dec (Rabs uy) 0.08);
        nra. }
    split; [exact Hsq|].
    split; [nra|]. split; [nra|].
    subst jx jy.
    split; [destruct (Rlt_dec (Rabs ux) 0.08) | destruct (Rlt_dec (Rabs uy) 0.08)];
      try (left; reflexivity); right; lra. }
  destruct (Rlt_dec r len) as [Hout | Hin]; cbn [fst snd].
  - assert (Hl : (len <> 0)%R) by lra.
    replace (dx / len * r / r)%R with (dx / len)%R by (field; lra).
    replace (- (dy / len * r) / r)%R with (- dy / len)%R by (field; lra).
    apply Hdisc.
    replace (dx / len * (dx / len) + - dy / len * (- dy / len))%R
      with ((dx * dx + dy * dy) / (len * len))%R by (field; lra).
    rewrite <- Hlen. right. field. lra.
  - apply Hdisc.
    replace (dx / r * (dx / r) + - dy / r * (- dy / r))%R
      with ((len * len) / (r * r))%R by (rewrite Hlen; field; lra).
    assert (Hle : (len * len <= r * r)%R) by nra.
    apply (Rmult_le_reg_r (r * r)); [nra|].
    replace (len * len / (r * r) * (r * r))%R with (len * len)%R
      by (field; lra).
    lra.
Qed.

(** [handleJoyEvent]: for a joystick of positive width, wherever the
    pointer is, the pair ([joyX], [joyY]) lies in the closed unit disc, so
    each axis lies in [-1, 1], and an axis is either 0 or at least the dead
    zone 0.08 in magnitude. *)
Theorem joystick_in_unit_disc (left top width height px py : R) :
  (0 < width)%R ->
  let jx := fst (Joystick.handleJoyEvent left top width height px py) in
  let jy := snd (Joystick.handleJoyEvent left top width height px py) in
  (jx * jx + jy * jy <= 1
   /\ -1 <= jx <= 1 /\ -1 <= jy <= 1
   /\ (jx = 0 \/ 0.08 <= Rabs jx)
   /\ (jy = 0 \/ 0.08 <= Rabs jy))%R.
Proof. apply handleJoyEvent_disc. Qed.

Lemma joystick_in_unit_disc_witness :
  (-1 <= fst (Joystick.handleJoyEvent 0 0 100 100 500 50) <= 1)%R.
Proof.
  destruct (joystick_in_unit_disc 0 0 100 100 500 50) as (_ & Hx & _).
  - lra.
  - exact Hx.
Defined.

(** ** Collision response *)

Section CollideFacts.
Import Drive Collide.
Local Open Scope R_scope.

Lemma invMassOf_dynamic (rb : RBody) :
  isDynamic rb = true -> 0.0001 <= mass rb -> invMassOf rb = 1 / mass rb.
Proof.
  intros Hd Hm. unfold invMassOf. rewrite Hd.
  rewrite Rmax_left by exact Hm. reflexivity.
Qed.

Lemma invMassOf_fixed (rb : RBody) :
  isDynamic rb = false -> invMassOf rb = 0.
Proof. intros Hd. unfold invMassOf. rewrite Hd. reflexivity. Qed.

Lemma invMassOf_nonneg (rb : RBody) : 0 <= invMassOf rb.
Proof.
  unfold invMassOf. destruct (isDynamic rb); [|lra].
  assert (H : 0.0001 <= Rmax (mass rb) 0.0001) by apply Rmax_r.
  apply Rlt_le. apply Rdiv_lt_0_compat; lra.
Qed.

Lemma invMassOf_pos (rb : RBody) : isDynamic rb = true -> 0 < invMassOf rb.
Proof.
  intros Hd. unfold invMassOf. rewrite Hd.
  assert (H : 0.0001 <= Rmax (mass rb) 0.0001) by apply Rmax_r.
  apply Rdiv_lt_0_compat; lra.
Qed.

Lemma pushIfDynamic_shape (j : Vec) (rb : RBody) :
  isDynamic (pushIfDynamic j rb) = isDynamic rb
  /\ mass (pushIfDynamic j rb) = mass rb.
Proof.
  unfold pushIfDynamic.
  destruct (isDynamic rb) eqn:D; split; simpl; congruence.
Qed.

Lemma invMassOf_push (j : Vec) (rb : RBody) :
  invMassOf (pushIfDynamic j rb) = invMassOf rb.
Proof.
  destruct (pushIfDynamic_shape j rb) as [Hd Hm].
  unfold invMassOf. rewrite Hd, Hm. reflexivity.
Qed.

(** What a pair of opposite impulses does to the relative speed along an
    axis. *)
Lemma push_pair_along (j n : Vec) (rb1 rb2 : RBody) :
  (isDynamic rb1 = true -> 0.0001 <= mass rb1) ->
  (isDynamic rb2 = true -> 0.0001 <= mass rb2) ->
  dot (sub (velocity (pushIfDynamic j rb1))
           (velocity (pushIfDynamic (scale (-1) j) rb2))) n
  = dot (sub (velocity rb1) (velocity rb2)) n
    + dot j n * (invMassOf rb1 + invMassOf rb2).
Proof.
  intros H1 H2. unfold pushIfDynamic.
  destruct (isDynamic rb1) eqn:D1; destruct (isDynamic rb2) eqn:D2;
    rewrite ?(invMassOf_dynamic rb1) by auto;
    rewrite ?(invMassOf_dynamic rb2) by auto;
    rewrite ?(invMassOf_fixed rb1) by auto;
    rewrite ?(invMassOf_fixed rb2) by auto;
    unfold dot, sub, push, add, scale; simpl; ring.
Qed.

(** What a pair of opposite impulses does to the total momentum. *)
Lemma push_pair_momentum (j : Vec) (rb1 rb2 : RBody) :
  isDynamic rb1 = true -> isDynamic rb2 = true ->
  0 < mass rb1 -> 0 < mass rb2 ->
  add (momentum (pushIfDynamic j rb1))
      (momentum (pushIfDynamic (scale (-1) j) rb2))
  = add (momentum rb1) (momentum rb2).
Proof.
  intros D1 D2 H1 H2. unfold pushIfDynamic. rewrite D1, D2.
  apply vec_eq; unfold momentum, push, add, scale; simpl; field; lra.
Qed.

(** The tangent of the friction impulse is orthogonal to a unit normal. *)
Lemma tangent_orthogonal (relVel n : Vec) (k : R) :
  dot n n = 1 ->
  dot (scale k (normalize (sub relVel (scale (dot relVel n) n)))) n = 0.
Proof.
  intros Hn. unfold normalize.
  set (t := sub relVel (scale (dot relVel n) n)).
  set (c := 1 / (if Req_dec_T (length t) 0 then 1 else length t)).
  assert (Ht : dot t n = 0).
  { replace (dot t n) with (dot relVel n * (1 - dot n n))
      by (unfold t, dot, sub, scale; simpl; ring).
    rewrite Hn. ring. }
  replace (dot (scale k (scale c t)) n) with (k * c * dot t n)
    by (unfold dot, scale; simpl; ring).
  rewrite Ht. ring.
Qed.

End CollideFacts.

(** [applyCollisionImpulse] between two dynamic bodies of positive mass
    conserves the total momentum m1*v1 + m2*v2, whatever the normal, the
    friction and the restitution, and changes neither mass. *)
Theorem collision_conserves_momentum (rb1 rb2 : Collide.RBody)
        (normal : Drive.Vec) (friction restitution : R) :
  Collide.isDynamic rb1 = true -> Collide.isDynamic rb2 = true ->
  (0 < Collide.mass rb1)%R -> (0 < Collide.mass rb2)%R ->
  let after :=
    Collide.applyCollisionImpulse rb1 rb2 normal friction restitution in
  Drive.add (Collide.momentum (fst after)) (Collide.momentum (snd after))
  = Drive.add (Collide.momentum rb1) (Collide.momentum rb2)
  /\ Collide.mass (fst after) = Collide.mass rb1
  /\ Collide.mass (snd after) = Collide.mass rb2.
Proof.
  intros D1 D2 M1 M2 after. subst after.
  unfold Collide.applyCollisionImpulse.
  set (relVel := Collide.sub (Collide.velocity rb1) (Collide.velocity rb2)).
  set (ns := Drive.dot relVel normal).
  set (invSum := (Collide.invMassOf rb1 + Collide.invMassOf rb2)%R).
  destruct (Rlt_dec 0 ns); [repeat split|].
  destruct (Req_dec_T invSum 0); [repeat split|].
  set (impulseMag := (- (1 + restitution) * ns / invSum)%R).
  set (impulse := Drive.scale impulseMag normal).
  set (a1 := Collide.pushIfDynamic impulse rb1).
  set (a2 := Collide.pushIfDynamic (Drive.scale (-1) impulse) rb2).
  destruct (pushIfDynamic_shape impulse rb1) as [Da1 Ma1].
  destruct (pushIfDynamic_shape (Drive.scale (-1) impulse) rb2) as [Da2 Ma2].
  fold a1 in Da1, Ma1. fold a2 in Da2, Ma2.
  assert (Hn : Drive.add (Collide.momentum a1) (Collide.momentum a2)
               = Drive.add (Collide.momentum rb1) (Collide.momentum rb2))
    by (apply push_pair_momentum; assumption).
  destruct (Rlt_dec 0.000001 _); cbn [fst snd].
  - set (f := Drive.scale _ (Drive.normalize _)).
    destruct (pushIfDynamic_shape f a1) as [_ Mf1].
    destruct (pushIfDynamic_shape (Drive.scale (-1) f) a2) as [_ Mf2].
    split; [|split; [rewrite Mf1; exact Ma1 | rewrite Mf2; exact Ma2]].
    rewrite <- Hn. apply push_pair_momentum;
      rewrite ?Da1, ?Da2, ?Ma1, ?Ma2; assumption.
  - split; [exact Hn | split; assumption].
Qed.

Lemma collision_conserves_momentum_witness :
  let after :=
    Collide.applyCollisionImpulse Collide.sampleCar Collide.sampleCrate
      (Drive.mkVec 0 0 1) 0.8 0.2 in
  Drive.add (Collide.momentum (fst after)) (Collide.momentum (snd after))
  = Drive.mkVec (0 * 2 + 0 * 1) (0 * 2 + 0 * 1) (-3 * 2 + 0 * 1).
Proof.
  intros after.
  destruct (collision_conserves_momentum Collide.sampleCar Collide.sampleCrate
              (Drive.mkVec 0 0 1) 0.8 0.2) as (H & _).
  - reflexivity.
  - reflexivity.
  - simpl. lra.
  - simpl. lra.
  - exact H.
Defined.

(** [applyCollisionImpulse] obeys the restitution law: when the bodies
    approach each other along a unit normal and at least one of them is
    dynamic (dynamic bodies having a mass of at least 0.0001), the relative
    speed along the normal after the call is the one before, reversed and
    scaled by the restitution; the friction impulse does not act along the
    normal.  A body that is not dynamic keeps its velocity. *)
Theorem collision_restitution (rb1 rb2 : Collide.RBody)
        (normal : Drive.Vec) (friction restitution : R) :
  (Collide.isDynamic rb1 = true -> 0.0001 <= Collide.mass rb1)%R ->
  (Collide.isDynamic rb2 = true -> 0.0001 <= Collide.mass rb2)%R ->
  Collide.isDynamic rb1 || Collide.isDynamic rb2 = true ->
  Drive.dot normal normal = 1%R ->
  (Drive.dot (Collide.sub (Collide.velocity rb1) (Collide.velocity rb2)) normal
   <= 0)%R ->
  let after :=
    Collide.applyCollisionImpulse rb1 rb2 normal friction restitution in
  (Drive.dot (Collide.sub (Collide.velocity (fst after))
                          (Collide.velocity (snd after))) normal
   = - restitution
     * Drive.dot (Collide.sub (Collide.velocity rb1) (Collide.velocity rb2))
                 normal)%R
  /\ (Collide.isDynamic rb1 = false ->
      Collide.velocity (fst after) = Collide.velocity rb1)
  /\ (Collide.isDynamic rb2 = false ->
      Collide.velocity (snd after) = Collide.velocity rb2).
Proof.
  intros M1 M2 Hdyn Hn Hns after. subst after.
  unfold Collide.applyCollisionImpulse.
  set (relVel := Collide.sub (Collide.velocity rb1) (Collide.velocity rb2)).
  fold relVel in Hns.
  set (ns := Drive.dot relVel normal). fold ns in Hns.
  destruct (Rlt_dec 0 ns) as [Hpos | _]; [lra|].
  set (invSum := (Collide.invMassOf rb1 + Collide.invMassOf rb2)%R).
  assert (Hsum : (0 < invSum)%R).
  { unfold invSum.
    pose proof (invMassOf_nonneg rb1). pose proof (invMassOf_nonneg rb2).
    destruct (Collide.isDynamic rb1) eqn:D1.
    - pose proof (invMassOf_pos rb1 D1). lra.
    - destruct (Collide.isDynamic rb2) eqn:D2; [|discriminate].
      pose proof (invMassOf_pos rb2 D2). lra. }
  destruct (Req_dec_T invSum 0) as [Hz | _]; [lra|].
  set (impulseMag := (- (1 + restitution) * ns / invSum)%R).
  set (impulse := Drive.scale impulseMag normal).
  set (a1 := Collide.pushIfDynamic impulse rb1).
  set (a2 := Collide.pushIfDynamic (Drive.scale (-1) impulse) rb2).
  destruct (pushIfDynamic_shape impulse rb1) as [Da1 Ma1].
  destruct (pushIfDynamic_shape (Drive.scale (-1) impulse) rb2) as [Da2 Ma2].
  fold a1 in Da1, Ma1. fold a2 in Da2, Ma2.
  assert (Hnormal :
            (Drive.dot (Collide.sub (Collide.velocity a1) (Collide.velocity a2))
                       normal = - restitution * ns)%R).
  { unfold a1, a2. rewrite push_pair_along by assumption.
    fold relVel. fold ns. fold invSum.
    replace (Drive.dot impulse normal) with impulseMag.
    - unfold impulseMag. field. lra.
    - transitivity (impulseMag * Drive.dot normal normal)%R;
        [rewrite Hn; ring
        | unfold impulse, Drive.dot, Drive.scale; simpl; ring]. }
  assert (Hfix1 : Collide.isDynamic rb1 = false ->
                  Collide.velocity a1 = Collide.velocity rb1).
  { intros D. unfold a1, Collide.pushIfDynamic. rewrite D. reflexivity. }
  assert (Hfix2 : Collide.isDynamic rb2 = false ->
                  Collide.velocity a2 = Collide.velocity rb2).
  { intros D. unfold a2, Collide.pushIfDynamic. rewrite D. reflexivity. }
  destruct (Rlt_dec 0.000001 _); cbn [fst snd].
  - set (f := Drive.scale _ (Drive.normalize _)).
    assert (Hf : Drive.dot f normal = 0%R)
      by (apply tangent_orthogonal; exact Hn).
    split; [|split].
    + rewrite push_pair_along by (rewrite ?Da1, ?Da2, ?Ma1, ?Ma2; assumption).
      rewrite Hf, Hnormal. ring.
    + intros D. rewrite <- (Hfix1 D).
      unfold Collide.pushIfDynamic. rewrite Da1, D. reflexivity.
    + intros D. rewrite <- (Hfix2 D).
      unfold Collide.pushIfDynamic. rewrite Da2, D. reflexivity.
  - split; [exact Hnormal | split; assumption].
Qed.

Lemma collision_restitution_witness :
  let after :=
    Collide.applyCollisionImpulse Collide.sampleCar Collide.sampleCrate
      (Drive.mkVec 0 0 1) 0.8 0.2 in
  (Drive.dot (Collide.sub (Collide.velocity (fst after))
                          (Collide.velocity (snd after))) (Drive.mkVec 0 0 1)
   = - (0.2)
     * Drive.dot (Collide.sub (Collide.velocity Collide.sampleCar)
                              (Collide.velocity Collide.sampleCrate))
                 (Drive.mkVec 0 0 1))%R.
Proof.
  intros after.
  refine (proj1 (collision_restitution Collide.sampleCar Collide.sampleCrate
                   (Drive.mkVec 0 0 1) 0.8 0.2 _ _ _ _ _)).
  - intros _. simpl. lra.
  - intros _. simpl. lra.
  - reflexivity.
  - unfold Drive.dot. simpl. lra.
  - unfold Drive.dot. simpl. lra.
Defined.

(** ** Grip, yaw limit and heading, on the client and on the host *)

Section GripFacts.
Import Drive.
Local Open Scope R_scope.

(** A vector scaled down to a cap. *)
Lemma length_capped (j : Vec) (cap : R) :
  0 <= cap -> cap < length j -> length (scale (cap / length j) j) = cap.
Proof.
  intros Hc Hlt. rewrite length_scale.
  rewrite Rabs_right.
  - field. lra.
  - apply Rle_ge. unfold Rdiv. apply Rmult_le_pos; [exact Hc|].
    apply Rlt_le, Rinv_0_lt_compat. lra.
Qed.

Lemma yaw_limited (w limit : R) :
  0 <= limit -> limit < Rabs w -> Rabs (sign w * limit) = limit.
Proof.
  intros Hl Hw.
  destruct (sign_cases w) as [[Hs ->] | [[Hs ->] | [Hs ->]]].
  - rewrite Rmult_1_l. apply Rabs_right. lra.
  - replace (-1 * limit) with (- limit) by ring.
    rewrite Rabs_Ropp. apply Rabs_right. lra.
  - rewrite Hs, Rabs_R0 in Hw. lra.
Qed.

(** The axes the host expands from a rotation are the rotated unit
    vectors. *)
Lemma fwdOf_rotated (t : Quat) :
  qx t * qx t + qy t * qy t + qz t * qz t + qw t * qw t = 1 ->
  HostDrive.fwdOf t = applyQuaternion t (mkVec 0 0 1)
  /\ HostDrive.rightOf t = applyQuaternion t (mkVec 1 0 0).
Proof.
  intros Hu.
  assert (Hw : qw t * qw t = 1 - qx t * qx t - qy t * qy t - qz t * qz t)
    by lra.
  split; apply vec_eq; unfold HostDrive.fwdOf, HostDrive.rightOf,
    applyQuaternion; simpl; ring_simplify; try (rewrite ?Hw; ring).
  all: replace (qw t ^ 2) with (qw t * qw t) by ring; rewrite Hw; ring.
Qed.

Lemma fwdOf_unit (t : Quat) :
  qx t * qx t + qy t * qy t + qz t * qz t + qw t * qw t = 1 ->
  dot (HostDrive.fwdOf t) (HostDrive.fwdOf t) = 1
  /\ dot (HostDrive.rightOf t) (HostDrive.rightOf t) = 1
  /\ dot (HostDrive.fwdOf t) (HostDrive.rightOf t) = 0.
Proof.
  intros Hu.
  set (n := qx t * qx t + qy t * qy t + qz t * qz t + qw t * qw t) in *.
  split; [|split].
  - replace (dot (HostDrive.fwdOf t) (HostDrive.fwdOf t))
      with (1 + 4 * (qx t * qx t + qy t * qy t) * (n - 1))
      by (unfold n, dot, HostDrive.fwdOf; simpl; ring).
    rewrite Hu. ring.
  - replace (dot (HostDrive.rightOf t) (HostDrive.rightOf t))
      with (1 + 4 * (qy t * qy t + qz t * qz t) * (n - 1))
      by (unfold n, dot, HostDrive.rightOf; simpl; ring).
    rewrite Hu. ring.
  - replace (dot (HostDrive.fwdOf t) (HostDrive.rightOf t))
      with (- 4 * (qx t * qz t) * (n - 1))
      by (unfold n, dot, HostDrive.fwdOf, HostDrive.rightOf; simpl; ring).
    rewrite Hu. ring.
Qed.

Lemma length_one (a : Vec) : dot a a = 1 -> length a = 1.
Proof.
  intros H. unfold length. unfold dot in H. rewrite H. apply sqrt_1.
Qed.

Lemma normalize_unit (a : Vec) : dot a a = 1 -> normalize a = a.
Proof.
  intros H. pose proof (length_one a H) as Hl.
  rewrite normalize_nonzero by lra. rewrite Hl.
  apply vec_eq; simpl; field.
Qed.

End GripFacts.

(** The sideways grip impulse of the client's [applyPlayerForces]: for a
    non-negative step it is never longer than [sideGrip * dt * 8], and it
    never pushes along the slide: its component along the right axis has
    the sign opposite to the side speed. *)
Theorem client_grip_bounded (dt : R) (vel right : Drive.Vec) (traction : R)
        (j : Drive.Vec) :
  (0 <= dt)%R ->
  Drive.sideImpulse dt vel right traction = Some j ->
  (Drive.length j <= Drive.sideGrip * dt * 8
   /\ Drive.dot j right * Drive.dot vel right <= 0)%R.
Proof.
  intros Hdt. unfold Drive.sideImpulse.
  destruct (Rlt_dec 0.02 _) as [_|_]; [|discriminate].
  destruct (Rlt_dec 0.01 traction) as [_|_]; [|discriminate].
  set (ss := Drive.dot vel right).
  set (gs := Drive.clamp (Rabs ss / 6.5) 0.25 traction).
  set (j0 := Drive.scale (- ss * Drive.sideGrip * gs) right).
  set (cap := (Drive.sideGrip * dt * 8)%R).
  assert (Hcap : (0 <= cap)%R) by (unfold cap, Drive.sideGrip; lra).
  assert (Hgs : (0 <= gs)%R).
  { unfold gs, Drive.clamp.
    pose proof (Rmax_l 0.25 (Rmin traction (Rabs ss / 6.5))). lra. }
  assert (Hrr : (0 <= Drive.dot right right)%R)
    by (unfold Drive.dot; nra).
  assert (Hj0 : (Drive.dot j0 right * ss
                 = - (Drive.sideGrip * gs * Drive.dot right right * (ss * ss)))%R)
    by (unfold j0, Drive.dot, Drive.scale; simpl; ring).
  assert (Hneg : (Drive.dot j0 right * ss <= 0)%R).
  { rewrite Hj0.
    assert (0 <= Drive.sideGrip * gs * Drive.dot right right * (ss * ss))%R;
      [|lra].
    apply Rmult_le_pos;
      [apply Rmult_le_pos;
       [apply Rmult_le_pos; [unfold Drive.sideGrip; lra | exact Hgs]
       | exact Hrr]
      | nra]. }
  destruct (Rlt_dec cap (Drive.length j0)) as [Hover | Hin];
    intros E; injection E as <-.
  - split.
    + rewrite length_capped by assumption. lra.
    + replace (Drive.dot (Drive.scale (cap / Drive.length j0) j0) right)
        with (cap / Drive.length j0 * Drive.dot j0 right)%R
        by (unfold Drive.dot, Drive.scale; simpl; ring).
      assert (Hk : (0 <= cap / Drive.length j0)%R).
      { unfold Rdiv. apply Rmult_le_pos; [exact Hcap|].
        apply Rlt_le, Rinv_0_lt_compat. lra. }
      rewrite Rmult_assoc. 
      replace 0%R with (cap / Drive.length j0 * 0)%R by ring.
      apply Rmult_le_compat_l; assumption.
  - split; [lra | exact Hneg].
Qed.

Lemma client_grip_bounded_witness :
  exists j,
    Drive.sideImpulse (1 / 60) (Drive.mkVec 3 0 0) (Drive.mkVec 1 0 0) 1
    = Some j
    /\ (Drive.length j <= Drive.sideGrip * (1 / 60) * 8)%R.
Proof.
  destruct (Drive.sideImpulse (1 / 60) (Drive.mkVec 3 0 0)
              (Drive.mkVec 1 0 0) 1) as [j|] eqn:E.
  - exists j. split; [reflexivity|].
    apply (client_grip_bounded (1 / 60) (Drive.mkVec 3 0 0)
             (Drive.mkVec 1 0 0) 1 j); [lra | exact E].
  - exfalso. revert E. unfold Drive.sideImpulse.
    replace (Drive.dot (Drive.mkVec 3 0 0) (Drive.mkVec 1 0 0)) with 3%R
      by (unfold Drive.dot; simpl; ring).
    rewrite (Rabs_right 3) by lra.
    destruct (Rlt_dec 0.02 3) as [_|H]; [|lra].
    destruct (Rlt_dec 0.01 1) as [_|H]; [|lra].
    discriminate.
Defined.

(** The sideways friction impulse of the host's [applyInputs]: for a
    non-negative step it is never longer than [sideGrip * dt * 8]
    (6.4 * dt * 8), and its component along the right axis has the sign
    opposite to the lateral speed. *)
Theorem host_grip_bounded (dt : R) (lv right : Drive.Vec) :
  (0 <= dt)%R ->
  (Drive.length (HostDrive.sideImpulse dt lv right)
   <= HostDrive.sideGrip * dt * 8
   /\ Drive.dot (HostDrive.sideImpulse dt lv right) right
      * Drive.dot lv right <= 0)%R.
Proof.
  intros Hdt. unfold HostDrive.sideImpulse.
  set (lat := Drive.dot lv right).
  set (j0 := Drive.mkVec (- Drive.x right * lat * HostDrive.sideGrip * dt)
                         (- Drive.y right * lat * HostDrive.sideGrip * 0.4 * dt)
                         (- Drive.z right * lat * HostDrive.sideGrip * dt)).
  set (cap := (HostDrive.sideGrip * dt * 8)%R).
  assert (Hcap : (0 <= cap)%R) by (unfold cap, HostDrive.sideGrip; lra).
  assert (Hj0 : (Drive.dot j0 right * lat
                 = - (HostDrive.sideGrip * dt
                      * (Drive.x right * Drive.x right
                         + 0.4 * (Drive.y right * Drive.y right)
                         + Drive.z right * Drive.z right)
                      * (lat * lat)))%R)
    by (unfold j0, Drive.dot; simpl; ring).
  assert (Hneg : (Drive.dot j0 right * lat <= 0)%R).
  { rewrite Hj0.
    assert (0 <= HostDrive.sideGrip * dt
                 * (Drive.x right * Drive.x right
                    + 0.4 * (Drive.y right * Drive.y right)
                    + Drive.z right * Drive.z right)
                 * (lat * lat))%R; [|lra].
    apply Rmult_le_pos;
      [apply Rmult_le_pos;
       [apply Rmult_le_pos; [unfold HostDrive.sideGrip; lra | exact Hdt]
       | nra]
      | nra]. }
  destruct (Rlt_dec cap (Drive.length j0)) as [Hover | Hin].
  - change (Drive.mkVec (Drive.x j0 * (cap / Drive.length j0))
                        (Drive.y j0 * (cap / Drive.length j0))
                        (Drive.z j0 * (cap / Drive.length j0)))
      with (Drive.scale (cap / Drive.length j0) j0).
    split.
    + rewrite length_capped by assumption. lra.
    + replace (Drive.dot (Drive.scale (cap / Drive.length j0) j0) right)
        with (cap / Drive.length j0 * Drive.dot j0 right)%R
        by (unfold Drive.dot, Drive.scale; simpl; ring).
      assert (Hk : (0 <= cap / Drive.length j0)%R).
      { unfold Rdiv. apply Rmult_le_pos; [exact Hcap|].
        apply Rlt_le, Rinv_0_lt_compat. lra. }
      rewrite Rmult_assoc.
      replace 0%R with (cap / Drive.length j0 * 0)%R by ring.
      apply Rmult_le_compat_l; assumption.
  - replace (Drive.mkVec (Drive.x j0 * 1) (Drive.y j0 * 1) (Drive.z j0 * 1))
      with j0 by (apply vec_eq; simpl; ring).
    split; [lra | exact Hneg].
Qed.

Lemma host_grip_bounded_witness :
  (Drive.length (HostDrive.sideImpulse (1 / 60) (Drive.mkVec 3 0 0)
                                       (Drive.mkVec 1 0 0))
   <= HostDrive.sideGrip * (1 / 60) * 8)%R.
Proof.
  refine (proj1 (host_grip_bounded (1 / 60) (Drive.mkVec 3 0 0)
                   (Drive.mkVec 1 0 0) _)).
  lra.
Defined.

(** After the host's [applyInputs] has handled a session, the yaw rate of
    its body is at most [maxYaw] = 3.0 in magnitude, whatever the input,
    the step and the body were. *)
Theorem host_yaw_rate_limited (dt : R) (input : HostDrive.Input)
        (body : Drive.Body) :
  (Rabs (Drive.y (Drive.angvel (HostDrive.applyInputsBody dt input body)))
   <= HostDrive.maxYaw)%R.
Proof.
  unfold HostDrive.applyInputsBody. cbv zeta.
  match goal with
  | |- context [Rlt_dec HostDrive.maxYaw ?a] =>
      destruct (Rlt_dec HostDrive.maxYaw a) as [Hover | Hin]
  end.
  - cbn [Drive.angvel Drive.setAngvel Drive.y].
    rewrite yaw_limited; [lra | unfold HostDrive.maxYaw; lra | exact Hover].
  - lra.
Qed.

(** The client and the host agree on the axes of a body: for a unit
    rotation the host's expanded [fwd] and [right] are orthogonal unit
    vectors, the client's right axis is the host's, and the client's
    forward axis is the opposite of the host's, which is why [sendInput]
    negates the throttle axis. *)
Theorem client_host_axes_agree (rb : Drive.Body) :
  let t := Drive.rotation rb in
  (Drive.qx t * Drive.qx t + Drive.qy t * Drive.qy t
   + Drive.qz t * Drive.qz t + Drive.qw t * Drive.qw t = 1)%R ->
  Drive.forwardOf rb = Drive.scale (-1) (HostDrive.fwdOf t)
  /\ Drive.rightOf rb = HostDrive.rightOf t
  /\ Drive.length (HostDrive.fwdOf t) = 1%R
  /\ Drive.length (HostDrive.rightOf t) = 1%R
  /\ Drive.dot (HostDrive.fwdOf t) (HostDrive.rightOf t) = 0%R.
Proof.
  intros t Hu.
  destruct (fwdOf_rotated t Hu) as [Hf Hr].
  destruct (fwdOf_unit t Hu) as (Hff & Hrr & Hfr).
  repeat split.
  - unfold Drive.forwardOf. fold t.
    replace (Drive.applyQuaternion t (Drive.mkVec 0 0 (-1)))
      with (Drive.scale (-1) (HostDrive.fwdOf t)).
    + apply normalize_unit.
      replace (Drive.dot (Drive.scale (-1) (HostDrive.fwdOf t))
                         (Drive.scale (-1) (HostDrive.fwdOf t)))
        with (Drive.dot (HostDrive.fwdOf t) (HostDrive.fwdOf t))
        by (unfold Drive.dot, Drive.scale; simpl; ring).
      exact Hff.
    + rewrite Hf. apply vec_eq; unfold Drive.applyQuaternion, Drive.scale;
        simpl; ring.
  - unfold Drive.rightOf. fold t. rewrite <- Hr.
    apply normalize_unit. exact Hrr.
  - apply length_one. exact Hff.
  - apply length_one. exact Hrr.
  - exact Hfr.
Qed.

Lemma client_host_axes_agree_witness :
  Drive.forwardOf (Drive.mkBody (Drive.mkQuat 0 0 0 1) (Drive.mkVec 0 0 0)
                                (Drive.mkVec 0 0 0) 1 (fun t => t))
  = Drive.scale (-1) (HostDrive.fwdOf (Drive.mkQuat 0 0 0 1)).
Proof.
  refine (proj1 (client_host_axes_agree
                   (Drive.mkBody (Drive.mkQuat 0 0 0 1) (Drive.mkVec 0 0 0)
                                 (Drive.mkVec 0 0 0) 1 (fun t => t)) _)).
  simpl. lra.
Defined.

(** A body the host creates with [quatFromEuler(yaw)] has a unit rotation
    and faces (sin yaw, 0, cos yaw), with (cos yaw, 0, - sin yaw) to its
    right: the axes [applyInputs] expands from that rotation. *)
Theorem quatFromEuler_heading (yaw : R) :
  let t := HostDrive.quatFromEuler yaw in
  (Drive.qx t * Drive.qx t + Drive.qy t * Drive.qy t
   + Drive.qz t * Drive.qz t + Drive.qw t * Drive.qw t = 1)%R
  /\ HostDrive.fwdOf t = Drive.mkVec (sin yaw) 0 (cos yaw)
  /\ HostDrive.rightOf t = Drive.mkVec (cos yaw) 0 (- sin yaw).
Proof.
  intros t. subst t. unfold HostDrive.quatFromEuler. cbv zeta.
  set (h := (yaw * 0.5)%R).
  assert (Hy : yaw = (2 * h)%R) by (unfold h; lra).
  pose proof (sin2_cos2 h) as Hsc. unfold Rsqr in Hsc.
  assert (Hs : sin yaw = (2 * sin h * cos h)%R) by (rewrite Hy; apply sin_2a).
  assert (Hc : cos yaw = (1 - 2 * sin h * sin h)%R)
    by (rewrite Hy; apply cos_2a_sin).
  split; [|split].
  - simpl. lra.
  - apply vec_eq; unfold HostDrive.fwdOf; simpl; rewrite ?Hs, ?Hc; ring.
  - apply vec_eq; unfold HostDrive.rightOf; simpl; rewrite ?Hs, ?Hc; ring.
Qed.

(** ** The particle pools *)

Section ParticleFacts.
Import Particles.








Lemma updateSlot_dead (dt gravity : Q) (col : Host.Vec3) (p : Particle) :
  0 <= dt -> alive p = false ->
  alive (updateSlot dt gravity col p) = false.
Proof.
  intros Hdt Hd. unfold alive in *.
  destruct (Qle_bool (life (updateSlot dt gravity col p)) 0) eqn:E;
    [reflexivity|].
  exfalso. apply Bool.negb_false_iff in Hd.
  unfold updateSlot in E. rewrite Hd in E. congruence.
Qed.



End ParticleFacts.





(** ** The props the host creates *)

Section PropsFacts.
Import Host Props.

Lemma toUint32_range (n : Z) : (0 <= toUint32 n < 4294967296)%Z.
Proof. unfold toUint32. apply Z.mod_pos_bound. reflexivity. Qed.

(** The generator returns a value in [0, 1). *)
Lemma mulberry32_unit (seed : Z) :
  0 <= fst (mulberry32 seed) /\ fst (mulberry32 seed) < 1.
Proof.
  unfold mulberry32. cbv zeta. cbn [fst].
  match goal with
  | |- context [inject_Z (toUint32 ?a)] =>
      pose proof (toUint32_range a) as H; generalize dependent (toUint32 a)
  end.
  intros u Hu.
  assert (Hc : 0 < inject_Z 4294967296) by reflexivity.
  split.
  - apply Qle_shift_div_l; [exact Hc|]. rewrite Qmult_0_l.
    change 0 with (inject_Z 0). rewrite <- Zle_Qle. lia.
  - apply Qlt_shift_div_r; [exact Hc|]. rewrite Qmult_1_l.
    rewrite <- Zlt_Qlt. lia.
Qed.

Variable heading : Q -> Quat.

Lemma placed_inside (p : Vec3) : placed p -> outOfBounds p = false.
Proof.
  intros (Hx1 & Hx2 & Hy1 & Hy2 & Hz1 & Hz2). unfold outOfBounds.
  assert (Ex : Qle_bool (Qabs (vx p)) 200 = true).
  { apply Qle_bool_iff, Qabs_Qle_condition. split; lra. }
  assert (Ey : Qle_bool (-20) (vy p) = true) by (apply Qle_bool_iff; lra).
  assert (Ez : Qle_bool (Qabs (vz p)) 200 = true).
  { apply Qle_bool_iff, Qabs_Qle_condition. split; lra. }
  rewrite Ex, Ey, Ez. reflexivity.
Qed.

(** What one round of the loop does. *)
Lemma createProp_spec (name : string) (seed : Z) (w : World) :
  let r := createProp heading name seed w in
  let c := fst (fst r) in
  let w' := snd (fst r) in
  placed (initialP (entry c))
  /\ propId (entry c) = name
  /\ propBody (entry c) = nextBody w
  /\ nextBody w' = (nextBody w + 1)%Z
  /\ (exists b, bodies w' = <[nextBody w := b]> (bodies w)
                /\ translation b = initialP (entry c)).
Proof.
  unfold createProp.
  pose proof (mulberry32_unit seed) as U1.
  destruct (mulberry32 seed) as [r1 s1].
  pose proof (mulberry32_unit s1) as U2.
  destruct (mulberry32 s1) as [r2 s2].
  pose proof (mulberry32_unit s2) as U3.
  destruct (mulberry32 s2) as [r3 s3].
  pose proof (mulberry32_unit s3) as U4.
  destruct (mulberry32 s3) as [r4 s4].
  pose proof (mulberry32_unit s4) as U5.
  destruct (mulberry32 s4) as [r5 s5].
  pose proof (mulberry32_unit s5) as U6.
  destruct (mulberry32 s5) as [r6 s6].
  pose proof (mulberry32_unit s6) as U7.
  destruct (mulberry32 s6) as [r7 s7].
  destruct (mulberry32 s7) as [r8 s8].
  cbn [fst snd] in *. cbv zeta.
  unfold createRigidBody, createCollider. cbn [fst snd entry initialP
    propId propBody nextBody bodies].
  split; [|split; [reflexivity | split; [reflexivity | split; [reflexivity|]]]].
  - unfold placed, lerp. cbn [vx vy vz]. repeat split; lra.
  - eexists. split; [reflexivity|].
    destruct (negb (Qle_bool r1 (35 # 100))); reflexivity.
Qed.

(** The loop keeps the bodies it has created and hands out consecutive
    handles. *)
Lemma createLoop_spec (n : nat) :
  forall (i : nat) (seed : Z) (w : World),
    let r := createLoop heading n i seed w in
    let cs := fst (fst r) in
    let w' := snd (fst r) in
    nextBody w' = (nextBody w + Z.of_nat n)%Z
    /\ (forall h, (h < nextBody w)%Z -> bodies w' !! h = bodies w !! h)
    /\ map (fun c => propBody (entry c)) cs
       = map (fun j => (nextBody w + Z.of_nat j)%Z) (seq 0 n)
    /\ map (fun c => propId (entry c)) cs = map propName (seq i n)
    /\ Forall (fun c =>
                 placed (initialP (entry c))
                 /\ option_map translation
                      (getRigidBody w' (propBody (entry c)))
                    = Some (initialP (entry c))) cs.
Proof.
  induction n as [|n IH]; intros i seed w.
  - cbn. repeat split; [lia | constructor].
  - cbv zeta. cbn [createLoop].
    pose proof (createProp_spec (propName i) seed w) as Hone.
    cbv zeta in Hone.
    destruct (createProp heading (propName i) seed w) as [[c w1] s1].
    cbn [fst snd] in Hone.
    destruct Hone as (Hpl & Hid & Hh & Hnext & b & Hb & Htr).
    specialize (IH (S i) s1 w1). cbv zeta in IH.
    destruct (createLoop heading n (S i) s1 w1) as [[cs w2] s2].
    cbn [fst snd] in *.
    destruct IH as (Hn2 & Hkeep & Hhs & Hids & Hall).
    split; [lia|]. split; [|split; [|split]].
    + intros h Hlt. rewrite Hkeep by lia. rewrite Hb.
      apply lookup_insert_ne. lia.
    + cbn [map seq]. rewrite Hh, Hhs. f_equal; [cbn; lia|].
      rewrite <- seq_shift, map_map. apply map_ext. intros j.
      rewrite Hnext. lia.
    + cbn [map seq]. rewrite Hid, Hids. reflexivity.
    + constructor; [|exact Hall].
      split; [exact Hpl|].
      unfold getRigidBody. rewrite Hkeep by lia. rewrite Hh, Hb.
      rewrite lookup_insert_eq. cbn. rewrite Htr. reflexivity.
Qed.

End PropsFacts.

(** [createProps] (and its loop from any seed, for any number of props):
    every prop is created with x and z in [-15, 15) and y in [0.45, 0.8),
    its body has the next consecutive handle, so the handles are pairwise
    distinct, and at the end of the loop its body still sits at the
    recorded initial position; hence [resetPropIfOutOfBounds] changes
    nothing in the world [createProps] leaves.  The ids are [p0], [p1],
    ... in order. *)
Theorem props_created_in_bounds (heading : Q -> Host.Quat) (n i : nat)
        (seed : Z) (w : Host.World) :
  let r := Props.createLoop heading n i seed w in
  let cs := fst (fst r) in
  let w' := snd (fst r) in
  length cs = n
  /\ map (fun c => Host.propId (Props.entry c)) cs
     = map Props.propName (seq i n)
  /\ map (fun c => Host.propBody (Props.entry c)) cs
     = map (fun j => (Host.nextBody w + Z.of_nat j)%Z) (seq 0 n)
  /\ Forall (fun c =>
               let p := Host.initialP (Props.entry c) in
               (-15 <= Host.vx p /\ Host.vx p < 15
                /\ (45 # 100) <= Host.vy p /\ Host.vy p < (8 # 10)
                /\ -15 <= Host.vz p /\ Host.vz p < 15)
               /\ option_map Host.translation
                    (Host.getRigidBody w' (Host.propBody (Props.entry c)))
                  = Some p
               /\ Host.resetPropIfOutOfBounds (Props.entry c) w' = w') cs.
Proof.
  intros r cs w'. subst r cs w'.
  pose proof (createLoop_spec heading n i seed w) as H. cbv zeta in H.
  destruct H as (_ & _ & Hhs & Hids & Hall).
  split; [|split; [exact Hids | split; [exact Hhs|]]].
  - rewrite <- (length_map (fun c => Host.propId (Props.entry c))).
    rewrite Hids, length_map, length_seq. reflexivity.
  - eapply List.Forall_impl; [|exact Hall].
    intros c (Hpl & Hbody). cbv zeta.
    split; [exact Hpl | split; [exact Hbody|]].
    unfold Host.resetPropIfOutOfBounds.
    destruct (negb (Host.dynamic (Props.entry c))); [reflexivity|].
    destruct (Host.getRigidBody _ _) as [b|]; [|reflexivity].
    cbn in Hbody. injection Hbody as Hb. rewrite Hb.
    rewrite (placed_inside _ Hpl). reflexivity.
Qed.

(** ** From the devices to the smoothed axes *)

Section PipelineFacts.
Import Drive InputPipeline.
Local Open Scope R_scope.

Lemma keyboardAxes_unit (ks : gset string) :
  Rabs (fst (keyboardAxes ks)) <= 1 /\ Rabs (snd (keyboardAxes ks)) <= 1.
Proof.
  unfold keyboardAxes. cbv zeta. cbn [fst snd].
  split; apply Rabs_le.
  - destruct (has ks "ArrowLeft" || has ks "KeyA");
      destruct (has ks "ArrowRight" || has ks "KeyD"); lra.
  - destruct (has ks "ArrowUp" || has ks "KeyW");
      destruct (has ks "ArrowDown" || has ks "KeyS"); lra.
Qed.

Lemma handleJoy_bounded (rect : Rect) (px py : R) (active : bool)
      (st : State) :
  0 < width rect -> bounded (controls st) ->
  bounded (controls (handleJoy rect px py active st)).
Proof.
  intros Hw (_ & _ & Hix & Hiy).
  destruct (handleJoyEvent_disc (left rect) (top rect) (width rect)
              (height rect) px py Hw) as (_ & Hx & Hy & _).
  unfold bounded, handleJoy. cbn.
  repeat split; try assumption; apply Rabs_le; assumption.
Qed.

Lemma releaseJoy_bounded (st : State) :
  bounded (controls st) -> bounded (controls (releaseJoy st)).
Proof.
  intros (_ & _ & Hix & Hiy). unfold bounded, releaseJoy. cbn.
  rewrite Rabs_R0. repeat split; try assumption; lra.
Qed.

Lemma physics_bounded (dt : R) (ks : gset string) (c : Controls) :
  0 <= dt -> bounded c ->
  bounded (applyPlayerForces dt (withKeys (keyboardAxes ks) c)).
Proof.
  intros Hdt (Hjx & Hjy & Hix & Hiy).
  destruct (keyboardAxes_unit ks) as [Hkx Hky].
  set (c' := withKeys (keyboardAxes ks) c).
  assert (Hb : bounded c') by (unfold bounded, c'; cbn; tauto).
  unfold applyPlayerForces. destruct (body c') as [rb0|]; [|exact Hb].
  unfold bounded. cbn [joyX joyY inputX inputY].
  destruct (rawAxes_unit c') as [Hrx Hry]; try assumption.
  unfold axes. destruct (rawAxes c') as [ax0 ay0]. cbn [fst snd] in *.
  repeat split; try assumption;
    apply approach_unit; try assumption; lra.
Qed.

Lemma step_bounded (st : State) (e : Event) :
  valid e -> bounded (controls st) -> bounded (controls (step st e)).
Proof.
  intros Hv Hb. destruct e; cbn [step valid] in *.
  - apply handleJoy_bounded; assumption.
  - destruct (negb _ || negb _); [exact Hb|].
    apply handleJoy_bounded; assumption.
  - destruct (negb _); [exact Hb | apply releaseJoy_bounded; exact Hb].
  - apply releaseJoy_bounded; exact Hb.
  - exact Hb.
  - exact Hb.
  - cbn [controls]. apply physics_bounded; assumption.
Qed.

Lemma run_bounded (es : list Event) :
  forall st, Forall valid es -> bounded (controls st) ->
             bounded (controls (run es st)).
Proof.
  induction es as [|e es IH]; intros st Hv Hb; [exact Hb|].
  inversion Hv; subst. cbn [run fold_left].
  apply IH; [assumption | apply step_bounded; assumption].
Qed.

End PipelineFacts.

(** From the moment the script has loaded, whatever the pointer and key
    events and physics steps (the joystick having a positive width and the
    steps not being negative): the joystick axes and the smoothed steering
    and throttle axes stay in [-1, 1], and so does the pair
    [keyboardAxes()] returns. *)
Theorem input_axes_bounded (coarse grounded : bool)
        (rb : option Drive.Body) (es : list InputPipeline.Event) :
  Forall InputPipeline.valid es ->
  let st := InputPipeline.run es (InputPipeline.initial coarse grounded rb) in
  let c := InputPipeline.controls st in
  let k := InputPipeline.keyboardAxes (InputPipeline.keys st) in
  (Rabs (Drive.joyX c) <= 1 /\ Rabs (Drive.joyY c) <= 1
   /\ Rabs (Drive.inputX c) <= 1 /\ Rabs (Drive.inputY c) <= 1
   /\ Rabs (fst k) <= 1 /\ Rabs (snd k) <= 1)%R.
Proof.
  intros Hv st c k.
  assert (Hb : InputPipeline.bounded c).
  { apply run_bounded; [exact Hv|].
    unfold InputPipeline.bounded, InputPipeline.initial. cbn.
    rewrite Rabs_R0. repeat split; lra. }
  destruct Hb as (H1 & H2 & H3 & H4).
  destruct (keyboardAxes_unit (InputPipeline.keys st)) as [H5 H6].
  repeat split; assumption.
Qed.

Lemma input_axes_bounded_witness :
  (Rabs (Drive.inputY
           (InputPipeline.controls
              (InputPipeline.run InputPipeline.sampleEvents
                 (InputPipeline.initial true true
                    (Drive.body Drive.sampleThrottle))))) <= 1)%R.
Proof.
  destruct (input_axes_bounded true true (Drive.body Drive.sampleThrottle)
              InputPipeline.sampleEvents) as (_ & _ & _ & H & _).
  - repeat constructor; simpl; lra.
  - exact H.
Defined.

(** ** The relay server *)

Section RelayFacts.
Import Relay.

Lemma orElse_idem (v : option Json) (d : Json) :
  orElse (Some (orElse v d)) d = orElse v d.
Proof.
  destruct v as [x|]; cbn [orElse].
  - destruct (truthy x) eqn:E; [rewrite E; reflexivity|].
    destruct (truthy d); reflexivity.
  - destruct (truthy d); reflexivity.
Qed.

Lemma snapshotState_normalised (v : option Json) (n : Z) :
  normalised (snapshotState v n).
Proof.
  intros now. set (r := snapshotState v n).
  unfold snapshotState at 1.
  change (chain "p" (Some (toJson r))) with (Some (p r)).
  change (chain "y" (Some (toJson r))) with (Some (y r)).
  change (chain "q" (Some (toJson r))) with (Some (q r)).
  change (chain "s" (Some (toJson r))) with (Some (s r)).
  change (chain "st" (Some (toJson r))) with (Some (st r)).
  change (chain "b" (Some (toJson r))) with (Some (JBool (b r))).
  unfold retime, r, snapshotState. cbn [p y q s st b t toBoolean truthy].
  rewrite !orElse_idem. reflexivity.
Qed.

Lemma filter_set_other (id : string) (c : Client)
      (cs : list (string * Client)) :
  List.filter (fun kc => negb (String.eqb (fst kc) id)) (set id c cs)
  = List.filter (fun kc => negb (String.eqb (fst kc) id)) cs.
Proof.
  induction cs as [|[k c0] cs IH]; cbn [set List.filter fst].
  - rewrite String.eqb_refl. reflexivity.
  - destruct (String.eqb k id) eqn:E; cbn [List.filter fst]; rewrite E;
      cbn [negb]; [reflexivity | rewrite IH; reflexivity].
Qed.

Lemma filter_set_other_gen (id : string) (c : Client) (f : string -> bool)
      (cs : list (string * Client)) :
  List.filter (fun kc => negb (String.eqb (fst kc) id) && f (fst kc))
              (set id c cs)
  = List.filter (fun kc => negb (String.eqb (fst kc) id) && f (fst kc)) cs.
Proof.
  induction cs as [|[k c0] cs IH]; cbn [set List.filter fst].
  - rewrite String.eqb_refl. reflexivity.
  - destruct (String.eqb k id) eqn:E; cbn [List.filter fst]; rewrite E;
      cbn [negb andb]; [reflexivity | rewrite IH; reflexivity].
Qed.

Lemma set_forall (P : Client -> Prop) (id : string) (c : Client)
      (cs : list (string * Client)) :
  P c -> Forall (fun kc => P (snd kc)) cs ->
  Forall (fun kc => P (snd kc)) (set id c cs).
Proof.
  intros Hc H. induction H as [|[k c0] cs Hk Hcs IH]; cbn [set].
  - constructor; [exact Hc | constructor].
  - destruct (String.eqb k id); constructor; assumption.
Qed.

Lemma del_forall (P : string * Client -> Prop) (id : string)
      (cs : list (string * Client)) :
  Forall P cs -> Forall P (del id cs).
Proof.
  intros H. unfold del. apply List.Forall_forall. intros kc Hin.
  apply filter_In in Hin. rewrite List.Forall_forall in H.
  apply H. tauto.
Qed.

(** The heartbeat only ever deletes entries. *)
Lemma sweep_forall (P : string * Client -> Prop) (now : Z)
      (l : list (string * Client)) :
  forall st, Forall P (clients st) ->
             Forall P (clients (fold_left (fun s kc => sweepOne now kc s)
                                          l st)).
Proof.
  induction l as [|[k c] l IH]; intros st H; [exact H|].
  cbn [fold_left]. apply IH. unfold sweepOne.
  destruct (negb (socketOpen st k)); [exact H|].
  destruct (HEARTBEAT_MS * 2 <? now - lastSeen c)%Z; cbn [broadcast clients];
    [apply del_forall; exact H | exact H].
Qed.

Lemma step_normalised (st st' : State) (e : Event) :
  allNormalised st -> step st e = Some st' -> allNormalised st'.
Proof.
  unfold allNormalised. intros H E. destruct e; cbn [step] in E.
  - injection E as <-. unfold onConnection. cbn [broadcast clients].
    apply (set_forall (fun c => normalised (state c)));
      [apply snapshotState_normalised | exact H].
  - unfold onMessage in E. destruct frame as [|data]; [congruence|].
    destruct data; try discriminate;
      (destruct (isStateMessage _);
       [destruct (get id (clients st));
        [injection E as <-; cbn [broadcast clients];
         apply (set_forall (fun c => normalised (state c)));
         [apply snapshotState_normalised | exact H]
        | congruence]
       | congruence]).
  - injection E as <-. unfold onClose. cbn [broadcast clients].
    apply del_forall. exact H.
  - injection E as <-. unfold heartbeat. apply sweep_forall. exact H.
Qed.

Lemma run_normalised (es : list Event) :
  forall st st', allNormalised st -> run es st = Some st' ->
                 allNormalised st'.
Proof.
  induction es as [|e es IH]; intros st st' H E; cbn [run] in E.
  - injection E as <-. exact H.
  - destruct (step st e) as [st1|] eqn:E1; [|discriminate].
    apply (IH st1 st'); [|exact E].
    apply (step_normalised st st1 e); assumption.
Qed.

Lemma socketOpen_insert_other (st : State) (cs : list (string * Client))
      (es : list Effect) (id k : string) (r : Host.ReadyState) :
  k <> id ->
  socketOpen (mkState cs (<[id := r]> (sockets st)) es) k = socketOpen st k.
Proof.
  intros Hne. unfold socketOpen. cbn [sockets].
  rewrite lookup_insert_ne by congruence. reflexivity.
Qed.

Lemma receivers_connection (id : string) (c : Client) (st : State)
      (es : list Effect) :
  receivers id (mkState (set id c (clients st))
                        (<[id := Host.OPEN]> (sockets st)) es)
  = receivers id st.
Proof.
  unfold receivers. cbn [clients]. f_equal.
  transitivity
    (List.filter (fun kc => socketOpen st (fst kc))
       (List.filter (fun kc => negb (String.eqb (fst kc) id))
                    (set id c (clients st)))).
  - induction (set id c (clients st)) as [|[k c0] l IH];
      [reflexivity|].
    cbn [List.filter fst].
    destruct (String.eqb k id) eqn:E; cbn [negb andb]; [exact IH|].
    cbn [List.filter fst].
    rewrite socketOpen_insert_other
      by (intros ->; rewrite String.eqb_refl in E; discriminate).
    destruct (socketOpen st k); [f_equal; exact IH | exact IH].
  - rewrite filter_set_other.
    induction (clients st) as [|[k c0] l IH]; [reflexivity|].
    cbn [List.filter fst].
    destruct (String.eqb k id); cbn [negb andb List.filter fst];
      [exact IH|].
    destruct (socketOpen st k); [f_equal; exact IH | exact IH].
Qed.

Lemma receivers_spec (skipId : string) (st : State) (k : string) :
  In k (receivers skipId st) ->
  k <> skipId /\ socketOpen st k = true /\ In k (map fst (clients st)).
Proof.
  unfold receivers. intros H. apply in_map_iff in H.
  destruct H as ([k' c] & <- & Hin). apply filter_In in Hin.
  destruct Hin as [Hin Hc]. cbn [fst] in *.
  apply andb_prop in Hc. destruct Hc as [Hne Ho].
  repeat split; [|exact Ho|].
  - intros ->. rewrite String.eqb_refl in Hne. discriminate.
  - apply in_map_iff. exists (k', c). split; [reflexivity | exact Hin].
Qed.

Lemma get_set_same (id : string) (c : Client) (cs : list (string * Client)) :
  get id (set id c cs) = Some c.
Proof.
  induction cs as [|[k c0] cs IH]; cbn [set get].
  - rewrite String.eqb_refl. reflexivity.
  - destruct (String.eqb k id) eqn:E; cbn [get]; rewrite E;
      [reflexivity | exact IH].
Qed.

Lemma get_set_other (id k : string) (c : Client)
      (cs : list (string * Client)) :
  k <> id -> get k (set id c cs) = get k cs.
Proof.
  intros Hne. induction cs as [|[k0 c0] cs IH]; cbn [set get].
  - destruct (String.eqb id k) eqn:E; [|reflexivity].
    apply String.eqb_eq in E. congruence.
  - destruct (String.eqb k0 id) eqn:E; cbn [get].
    + apply String.eqb_eq in E. subst k0.
      destruct (String.eqb id k) eqn:E2; [|reflexivity].
      apply String.eqb_eq in E2. congruence.
    + rewrite IH. reflexivity.
Qed.

Lemma keys_set_known (id : string) (c c0 : Client)
      (cs : list (string * Client)) :
  get id cs = Some c0 -> map fst (set id c cs) = map fst cs.
Proof.
  induction cs as [|[k c1] cs IH]; cbn [get set map fst]; [discriminate|].
  destruct (String.eqb k id) eqn:E; intros H; cbn [map fst];
    [reflexivity | rewrite IH by exact H; reflexivity].
Qed.

End RelayFacts.

(** The relay's greeting: in every state the server can reach, a new
    connection is sent one [hello] that lists every other session with
    exactly the state stored for it (only the time stamp is read anew), and
    [player-joined] goes to every other session whose socket is open, in
    the order of the table; nothing else is sent. *)
Theorem relay_hello_lists_states (es : list Relay.Event) (st : Relay.State)
        (id : string) (now : Z) :
  Relay.run es Relay.empty = Some st ->
  Relay.effects (Relay.onConnection id now st)
  = Relay.effects st
    ++ Relay.Send id
         (Relay.Hello id
            (map (fun kc => (fst kc,
                             Relay.retime now (Relay.state (snd kc))))
                 (List.filter (fun kc => negb (String.eqb (fst kc) id))
                              (Relay.clients st)))
            Relay.WORLD_SEED)
    :: map (fun k => Relay.Send k (Relay.PlayerJoined id))
           (Relay.receivers id st).
Proof.
  intros Hrun.
  assert (Hn : Relay.allNormalised st).
  { apply (run_normalised es Relay.empty st); [constructor | exact Hrun]. }
  unfold Relay.onConnection. cbv zeta. unfold Relay.broadcast at 1.
  cbn [Relay.effects]. rewrite receivers_connection.
  rewrite <- app_assoc. cbn [app]. rewrite filter_set_other.
  do 4 f_equal.
  apply map_ext_in. intros [k c] Hin. cbn [fst snd].
  apply filter_In in Hin. destruct Hin as [Hin _].
  unfold Relay.allNormalised in Hn. rewrite List.Forall_forall in Hn.
  specialize (Hn (k, c) Hin). cbn [snd] in Hn. rewrite (Hn now).
  reflexivity.
Qed.

Lemma relay_hello_lists_states_witness :
  exists others,
    Relay.effects (Relay.onConnection "c" 20 Relay.sampleRelay)
    = Relay.effects Relay.sampleRelay
      ++ Relay.Send "c" (Relay.Hello "c" others Relay.WORLD_SEED)
      :: map (fun k => Relay.Send k (Relay.PlayerJoined "c"))
             (Relay.receivers "c" Relay.sampleRelay)
    /\ map fst others = ["a"; "b"].
Proof.
  eexists. split.
  - apply (relay_hello_lists_states
             [Relay.Connection "a" 0; Relay.Connection "b" 10]).
    reflexivity.
  - reflexivity.
Defined.

(** A [state] message from a session of the table: the relay stores the
    normalised state and the time, and sends it on to every other session
    whose socket is open, never to the sender; no other entry changes and
    the order of the table is kept. *)
Theorem relay_state_fanout (id : string) (data : Relay.Json) (now : Z)
        (st : Relay.State) (c : Relay.Client) :
  Relay.get id (Relay.clients st) = Some c ->
  Relay.isStateMessage data = true ->
  let state := Relay.snapshotState (Relay.prop "state" data) now in
  exists st',
    Relay.onMessage id (Relay.Parsed data) now st = Some st'
    /\ Relay.get id (Relay.clients st') = Some (Relay.mkClient state now)
    /\ (forall k, k <> id ->
                  Relay.get k (Relay.clients st')
                  = Relay.get k (Relay.clients st))
    /\ map fst (Relay.clients st') = map fst (Relay.clients st)
    /\ Relay.effects st'
       = Relay.effects st
         ++ map (fun k => Relay.Send k (Relay.StateOf id state))
                (Relay.receivers id st)
    /\ (forall k, In k (Relay.receivers id st) ->
                  k <> id /\ Relay.socketOpen st k = true
                  /\ In k (map fst (Relay.clients st))).
Proof.
  intros Hget Hmsg state.
  assert (Hnn : data <> Relay.JNull) by (intros ->; discriminate).
  eexists. split; [|split; [|split; [|split; [|split]]]].
  - unfold Relay.onMessage. destruct data; try contradiction;
      rewrite Hmsg, Hget; reflexivity.
  - cbn [Relay.broadcast Relay.clients]. apply get_set_same.
  - intros k Hk. cbn [Relay.broadcast Relay.clients].
    apply get_set_other. exact Hk.
  - cbn [Relay.broadcast Relay.clients].
    apply (keys_set_known id _ c). exact Hget.
  - cbn [Relay.broadcast Relay.effects]. f_equal.
    fold state. f_equal. unfold Relay.receivers. cbn [Relay.clients].
    f_equal.
    exact (filter_set_other_gen id (Relay.mkClient state now)
             (Relay.socketOpen st) (Relay.clients st)).
  - apply receivers_spec.
Qed.

Lemma relay_state_fanout_witness :
  exists st',
    Relay.onMessage "a" Relay.sampleFrame 30 Relay.sampleRelay = Some st'
    /\ map fst (Relay.clients st') = ["a"; "b"].
Proof.
  destruct (relay_state_fanout "a"
              (Relay.JObj
                 [ ("type", Relay.JStr "state");
                   ("state",
                    Relay.JObj [ ("p", Relay.JArr [Relay.JNum 1; Relay.JNum 0;
                                                   Relay.JNum 2]);
                                 ("s", Relay.JNum 3) ]) ])
              30 Relay.sampleRelay
              (Relay.mkClient (Relay.snapshotState None 0) 0)
              eq_refl eq_refl) as (st' & H & _ & _ & Hk & _).
  exists st'. split; [exact H | exact Hk].
Defined.

(** The [message] handler of the relay throws on exactly one frame: the
    text [null], which [JSON.parse] accepts and whose [type] cannot be
    read.  A frame that is not a [state] message with a state, or that
    comes from a session no longer in the table, changes nothing. *)
Theorem relay_null_frame_throws (id : string) (frame : Relay.Incoming)
        (now : Z) (st : Relay.State) :
  (Relay.onMessage id frame now st = None
   <-> frame = Relay.Parsed Relay.JNull)
  /\ (forall data,
        frame = Relay.Parsed data -> data <> Relay.JNull ->
        Relay.isStateMessage data = false
        \/ Relay.get id (Relay.clients st) = None ->
        Relay.onMessage id frame now st = Some st)
  /\ (frame = Relay.Malformed -> Relay.onMessage id frame now st = Some st).
Proof.
  split; [|split].
  - split.
    + unfold Relay.onMessage. destruct frame as [|data]; [discriminate|].
      destruct data; try reflexivity;
        (destruct (Relay.isStateMessage _);
         [destruct (Relay.get id (Relay.clients st)) |]; discriminate).
    + intros ->. reflexivity.
  - intros data -> Hnn Hor. unfold Relay.onMessage.
    destruct data; try contradiction;
      (destruct (Relay.isStateMessage _) eqn:E; [|reflexivity];
       destruct Hor as [Hor | Hor]; [discriminate|];
       rewrite Hor; reflexivity).
  - intros ->. reflexivity.
Qed.

(** ** Offline props and the safe zone *)

Section OfflinePropsFacts.
Import OfflineProps.
Local Open Scope R_scope.

Lemma attempts_spec (rnd : nat -> R) (sizeX sizeZ : R) :
  (forall i, 0 <= rnd i < 1) ->
  forall (n k : nat) (pos : R * R) (k' : nat),
    attempts n rnd k sizeX sizeZ = (Some pos, k') ->
    isInsideSafeZone (fst pos) (snd pos) (Rmax sizeX sizeZ + 1.0) = false
    /\ -55 <= fst pos <= 55 /\ -55 <= snd pos <= 55
    /\ (k + 2 <= k' <= k + 2 * n)%nat.
Proof.
  intros Hr. induction n as [|n IH]; intros k pos k' E; cbn [attempts] in E.
  - discriminate.
  - cbv zeta in E.
    destruct (isInsideSafeZone _ _ _) eqn:Ein.
    + destruct (IH _ _ _ E) as (H1 & H2 & H3 & H4).
      repeat split; try tauto; lia.
    + injection E as <- <-. cbn [fst snd].
      pose proof (Hr k). pose proof (Hr (k + 1)%nat).
      repeat split; try exact Ein; try lra; lia.
Qed.

Lemma attempts_none (rnd : nat -> R) (sizeX sizeZ : R) :
  forall (n k k' : nat),
    attempts n rnd k sizeX sizeZ = (None, k') -> k' = (k + 2 * n)%nat.
Proof.
  induction n as [|n IH]; intros k k' E; cbn [attempts] in E.
  - injection E as <-. lia.
  - cbv zeta in E. destruct (isInsideSafeZone _ _ _); [|discriminate].
    apply IH in E. lia.
Qed.

Lemma on_circle (a r : R) :
  0 <= r ->
  sqrt ((0 + cos a * r - 0) * (0 + cos a * r - 0)
        + (0 + sin a * r - 0) * (0 + sin a * r - 0)) = r.
Proof.
  intros Hr.
  replace ((0 + cos a * r - 0) * (0 + cos a * r - 0)
           + (0 + sin a * r - 0) * (0 + sin a * r - 0))
    with (r * r * ((sin a)² + (cos a)²)) by (unfold Rsqr; ring).
  rewrite sin2_cos2, Rmult_1_r. apply sqrt_square. exact Hr.
Qed.

End OfflinePropsFacts.

(** [findPropPosition]: whatever [Math.random()] returns, a prop no wider
    than 5 is placed outside the safe zone grown by its padding, that is at
    a distance of at least 10 + max(size.x, size.z) + 1 from the centre,
    with x and z in [-55, 55]; the search draws at least 2 and at most 18
    random values. *)
Theorem offline_prop_clear_of_safe_zone (rnd : nat -> R) (k : nat)
        (sizeX sizeZ : R) :
  (forall i, 0 <= rnd i < 1)%R -> (sizeX <= 5)%R -> (sizeZ <= 5)%R ->
  let r := OfflineProps.findPropPosition rnd k sizeX sizeZ in
  let x := fst (fst r) in
  let z := snd (fst r) in
  OfflineProps.isInsideSafeZone x z (Rmax sizeX sizeZ + 1.0) = false
  /\ (OfflineProps.radius + Rmax sizeX sizeZ + 1 <= sqrt (x * x + z * z))%R
  /\ (-55 <= x <= 55)%R /\ (-55 <= z <= 55)%R
  /\ (k + 2 <= snd r <= k + 18)%nat.
Proof.
  intros Hr Hx Hz r x z.
  assert (Hgoal :
    OfflineProps.isInsideSafeZone x z (Rmax sizeX sizeZ + 1.0) = false
    /\ (-55 <= x <= 55)%R /\ (-55 <= z <= 55)%R
    /\ (k + 2 <= snd r <= k + 18)%nat).
  { subst x z r. unfold OfflineProps.findPropPosition.
    destruct (OfflineProps.attempts 8 rnd k sizeX sizeZ) as [[pos|] k']
      eqn:E.
    - destruct (attempts_spec rnd sizeX sizeZ Hr 8 k pos k' E)
        as (H1 & H2 & H3 & H4).
      cbn [fst snd]. repeat split; try tauto; lia.
    - apply attempts_none in E. subst k'. cbv zeta. cbn [fst snd].
      set (a := (rnd (k + 2 * 8)%nat * PI * 2)%R).
      set (d := (OfflineProps.radius + 6
                 + rnd (k + 2 * 8 + 1)%nat * 18)%R).
      pose proof (Hr (k + 2 * 8 + 1)%nat) as Hd.
      assert (Hd16 : (16 <= d < 34)%R)
        by (unfold d, OfflineProps.radius; lra).
      pose proof (COS_bound a) as Hc. pose proof (SIN_bound a) as Hs.
      assert (Hm : (Rmax sizeX sizeZ <= 5)%R) by (apply Rmax_lub; assumption).
      split; [|split; [|split]].
      + unfold OfflineProps.isInsideSafeZone. cbv zeta.
        rewrite on_circle by lra.
        destruct (Rlt_dec d _) as [Hlt|]; [|reflexivity].
        unfold OfflineProps.radius in Hlt. lra.
      + split; nra.
      + split; nra.
      + lia. }
  destruct Hgoal as (Hin & Hbx & Hbz & Hk).
  split; [exact Hin|]. split; [|tauto].
  unfold OfflineProps.isInsideSafeZone in Hin. cbv zeta in Hin.
  replace ((x - 0) * (x - 0) + (z - 0) * (z - 0))%R
    with (x * x + z * z)%R in Hin by ring.
  destruct (Rlt_dec (sqrt (x * x + z * z)) _) as [|Hge]; [discriminate|].
  lra.
Qed.

Lemma offline_prop_clear_of_safe_zone_witness :
  let r := OfflineProps.findPropPosition (fun _ => 0%R) 0 (1 / 2) (1 / 2) in
  OfflineProps.isInsideSafeZone (fst (fst r)) (snd (fst r))
    (Rmax (1 / 2) (1 / 2) + 1.0) = false.
Proof.
  intros r.
  refine (proj1 (offline_prop_clear_of_safe_zone (fun _ => 0%R) 0 (1 / 2)
                   (1 / 2) _ _ _)).
  - intros _. lra.
  - lra.
  - lra.
Defined.

(** ** The CORS policy of the servers *)

Section CorsFacts.
Import Cors.

Lemma allowList_cases (origin : option string) :
  allowList origin
  = match origin with
    | None => Some "*"
    | Some o =>
        if String.eqb o EmptyString then Some "*"
        else if endsWith o ".netlify.app" then Some o else None
    end.
Proof.
  unfold allowList. destruct origin as [o|]; [|reflexivity].
  destruct (String.eqb o EmptyString); [reflexivity|].
  destruct (endsWith o ".netlify.app") eqn:E; [reflexivity|].
  destruct (String.eqb o "https://mini-car-3d.netlify.app") eqn:E2;
    [|reflexivity].
  apply String.eqb_eq in E2. subst o. discriminate.
Qed.

Lemma header_allow (origin : option string) :
  header "Access-Control-Allow-Origin" (headers origin) = allowList origin.
Proof. unfold headers. destruct (allowList origin); reflexivity. Qed.

End CorsFacts.

(** The CORS policy of the HTTP handler.  An origin is allowed exactly
    when it is absent or empty (the answer is then the wildcard) or ends
    in [.netlify.app] (the answer is then the origin itself); the separate
    comparison with the project's own origin never decides.  Every
    response carries [Access-Control-Allow-Origin] exactly when the origin
    is allowed, with that answer; a preflight is answered 204 when allowed
    and 403 otherwise, [/health] 200 or 403. *)
Theorem cors_policy (req : Cors.Request) :
  let allowed := Cors.allowList (Cors.origin req) in
  allowed
  = match Cors.origin req with
    | None => Some "*"
    | Some o =>
        if String.eqb o EmptyString then Some "*"
        else if Cors.endsWith o ".netlify.app" then Some o else None
    end
  /\ Cors.allowOrigin (Cors.handle req) = allowed
  /\ (forall status hs body,
        Cors.handle req = Cors.Responded status hs body ->
        (status = 403%nat <-> allowed = None)
        /\ (status = 403%nat \/ status = 204%nat \/ status = 200%nat)
        /\ (status = 204%nat <->
            String.eqb (Cors.method req) "OPTIONS" = true
            /\ allowed <> None)).
Proof.
  intros allowed. split; [apply allowList_cases|]. split.
  - unfold Cors.handle, Cors.allowOrigin. cbv zeta.
    destruct (String.eqb (Cors.method req) "OPTIONS").
    + subst allowed. rewrite <- header_allow.
      unfold Cors.headers. destruct (Cors.allowList (Cors.origin req));
        reflexivity.
    + destruct (String.eqb (Cors.url req) "/health").
      * subst allowed. unfold Cors.headers.
        destruct (Cors.allowList (Cors.origin req)); reflexivity.
      * apply header_allow.
  - intros status hs body. unfold Cors.handle. cbv zeta. subst allowed.
    destruct (String.eqb (Cors.method req) "OPTIONS").
    + destruct (Cors.allowList (Cors.origin req)); cbn [Cors.isSome];
        intros E; injection E as <- _ _;
        intuition (try discriminate; try congruence).
    + destruct (String.eqb (Cors.url req) "/health"); [|discriminate].
      destruct (Cors.allowList (Cors.origin req)); cbn [Cors.isSome negb];
        intros E; injection E as <- _ _;
        intuition (try discriminate; try congruence).
Qed.
